(** * Stream.Place Plays: the command pipeline of the chat listener

    A shallow embedding of the TypeScript listener (the chat command parser,
    the chatter activity window, the identity cache and the command queue
    with its single consumer) together with the properties its
    specification states about them.

    Strings.  A JavaScript string is a sequence of UTF-16 code units.  The
    embedding uses [string] (a sequence of 8-bit characters) and reads a
    character as the code unit of the same number, so it covers the strings
    whose code units are all below 256.  On those, [trim], [toLowerCase]
    and the character classes of the regular expression are exactly the
    functions below.

    Numbers.  Time stamps, durations and repeat counts are integers far
    below 2^53 in the program; they are embedded as [Z].

    Time.  Every call of [Date.now()] has a reading of its own: a run
    of the listener is given a [Clock.t], which holds one reading for
    each place where the run calls [Date.now()].  Nothing is assumed
    about the readings; where a property needs them in order, it says
    so. *)

From Equations Require Import Equations.
From Stdlib Require Import ZArith Ascii.
From stdpp Require Import base option list gmap strings sorting.

Local Open Scope Z_scope.

(** ** Strings as the listener uses them *)

Module JsString.

(** ECMAScript [LineTerminator] (below 256): LF and CR. *)
Definition isLineTerminator (c : ascii) : bool :=
  match c with
  | "010" | "013" => true
  | _ => false
  end%char.

(** ECMAScript [WhiteSpace] and [LineTerminator] (below 256): what
    [String.prototype.trim] strips and what [\s] matches. *)
Definition isWhiteSpace (c : ascii) : bool :=
  match c with
  | "009" | "010" | "011" | "012" | "013" | " " | "160" => true
  | _ => false
  end%char.

(** [\d] *)
Definition isDigit (c : ascii) : bool :=
  match c with
  | "0" | "1" | "2" | "3" | "4" | "5" | "6" | "7" | "8" | "9" => true
  | _ => false
  end%char.

(** [toLowerCase] on one code unit below 256: A-Z and the upper case
    letters of Latin-1 (0xC0-0xDE but the multiplication sign 0xD7). *)
Definition lowerChar (c : ascii) : ascii :=
  let n := N_of_ascii c in
  if ((65 <=? n) && (n <=? 90) ||
      (192 <=? n) && (n <=? 222) && negb (n =? 215))%N
  then ascii_of_N (n + 32) else c.

Fixpoint toLowerCase (s : string) : string :=
  match s with
  | "" => ""
  | String c s' => String (lowerChar c) (toLowerCase s')
  end.

Fixpoint trimStart (s : string) : string :=
  match s with
  | "" => ""
  | String c s' => if isWhiteSpace c then trimStart s' else s
  end.

Fixpoint trimEnd (s : string) : string :=
  match s with
  | "" => ""
  | String c s' =>
      match trimEnd s' with
      | "" => if isWhiteSpace c then "" else String c ""
      | r => String c r
      end
  end.

Definition trim (s : string) : string := trimEnd (trimStart s).

(** [s.length === 0] *)
Definition isEmpty (s : string) : bool :=
  match s with "" => true | _ => false end.

(** [s.endsWith(c)] for a one-character [c] *)
Fixpoint endsWith (s : string) (c : ascii) : bool :=
  match s with
  | "" => false
  | String a s' =>
      match s' with
      | "" => bool_decide (a = c)
      | _ => endsWith s' c
      end
  end.

(** [s.slice(0, -1)] *)
Fixpoint dropLast (s : string) : string :=
  match s with
  | "" => ""
  | String a s' =>
      match s' with
      | "" => ""
      | _ => String a (dropLast s')
      end
  end.

(** [s.split(sep)] for a one-character [sep]: never empty, [""] gives
    one empty part. *)
Fixpoint split (sep : ascii) (s : string) : list string :=
  match s with
  | "" => [""]
  | String c s' =>
      if bool_decide (c = sep) then "" :: split sep s'
      else match split sep s' with
           | part :: parts => String c part :: parts
           | [] => [String c ""]
           end
  end.

(** [parts.join(sep)] *)
Fixpoint join (sep : string) (parts : list string) : string :=
  match parts with
  | [] => ""
  | part :: parts' =>
      match parts' with
      | [] => part
      | _ => part +:+ sep +:+ join sep parts'
      end
  end.

Definition digitValue (c : ascii) : Z := Z.of_N (N_of_ascii c) - 48.

(** [Number.parseInt(s, 10)] on a string of decimal digits (the only
    strings the listener passes, by the pattern [\d+]).  The value is
    exact here; JavaScript rounds above 2^53 and gives [Infinity] for
    very long digit strings, values the caller rejects in either
    reading since they are above 100. *)
Definition parseInt10 (s : string) : Z :=
  (fix go (acc : Z) (s : string) : Z :=
     match s with
     | "" => acc
     | String c s' => go (10 * acc + digitValue c) s'
     end) 0 s.

(** *** The fragment of regular expressions the listener uses

    An anchored pattern [^ a1 a2 ... an $] of atoms, each a character
    class with a quantifier, matched by backtracking as ECMAScript
    does: a greedy [+] tries the longest run first, a lazy [+?] the
    shortest. *)

Inductive CharClass :=
| Dot                 (* [.]  any character but a line terminator *)
| Space               (* [\s] *)
| Digit               (* [\d] *)
| Lit (c : ascii).    (* a literal character *)

Inductive Quantifier := Once | PlusGreedy | PlusLazy.

Record Atom := mkAtom {
  atomClass : CharClass;
  atomQuant : Quantifier;
  atomGroup : bool     (* is the atom a capture group *)
}.

Definition accepts (k : CharClass) (c : ascii) : bool :=
  match k with
  | Dot => negb (isLineTerminator c)
  | Space => isWhiteSpace c
  | Digit => isDigit c
  | Lit d => bool_decide (c = d)
  end.

Definition capture (a : Atom) (text : string) (groups : list string)
  : list string :=
  if atomGroup a then text :: groups else groups.

(** [snoc s c] is [s] followed by [c]. *)
Definition snoc (s : string) (c : ascii) : string := s +:+ String c "".

(** [a+?] followed by the rest of the pattern [k]: the shortest run of
    accepted characters after which [k] matches. *)
Fixpoint plusLazy {R} (accept : ascii → bool) (k : string → string → option R)
    (taken s : string) : option R :=
  match s with
  | "" => None
  | String c s' =>
      if accept c then
        match k (snoc taken c) s' with
        | Some r => Some r
        | None => plusLazy accept k (snoc taken c) s'
        end
      else None
  end.

(** [a+] followed by [k]: the longest such run. *)
Fixpoint plusGreedy {R} (accept : ascii → bool) (k : string → string → option R)
    (taken s : string) : option R :=
  match s with
  | "" => None
  | String c s' =>
      if accept c then
        match plusGreedy accept k (snoc taken c) s' with
        | Some r => Some r
        | None => k (snoc taken c) s'
        end
      else None
  end.

(** [matchAtoms p s]: the capture groups when the whole of [s] matches
    the atoms [p], first match in backtracking order. *)
Fixpoint matchAtoms (p : list Atom) (s : string) : option (list string) :=
  match p with
  | [] => if isEmpty s then Some [] else None
  | a :: p' =>
      let k := λ taken rest, capture a taken <$> matchAtoms p' rest in
      match atomQuant a with
      | Once =>
          match s with
          | "" => None
          | String c s' =>
              if accepts (atomClass a) c then k (String c "") s' else None
          end
      | PlusLazy => plusLazy (accepts (atomClass a)) k "" s
      | PlusGreedy => plusGreedy (accepts (atomClass a)) k "" s
      end
  end.

(** [allChars f s]: every character of [s] satisfies [f]. *)
Fixpoint allChars (f : ascii → bool) (s : string) : bool :=
  match s with
  | "" => true
  | String c s' => f c && allChars f s'
  end.

End JsString.

Import JsString.

(** ** The command parser *)

Module Parser.

Record ParsedCommand := mkParsed {
  buttons : list string;
  durationMs : Z;
  normalized : string;
  repeatCount : Z
}.

Definition SUPPORTED_COMMANDS : list string :=
  ["up"; "down"; "left"; "right"; "a"; "b"; "start"; "select"; "l"; "r"].

(** [SUPPORTED_COMMANDS.has(button)] *)
Definition supported (button : string) : bool :=
  bool_decide (button ∈ SUPPORTED_COMMANDS).

Definition MAX_COMMAND_SPAM_REPEAT : Z := 100.

Definition normalizeCommand (raw : string) : string :=
  toLowerCase (trim raw).

(** The pattern [/^(.+?)\s+x(\d+)$/]. *)
Definition spamPattern : list Atom :=
  [ mkAtom Dot PlusLazy true;
    mkAtom Space PlusGreedy false;
    mkAtom (Lit "x") Once false;
    mkAtom Digit PlusGreedy true ].

(** [normalizedRaw.match(...)]: the two groups of a match. *)
Definition spamMatch (s : string) : option (string * string) :=
  match matchAtoms spamPattern s with
  | Some [commandRaw; repeatRaw] => Some (commandRaw, repeatRaw)
  | _ => None
  end.

Section WithDurations.

(** The two key press durations come from the environment. *)
Variables KEYPRESS_DURATION_MS LONG_KEYPRESS_DURATION_MS : Z.

(** The part of [parseCommand] after the repeat suffix block. *)
Definition parseCombo (normalizedRaw : string) : option ParsedCommand :=
  let isExtendedHold := endsWith normalizedRaw "-" in
  let base :=
    if isExtendedHold then trim (dropLast normalizedRaw)
    else normalizedRaw in
  if isEmpty base then None else
  let buttons := trim <$> split "+" base in
  if bool_decide (length buttons = 0 ∨ 2 < length buttons)%nat
  then None else
  if forallb (λ button, negb (isEmpty button) && supported button) buttons
  then
    let durationMs :=
      if isExtendedHold then LONG_KEYPRESS_DURATION_MS
      else KEYPRESS_DURATION_MS in
    Some {| buttons := buttons;
            durationMs := durationMs;
            normalized :=
              join "+" buttons +:+ (if isExtendedHold then "-" else "");
            repeatCount := 1 |}
  else None.

Equations? parseCommand (raw : string) (allowCommandSpam : bool)
  : option ParsedCommand by wf (Nat.b2n allowCommandSpam) lt :=
  parseCommand raw allowCommandSpam with normalizeCommand raw => {
    | "" => None
    | normalizedRaw with spamMatch normalizedRaw, allowCommandSpam => {
        | Some _, false => None
        | Some (commandRaw, repeatRaw), true =>
            let repeatCount := parseInt10 repeatRaw in
            if bool_decide (repeatCount < 2 ∨
                            MAX_COMMAND_SPAM_REPEAT < repeatCount)
            then None
            else
              match parseCommand commandRaw false with
              | None => None
              | Some baseCommand =>
                  Some {| buttons := buttons baseCommand;
                          durationMs := durationMs baseCommand;
                          normalized := normalized baseCommand;
                          repeatCount := repeatCount |}
              end
        | None, _ => parseCombo normalizedRaw
      }
  }.
Proof. simpl. lia. Qed.

End WithDurations.

End Parser.

Import Parser.

(** ** The combo rule in the words of the specification

    After trimming, lower-casing and stripping one trailing [-], the rest
    is split on [+]; the rule wants one or two parts, each a non-empty
    member of the vocabulary. *)

Module ParserSpec.

Definition holdSuffix (raw : string) : bool :=
  endsWith (normalizeCommand raw) "-".

Definition comboText (raw : string) : string :=
  if holdSuffix raw then dropLast (normalizeCommand raw)
  else normalizeCommand raw.

Definition comboParts (raw : string) : list string :=
  split "+" (comboText raw).

Definition inVocabulary (b : string) : Prop :=
  b ≠ "" ∧ b ∈ SUPPORTED_COMMANDS.

Definition oneOrTwo {A} (l : list A) : Prop :=
  length l = 1%nat ∨ length l = 2%nat.

(** The result the rule describes for the buttons [parts]. *)
Definition comboResult (K L : Z) (hold : bool) (parts : list string)
  : ParsedCommand :=
  {| buttons := parts;
     durationMs := if hold then L else K;
     normalized := join "+" parts +:+ (if hold then "-" else "");
     repeatCount := 1 |}.

(** A repeat suffix copies the base command and sets the count. *)
Definition withRepeat (n : Z) (b : ParsedCommand) : ParsedCommand :=
  {| buttons := buttons b; durationMs := durationMs b;
     normalized := normalized b; repeatCount := n |}.

End ParserSpec.

Import ParserSpec.

(** ** The chatter activity window *)

Module ChatterEntry.
Record t := mk { did : string; createdAt : Z }.
End ChatterEntry.

Module Tracker.

Definition CHATTER_WINDOW_MS : Z := 10 * 60 * 1000.
Definition MIN_UNIQUE_CHATTERS_FOR_NO_SPAM : Z := 3.

(** The [while (true)] loop of [countUniqueChattersInWindow]: [shift]
    the first entry while there is one and it is older than the
    cutoff. *)
Fixpoint evictExpired (cutoff : Z) (chatterActivity : list ChatterEntry.t)
  : list ChatterEntry.t :=
  match chatterActivity with
  | [] => []
  | first :: rest =>
      if bool_decide (cutoff ≤ ChatterEntry.createdAt first)
      then chatterActivity
      else evictExpired cutoff rest
  end.

(** [new Set(chatterActivity.map((entry) => entry.did)).size] *)
Definition uniqueDids (chatterActivity : list ChatterEntry.t) : Z :=
  Z.of_nat (size (list_to_set (ChatterEntry.did <$> chatterActivity)
                    : gset string)).

(** The function returns the count and leaves the array as the second
    component. *)
Definition countUniqueChattersInWindow (now : Z)
    (chatterActivity : list ChatterEntry.t) : Z * list ChatterEntry.t :=
  let cutoff := now - CHATTER_WINDOW_MS in
  let chatterActivity := evictExpired cutoff chatterActivity in
  (uniqueDids chatterActivity, chatterActivity).

Definition recordChatterAndCountUnique (did : string) (now : Z)
    (chatterActivity : list ChatterEntry.t) : Z * list ChatterEntry.t :=
  countUniqueChattersInWindow now
    (chatterActivity ++ [ChatterEntry.mk did now]).

End Tracker.

Import Tracker.

(** ** The clock *)

(** The readings of [Date.now()] during one run to completion.  A
    function that calls [Date.now()] more than once, or calls functions
    that do, is given a clock [now]: [Clock.read now k] is the reading
    of the call of [Date.now()] at place [k] of its body, and
    [Clock.sub now k] holds the readings of the function called at
    place [k].  The places of a body are numbered in the order of the
    text, so no two calls of [Date.now()] of a run share a reading.  A
    function that reads the clock once is given the reading itself. *)
Module Clock.

Definition t : Type := list nat → Z.

Definition read (now : t) (place : nat) : Z := now [place].

Definition sub (now : t) (place : nat) : t := λ path, now (place :: path).

(** The clock that stands still at [time]. *)
Definition const (time : Z) : t := λ _, time.

End Clock.

(** ** The listener: overlay state, identity cache and command queue *)

Inductive QueueStatus := Queued | Active | Done | Error.

Global Instance QueueStatus_eq_dec : EqDecision QueueStatus.
Proof. solve_decision. Defined.

Module ChatMessage.
Record t := mk {
  id : string;
  did : string;
  user : string;
  handle : option string;
  avatarUrl : option string;
  text : string;
  isCommand : bool;
  createdAt : Z
}.
End ChatMessage.

Module QueueItem.
Record t := mk {
  id : string;
  did : string;
  user : string;
  handle : option string;
  avatarUrl : option string;
  command : string;
  status : QueueStatus;
  createdAt : Z
}.

Definition withStatus (st : QueueStatus) (item : t) : t :=
  mk (id item) (did item) (user item) (handle item) (avatarUrl item)
     (command item) st (createdAt item).
End QueueItem.

Module ResolvedIdentity.
Record t := mk {
  did : string;
  handle : option string;
  displayName : option string;
  avatarUrl : option string
}.
End ResolvedIdentity.

Module CacheEntry.
Record t := mk { identity : ResolvedIdentity.t; expiresAt : Z }.
End CacheEntry.

Module SpamAbility.
Record t := mk {
  enabled : bool;
  uniqueChatters : Z;
  threshold : Z;
  windowMinutes : Z
}.
End SpamAbility.

Module OverlaySnapshot.
Record t := mk {
  chat : list ChatMessage.t;
  queue : list QueueItem.t;
  activeCommandId : option string;
  spamAbility : SpamAbility.t
}.
End OverlaySnapshot.

(** A call of the anonymous async function of [enqueueCommand] that is
    suspended at [await sleep(SPAM_REPEAT_DELAY_MS)], with its loop
    variable [i]. *)
Module Repeater.
Record t := mk { command : ParsedCommand; did : string; i : Z }.
End Repeater.

(** Where the one call of [processQueue] that set [processingQueue] is
    suspended. *)
Inductive Consumer :=
| Idle                        (* no call is suspended *)
| AwaitDispatch (next : nat)  (* at [await dispatchMgbaCommand(...)] *)
| AwaitDelay.                 (* at [await sleep(QUEUE_COMMAND_DELAY_MS)] *)

(** How a call of [fetchIdentityFromSlingshot] settles. *)
Inductive LookupOutcome :=
| LookupFound (handle displayName avatarUrl : option string)
| LookupEmpty
| LookupFailed.

Module Listener.

Definition MAX_CHAT_MESSAGES : nat := 35.
Definition MAX_QUEUE_ITEMS : nat := 40.
Definition IDENTITY_CACHE_TTL_MS : Z := 15 * 60 * 1000.

(** The module-level variables of the listener.  Queue items are
    objects: [heap] holds them by reference and [commandQueue] is the
    array of references, since the consumer keeps its [next] across
    [await] while the array is trimmed and the items are patched.

    [consumer] and [repeaters] are the suspended calls.  [arrivals]
    is the history of the references pushed on [commandQueue].  The last
    three fields record what the listener did to the outside: the
    snapshots it sent to the overlay, its calls of
    [dispatchMgbaCommand] and its calls of
    [fetchIdentityFromSlingshot], oldest first. *)
Record State := mkState {
  chatMessages : list ChatMessage.t;
  heap : gmap nat QueueItem.t;
  commandQueue : list nat;
  identityCache : gmap string CacheEntry.t;
  pendingIdentityLookups : gset string;
  chatterActivity : list ChatterEntry.t;
  activeCommandId : option string;
  processingQueue : bool;
  consumer : Consumer;
  repeaters : list Repeater.t;
  arrivals : list nat;
  pushed : list OverlaySnapshot.t;
  dispatched : list (list string * Z);
  lookups : list string
}.

Definition set_chatMessages (v : list ChatMessage.t) (s : State) : State :=
  {| chatMessages := v;
     heap := heap s;
     commandQueue := commandQueue s;
     identityCache := identityCache s;
     pendingIdentityLookups := pendingIdentityLookups s;
     chatterActivity := chatterActivity s;
     activeCommandId := activeCommandId s;
     processingQueue := processingQueue s;
     consumer := consumer s;
     repeaters := repeaters s;
     arrivals := arrivals s;
     pushed := pushed s;
     dispatched := dispatched s;
     lookups := lookups s |}.

Definition set_heap (v : gmap nat QueueItem.t) (s : State) : State :=
  {| chatMessages := chatMessages s;
     heap := v;
     commandQueue := commandQueue s;
     identityCache := identityCache s;
     pendingIdentityLookups := pendingIdentityLookups s;
     chatterActivity := chatterActivity s;
     activeCommandId := activeCommandId s;
     processingQueue := processingQueue s;
     consumer := consumer s;
     repeaters := repeaters s;
     arrivals := arrivals s;
     pushed := pushed s;
     dispatched := dispatched s;
     lookups := lookups s |}.

Definition set_commandQueue (v : list nat) (s : State) : State :=
  {| chatMessages := chatMessages s;
     heap := heap s;
     commandQueue := v;
     identityCache := identityCache s;
     pendingIdentityLookups := pendingIdentityLookups s;
     chatterActivity := chatterActivity s;
     activeCommandId := activeCommandId s;
     processingQueue := processingQueue s;
     consumer := consumer s;
     repeaters := repeaters s;
     arrivals := arrivals s;
     pushed := pushed s;
     dispatched := dispatched s;
     lookups := lookups s |}.

Definition set_identityCache (v : gmap string CacheEntry.t) (s : State) : State :=
  {| chatMessages := chatMessages s;
     heap := heap s;
     commandQueue := commandQueue s;
     identityCache := v;
     pendingIdentityLookups := pendingIdentityLookups s;
     chatterActivity := chatterActivity s;
     activeCommandId := activeCommandId s;
     processingQueue := processingQueue s;
     consumer := consumer s;
     repeaters := repeaters s;
     arrivals := arrivals s;
     pushed := pushed s;
     dispatched := dispatched s;
     lookups := lookups s |}.

Definition set_pendingIdentityLookups (v : gset string) (s : State) : State :=
  {| chatMessages := chatMessages s;
     heap := heap s;
     commandQueue := commandQueue s;
     identityCache := identityCache s;
     pendingIdentityLookups := v;
     chatterActivity := chatterActivity s;
     activeCommandId := activeCommandId s;
     processingQueue := processingQueue s;
     consumer := consumer s;
     repeaters := repeaters s;
     arrivals := arrivals s;
     pushed := pushed s;
     dispatched := dispatched s;
     lookups := lookups s |}.

Definition set_chatterActivity (v : list ChatterEntry.t) (s : State) : State :=
  {| chatMessages := chatMessages s;
     heap := heap s;
     commandQueue := commandQueue s;
     identityCache := identityCache s;
     pendingIdentityLookups := pendingIdentityLookups s;
     chatterActivity := v;
     activeCommandId := activeCommandId s;
     processingQueue := processingQueue s;
     consumer := consumer s;
     repeaters := repeaters s;
     arrivals := arrivals s;
     pushed := pushed s;
     dispatched := dispatched s;
     lookups := lookups s |}.

Definition set_activeCommandId (v : option string) (s : State) : State :=
  {| chatMessages := chatMessages s;
     heap := heap s;
     commandQueue := commandQueue s;
     identityCache := identityCache s;
     pendingIdentityLookups := pendingIdentityLookups s;
     chatterActivity := chatterActivity s;
     activeCommandId := v;
     processingQueue := processingQueue s;
     consumer := consumer s;
     repeaters := repeaters s;
     arrivals := arrivals s;
     pushed := pushed s;
     dispatched := dispatched s;
     lookups := lookups s |}.

Definition set_processingQueue (v : bool) (s : State) : State :=
  {| chatMessages := chatMessages s;
     heap := heap s;
     commandQueue := commandQueue s;
     identityCache := identityCache s;
     pendingIdentityLookups := pendingIdentityLookups s;
     chatterActivity := chatterActivity s;
     activeCommandId := activeCommandId s;
     processingQueue := v;
     consumer := consumer s;
     repeaters := repeaters s;
     arrivals := arrivals s;
     pushed := pushed s;
     dispatched := dispatched s;
     lookups := lookups s |}.

Definition set_consumer (v : Consumer) (s : State) : State :=
  {| chatMessages := chatMessages s;
     heap := heap s;
     commandQueue := commandQueue s;
     identityCache := identityCache s;
     pendingIdentityLookups := pendingIdentityLookups s;
     chatterActivity := chatterActivity s;
     activeCommandId := activeCommandId s;
     processingQueue := processingQueue s;
     consumer := v;
     repeaters := repeaters s;
     arrivals := arrivals s;
     pushed := pushed s;
     dispatched := dispatched s;
     lookups := lookups s |}.

Definition set_repeaters (v : list Repeater.t) (s : State) : State :=
  {| chatMessages := chatMessages s;
     heap := heap s;
     commandQueue := commandQueue s;
     identityCache := identityCache s;
     pendingIdentityLookups := pendingIdentityLookups s;
     chatterActivity := chatterActivity s;
     activeCommandId := activeCommandId s;
     processingQueue := processingQueue s;
     consumer := consumer s;
     repeaters := v;
     arrivals := arrivals s;
     pushed := pushed s;
     dispatched := dispatched s;
     lookups := lookups s |}.

Definition set_arrivals (v : list nat) (s : State) : State :=
  {| chatMessages := chatMessages s;
     heap := heap s;
     commandQueue := commandQueue s;
     identityCache := identityCache s;
     pendingIdentityLookups := pendingIdentityLookups s;
     chatterActivity := chatterActivity s;
     activeCommandId := activeCommandId s;
     processingQueue := processingQueue s;
     consumer := consumer s;
     repeaters := repeaters s;
     arrivals := v;
     pushed := pushed s;
     dispatched := dispatched s;
     lookups := lookups s |}.

Definition set_pushed (v : list OverlaySnapshot.t) (s : State) : State :=
  {| chatMessages := chatMessages s;
     heap := heap s;
     commandQueue := commandQueue s;
     identityCache := identityCache s;
     pendingIdentityLookups := pendingIdentityLookups s;
     chatterActivity := chatterActivity s;
     activeCommandId := activeCommandId s;
     processingQueue := processingQueue s;
     consumer := consumer s;
     repeaters := repeaters s;
     arrivals := arrivals s;
     pushed := v;
     dispatched := dispatched s;
     lookups := lookups s |}.

Definition set_dispatched (v : list (list string * Z)) (s : State) : State :=
  {| chatMessages := chatMessages s;
     heap := heap s;
     commandQueue := commandQueue s;
     identityCache := identityCache s;
     pendingIdentityLookups := pendingIdentityLookups s;
     chatterActivity := chatterActivity s;
     activeCommandId := activeCommandId s;
     processingQueue := processingQueue s;
     consumer := consumer s;
     repeaters := repeaters s;
     arrivals := arrivals s;
     pushed := pushed s;
     dispatched := v;
     lookups := lookups s |}.

Definition set_lookups (v : list string) (s : State) : State :=
  {| chatMessages := chatMessages s;
     heap := heap s;
     commandQueue := commandQueue s;
     identityCache := identityCache s;
     pendingIdentityLookups := pendingIdentityLookups s;
     chatterActivity := chatterActivity s;
     activeCommandId := activeCommandId s;
     processingQueue := processingQueue s;
     consumer := consumer s;
     repeaters := repeaters s;
     arrivals := arrivals s;
     pushed := pushed s;
     dispatched := dispatched s;
     lookups := v |}.

Definition initial : State :=
  {| chatMessages := [];
     heap := ∅;
     commandQueue := [];
     identityCache := ∅;
     pendingIdentityLookups := ∅;
     chatterActivity := [];
     activeCommandId := None;
     processingQueue := false;
     consumer := Idle;
     repeaters := [];
     arrivals := [];
     pushed := [];
     dispatched := [];
     lookups := [] |}.

(** *** Labels *)

Definition shortenDid (did : string) : string :=
  if bool_decide (String.length did ≤ 18)%nat then did
  else String.substring 0 10 did +:+ "..." +:+
       String.substring (String.length did - 5) 5 did.

Definition formatHandle (handle : string) : string :=
  let normalized :=
    match handle with
    | String "@" rest => rest
    | _ => handle
    end in
  "@" +:+ normalized.

(** [value && value.trim().length > 0] for an optional string *)
Definition nonBlank (value : option string) : option string :=
  match value with
  | Some v => if isEmpty v || isEmpty (trim v) then None else Some v
  | None => None
  end.

Definition userLabelForIdentity (identity : ResolvedIdentity.t)
    (fallbackDid : string) : string :=
  match nonBlank (ResolvedIdentity.displayName identity) with
  | Some displayName => trim displayName
  | None =>
      match nonBlank (ResolvedIdentity.handle identity) with
      | Some handle => formatHandle (trim handle)
      | None => shortenDid fallbackDid
      end
  end.

Definition queueLabelForIdentity (identity : ResolvedIdentity.t)
    (fallbackDid : string) : string :=
  match nonBlank (ResolvedIdentity.handle identity) with
  | Some handle => formatHandle (trim handle)
  | None => shortenDid fallbackDid
  end.

Definition localIdentityFromRecord (did : string)
    (handle displayName avatarUrl : option string)
  : option ResolvedIdentity.t :=
  match handle, displayName, avatarUrl with
  | None, None, None => None
  | _, _, _ => Some (ResolvedIdentity.mk did handle displayName avatarUrl)
  end.

Definition cachedIdentityForDid (did : string) (now : Z) (s : State)
  : option ResolvedIdentity.t :=
  match identityCache s !! did with
  | Some cached =>
      if bool_decide (CacheEntry.expiresAt cached ≤ now) then None
      else Some (CacheEntry.identity cached)
  | None => None
  end.

(** *** The overlay *)

(** The items the references of [commandQueue] stand for. *)
Definition queueItems (s : State) : list QueueItem.t :=
  omap (λ ref, heap s !! ref) (commandQueue s).

(** [snapshot()]; [now] is the value of [Date.now()]. *)
Definition snapshot (now : Z) (s : State) : OverlaySnapshot.t * State :=
  let '(uniqueChatters, chatterActivity) :=
    countUniqueChattersInWindow now (chatterActivity s) in
  let s := set_chatterActivity chatterActivity s in
  (OverlaySnapshot.mk (chatMessages s) (queueItems s) (activeCommandId s)
     (SpamAbility.mk
        (bool_decide (uniqueChatters < MIN_UNIQUE_CHATTERS_FOR_NO_SPAM))
        uniqueChatters
        MIN_UNIQUE_CHATTERS_FOR_NO_SPAM
        (CHATTER_WINDOW_MS / (60 * 1000))),
   s).

(** [broadcast()]: the snapshot goes to the overlay clients. *)
Definition broadcast (now : Z) (s : State) : State :=
  let '(data, s) := snapshot now s in
  set_pushed (pushed s ++ [data]) s.

(** [sseStream]: a client that connects is sent a snapshot. *)
Definition sseStream (now : Z) (s : State) : State :=
  let '(data, s) := snapshot now s in
  set_pushed (pushed s ++ [data]) s.

(** [pushChatMessage]: place 0 is the [Date.now()] of [createdAt],
    place 1 the one of [broadcast()].  The id of the message is what
    the template string of the first field evaluates to. *)
Definition pushChatMessage (did user text : string) (isCommand : bool)
    (now : Clock.t) (id : string) (s : State) : State :=
  let message :=
    ChatMessage.mk id did user None None text isCommand (Clock.read now 0) in
  let chatMessages := chatMessages s ++ [message] in
  let chatMessages :=
    if bool_decide (MAX_CHAT_MESSAGES < length chatMessages)%nat
    then drop (length chatMessages - MAX_CHAT_MESSAGES) chatMessages
    else chatMessages in
  broadcast (Clock.read now 1) (set_chatMessages chatMessages s).

(** *** The identity cache *)

(** One turn of the first loop of [applyIdentityToOverlay]. *)
Definition patchMessage (identity : ResolvedIdentity.t)
    (message : ChatMessage.t) : ChatMessage.t * bool :=
  if bool_decide (ChatMessage.did message ≠ ResolvedIdentity.did identity)
  then (message, false)
  else
    let user := userLabelForIdentity identity (ResolvedIdentity.did identity) in
    if bool_decide
         (ChatMessage.user message ≠ user ∨
          ChatMessage.handle message ≠ ResolvedIdentity.handle identity ∨
          ChatMessage.avatarUrl message ≠ ResolvedIdentity.avatarUrl identity)
    then (ChatMessage.mk (ChatMessage.id message) (ChatMessage.did message)
            user (ResolvedIdentity.handle identity)
            (ResolvedIdentity.avatarUrl identity)
            (ChatMessage.text message) (ChatMessage.isCommand message)
            (ChatMessage.createdAt message), true)
    else (message, false).

(** One turn of its second loop. *)
Definition patchItem (identity : ResolvedIdentity.t)
    (item : QueueItem.t) : QueueItem.t * bool :=
  if bool_decide (QueueItem.did item ≠ ResolvedIdentity.did identity)
  then (item, false)
  else
    let user := queueLabelForIdentity identity (ResolvedIdentity.did identity) in
    if bool_decide
         (QueueItem.user item ≠ user ∨
          QueueItem.handle item ≠ ResolvedIdentity.handle identity ∨
          QueueItem.avatarUrl item ≠ ResolvedIdentity.avatarUrl identity)
    then (QueueItem.mk (QueueItem.id item) (QueueItem.did item)
            user (ResolvedIdentity.handle identity)
            (ResolvedIdentity.avatarUrl identity)
            (QueueItem.command item) (QueueItem.status item)
            (QueueItem.createdAt item), true)
    else (item, false).

Definition patchMessages (identity : ResolvedIdentity.t)
    (messages : list ChatMessage.t) : list ChatMessage.t * bool :=
  (fst ∘ patchMessage identity <$> messages,
   existsb (snd ∘ patchMessage identity) messages).

Definition patchQueue (identity : ResolvedIdentity.t)
    (objects : gmap nat QueueItem.t) (refs : list nat)
  : gmap nat QueueItem.t * bool :=
  foldl (λ '(objects, changed) ref,
           match objects !! ref with
           | Some item =>
               let '(item, c) := patchItem identity item in
               (if c then <[ref := item]> objects else objects,
                changed || c)
           | None => (objects, changed)
           end)
        (objects, false) refs.

Definition applyIdentityToOverlay (identity : ResolvedIdentity.t)
    (now : Z) (s : State) : State :=
  let '(messages, changed1) := patchMessages identity (chatMessages s) in
  let '(objects, changed2) := patchQueue identity (heap s) (commandQueue s) in
  let s := set_heap objects (set_chatMessages messages s) in
  if changed1 || changed2 then broadcast now s else s.

(** [hydrateIdentity]: place 0 is [const now = Date.now()], place 1
    the [Date.now()] of the [broadcast()] in
    [applyIdentityToOverlay]. *)
Definition hydrateIdentity (did : string) (now : Clock.t) (s : State)
  : State :=
  let cached :=
    match identityCache s !! did with
    | Some cached =>
        if bool_decide (Clock.read now 0 < CacheEntry.expiresAt cached)
        then Some cached else None
    | None => None
    end in
  match cached with
  | Some cached =>
      applyIdentityToOverlay (CacheEntry.identity cached) (Clock.read now 1) s
  | None =>
      if bool_decide (did ∈ pendingIdentityLookups s) then s
      else
        (* [fetchIdentityFromSlingshot(did)] is called here *)
        set_pendingIdentityLookups ({[did]} ∪ pendingIdentityLookups s)
          (set_lookups (lookups s ++ [did]) s)
  end.

(** The [then], [catch] and [finally] of the lookup that
    [hydrateIdentity] started for [did], in one step: nothing the
    listener does between them reads the marker that [finally]
    removes, unless the cache has no entry, and then [then] and
    [catch] changed nothing.  Place 0 is the [Date.now()] of
    [expiresAt], place 1 the one of the [broadcast()] in
    [applyIdentityToOverlay]. *)
Definition lookupSettled (did : string) (outcome : LookupOutcome)
    (now : Clock.t) (s : State) : State :=
  if bool_decide (did ∈ pendingIdentityLookups s) then
    let s :=
      match outcome with
      | LookupFound handle displayName avatarUrl =>
          let identity :=
            ResolvedIdentity.mk did handle displayName avatarUrl in
          applyIdentityToOverlay identity (Clock.read now 1)
            (set_identityCache
               (<[did := CacheEntry.mk identity
                           (Clock.read now 0 + IDENTITY_CACHE_TTL_MS)]>
                  (identityCache s)) s)
      | LookupEmpty => s
      | LookupFailed => s
      end in
    set_pendingIdentityLookups (pendingIdentityLookups s ∖ {[did]}) s
  else s.

(** [cacheLocalIdentity]: place 0 is the [Date.now()] of [expiresAt],
    place 1 the one of the [broadcast()] in
    [applyIdentityToOverlay]. *)
Definition cacheLocalIdentity (identity : ResolvedIdentity.t)
    (now : Clock.t) (s : State) : State :=
  applyIdentityToOverlay identity (Clock.read now 1)
    (set_identityCache
       (<[ResolvedIdentity.did identity :=
            CacheEntry.mk identity (Clock.read now 0 + IDENTITY_CACHE_TTL_MS)]>
          (identityCache s)) s).

(** *** The command queue *)

Definition trimQueue (s : State) : State :=
  if bool_decide (length (commandQueue s) ≤ MAX_QUEUE_ITEMS)%nat then s
  else
    let overflow := (length (commandQueue s) - MAX_QUEUE_ITEMS)%nat in
    set_commandQueue (drop overflow (commandQueue s)) s.

(** [buildQueueItem]: place 0 is the [Date.now()] of
    [cachedIdentityForDid], place 1 the one of [createdAt].  The id of
    the item is what the template string of the first field evaluates
    to. *)
Definition buildQueueItem (command did : string) (now : Clock.t)
    (id : string) (s : State) : QueueItem.t :=
  let cachedIdentity := cachedIdentityForDid did (Clock.read now 0) s in
  let user :=
    match cachedIdentity with
    | Some identity => queueLabelForIdentity identity did
    | None => shortenDid did
    end in
  QueueItem.mk id did user
    (cachedIdentity ≫= ResolvedIdentity.handle)
    (cachedIdentity ≫= ResolvedIdentity.avatarUrl)
    command Queued (Clock.read now 1).

(** [item.status === "queued"] for the object behind a reference *)
Definition isQueued (objects : gmap nat QueueItem.t) (ref : nat) : bool :=
  match objects !! ref with
  | Some item => bool_decide (QueueItem.status item = Queued)
  | None => false
  end.

(** [commandQueue.find((item) => item.status === "queued")] *)
Definition findQueued (s : State) : option nat :=
  List.find (isQueued (heap s)) (commandQueue s).

(** [next.status = st] *)
Definition setStatus (next : nat) (st : QueueStatus) (s : State) : State :=
  set_heap (alter (QueueItem.withStatus st) next (heap s)) s.

Definition commandOf (s : State) (ref : nat) : string :=
  from_option QueueItem.command "" (heap s !! ref).

Definition idOf (s : State) (ref : nat) : string :=
  from_option QueueItem.id "" (heap s !! ref).

(** [remember x] keeps the equation of a value that is matched on. *)
Definition remember {A : Type} (x : A) : {y : A | x = y} :=
  exist _ x eq_refl.

Definition queuedCount (s : State) : nat :=
  length (filter (λ ref, isQueued (heap s) ref = true) (commandQueue s)).

Lemma find_isQueued objects refs next :
  List.find (isQueued objects) refs = Some next →
  next ∈ refs ∧ isQueued objects next = true.
Proof.
  intros [H1 H2]%find_some. split; [by apply list_elem_of_In|done].
Qed.

Lemma filter_length_lt {A} (P Q : A → Prop)
    `{∀ x, Decision (P x)} `{∀ x, Decision (Q x)} (l : list A) x :
  (∀ y, Q y → P y) → x ∈ l → P x → ¬ Q x →
  (length (filter Q l) < length (filter P l))%nat.
Proof.
  intros HQP Hx HPx HQx. induction l as [|y l IH]; [by apply elem_of_nil in Hx|].
  assert (length (filter Q l) ≤ length (filter P l))%nat as Hle.
  { clear -HQP. induction l as [|z l IH]; [done|].
    rewrite !filter_cons. repeat case_decide; simpl; try lia.
    exfalso. auto. }
  rewrite !filter_cons. apply elem_of_cons in Hx as [<-|Hx].
  - rewrite (decide_False (P:=Q x)), (decide_True (P:=P x)) by done.
    simpl. lia.
  - specialize (IH Hx). repeat case_decide; simpl; try lia.
    exfalso. auto.
Qed.

Lemma isQueued_setStatus s next st ref :
  isQueued (heap (setStatus next st s)) ref =
    if decide (ref = next)
    then bool_decide (is_Some (heap s !! next)) && bool_decide (st = Queued)
    else isQueued (heap s) ref.
Proof.
  unfold isQueued, setStatus. simpl. case_decide as Hr.
  - subst ref. rewrite lookup_alter_eq.
    destruct (heap s !! next) as [item|] eqn:E; simpl; [|done].
    done.
  - by rewrite lookup_alter_ne.
Qed.

Section WithDurations.

Variables KEYPRESS_DURATION_MS LONG_KEYPRESS_DURATION_MS : Z.

Abbreviation parse :=
  (parseCommand KEYPRESS_DURATION_MS LONG_KEYPRESS_DURATION_MS).

Lemma consumerLoop_decreases (now : Z) s next :
  findQueued s = Some next →
  (queuedCount (broadcast now (setStatus next Error s)) < queuedCount s)%nat.
Proof.
  intros [Hin Hq]%find_isQueued. unfold queuedCount.
  replace (commandQueue (broadcast now (setStatus next Error s)))
    with (commandQueue s) by (unfold broadcast, snapshot; by destruct s).
  replace (heap (broadcast now (setStatus next Error s)))
    with (heap (setStatus next Error s))
    by (unfold broadcast, snapshot; by destruct s).
  apply (filter_length_lt _ _ _ next); [|done|done|].
  - intros ref. rewrite isQueued_setStatus. case_decide; [|done].
    by rewrite andb_false_r.
  - rewrite isQueued_setStatus, decide_True by done.
    by rewrite andb_false_r.
Qed.

(** The [while (true)] loop of [processQueue], from its head to the
    next [await] or to the [return], where [finally] resets the
    flag.  A turn of the loop calls [broadcast()] once: place 0 is its
    [Date.now()], and place 1 holds the readings of the turns after
    [continue]. *)
Equations? consumerLoop (now : Clock.t) (s : State) : State
  by wf (queuedCount s) lt :=
  consumerLoop now s with remember (findQueued s) => {
    | exist _ None _ =>
        set_consumer Idle
          (set_processingQueue false
             (broadcast (Clock.read now 0) (set_activeCommandId None s)))
    | exist _ (Some next) Hnext
        with parse (commandOf s next) false => {
        | None =>
            consumerLoop (Clock.sub now 1)
              (broadcast (Clock.read now 0) (setStatus next Error s))
        | Some parsedCommand =>
            let s := setStatus next Active s in
            let s := set_activeCommandId (Some (idOf s next)) s in
            let s := broadcast (Clock.read now 0) s in
            let s :=
              set_dispatched
                (dispatched s ++
                   [(buttons parsedCommand, durationMs parsedCommand)]) s in
            set_consumer (AwaitDispatch next) s
      }
  }.
Proof. by apply consumerLoop_decreases. Qed.

Definition processQueue (now : Clock.t) (s : State) : State :=
  if processingQueue s then s
  else consumerLoop now (set_processingQueue true s).

(** [dispatchMgbaCommand] settled: the rest of the loop body up to
    [await sleep(QUEUE_COMMAND_DELAY_MS)]. *)
Definition dispatchSettled (ok : bool) (now : Z) (s : State) : State :=
  match consumer s with
  | AwaitDispatch next =>
      let s := setStatus next (if ok then Done else Error) s in
      let s := set_activeCommandId None s in
      let s := broadcast now s in
      set_consumer AwaitDelay s
  | _ => s
  end.

(** The delay between two commands is over: the loop goes on. *)
Definition queueDelayElapsed (now : Clock.t) (s : State) : State :=
  match consumer s with
  | AwaitDelay => consumerLoop now s
  | _ => s
  end.

(** [enqueueSingleCommand]: place 0 holds the readings of
    [buildQueueItem], place 1 is the [Date.now()] of [broadcast()],
    place 2 holds the readings of [processQueue]. *)
Definition enqueueSingleCommand (command did : string) (now : Clock.t)
    (id : string) (s : State) : State :=
  let item := buildQueueItem command did (Clock.sub now 0) id s in
  let ref := fresh (dom (heap s)) in
  let s := set_heap (<[ref := item]> (heap s)) s in
  let s := set_commandQueue (commandQueue s ++ [ref]) s in
  let s := set_arrivals (arrivals s ++ [ref]) s in
  let s := trimQueue s in
  let s := broadcast (Clock.read now 1) s in
  processQueue (Clock.sub now 2) s.

Definition enqueueCommand (command : ParsedCommand) (did : string)
    (now : Clock.t) (id : string) (s : State) : State :=
  let s := enqueueSingleCommand (normalized command) did now id s in
  if bool_decide (repeatCount command ≤ 1) then s
  else set_repeaters (repeaters s ++ [Repeater.mk command did 1]) s.

(** The delay of the [k]-th suspended repeat loop is over: it
    enqueues the command once more and sleeps again or ends. *)
Definition repeatDelayElapsed (k : nat) (now : Clock.t) (id : string)
    (s : State) : State :=
  match repeaters s !! k with
  | Some r =>
      let command := Repeater.command r in
      let s := enqueueSingleCommand (normalized command)
                 (Repeater.did r) now id s in
      let i := Repeater.i r + 1 in
      if bool_decide (i < repeatCount command)
      then set_repeaters
             (<[k := Repeater.mk command (Repeater.did r) i]> (repeaters s)) s
      else set_repeaters (delete k (repeaters s)) s
  | None => s
  end.

(** The body of the [for await] loop for a chat record of the
    streamer whose text is [text].  [user] is the result of
    [readUser], and [handle], [displayName] and [avatarUrl] are what
    [localIdentityFromRecord] read from the record.  Place 0 is
    [const now = Date.now()]; places 1 to 4 hold the readings of
    [pushChatMessage], [cacheLocalIdentity], [hydrateIdentity] and
    [enqueueCommand]. *)
Definition chatRecord (did text user : string)
    (handle displayName avatarUrl : option string)
    (now : Clock.t) (messageId itemId : string) (s : State) : State :=
  let '(uniqueChatters, chatterActivity) :=
    recordChatterAndCountUnique did (Clock.read now 0) (chatterActivity s) in
  let s := set_chatterActivity chatterActivity s in
  let allowCommandSpam :=
    bool_decide (uniqueChatters < MIN_UNIQUE_CHATTERS_FOR_NO_SPAM) in
  let parsedCommand := parse text allowCommandSpam in
  let isCommand := bool_decide (is_Some parsedCommand) in
  let s :=
    pushChatMessage did user text isCommand (Clock.sub now 1) messageId s in
  let s :=
    match localIdentityFromRecord did handle displayName avatarUrl with
    | Some localIdentity =>
        cacheLocalIdentity localIdentity (Clock.sub now 2) s
    | None => s
    end in
  let s := hydrateIdentity did (Clock.sub now 3) s in
  match parsedCommand with
  | None => s
  | Some parsedCommand =>
      enqueueCommand parsedCommand did (Clock.sub now 4) itemId s
  end.

(** What makes the listener run: a chat record arrives, an overlay
    client connects, a promise the listener awaits settles.  Each
    event is one run to completion; it carries the ids it
    creates. *)
Inductive Event :=
| ChatRecord (did text user : string)
    (handle displayName avatarUrl : option string)
    (messageId itemId : string)
| OverlayConnect
| DispatchSettled (ok : bool)
| QueueDelayElapsed
| RepeatDelayElapsed (k : nat) (itemId : string)
| LookupSettled (did : string) (outcome : LookupOutcome).

(** One event, with the readings [now] of the clock during its run.
    A handler that calls [Date.now()] once is given the reading at
    place 0. *)
Definition step (s : State) (e : Clock.t * Event) : State :=
  let '(now, e) := e in
  match e with
  | ChatRecord did text user handle displayName avatarUrl messageId itemId =>
      chatRecord did text user handle displayName avatarUrl
        now messageId itemId s
  | OverlayConnect => sseStream (Clock.read now 0) s
  | DispatchSettled ok => dispatchSettled ok (Clock.read now 0) s
  | QueueDelayElapsed => queueDelayElapsed now s
  | RepeatDelayElapsed k itemId => repeatDelayElapsed k now itemId s
  | LookupSettled did outcome => lookupSettled did outcome now s
  end.

Definition run (s : State) (trace : list (Clock.t * Event)) : State :=
  foldl step s trace.

End WithDurations.

End Listener.

(** ** Reading the chat records *)

(** A value of a record as the listener tests it: a string, or a value
    whose [typeof] is not ["string"]. *)
Inductive JsValue :=
| JsString (s : string)
| JsOther.

Global Instance JsValue_eq_dec : EqDecision JsValue.
Proof. solve_decision. Defined.

(** An event of the subscription: a commit with its repository, its
    collection, its operation and its record ([None] when
    [commit.record] is no object, else its properties), or an event of
    another kind. *)
Inductive JetstreamEvent :=
| CommitEvent (did collection operation : string)
    (record : option (gmap string JsValue))
| OtherEvent (did : string).

Module Reader.

Import Listener.

(** [typeof value === "string" && value.trim().length > 0] for the
    property [name] of a record; a missing property is [undefined]. *)
Definition nonBlankString (value : option JsValue) : option string :=
  match value with
  | Some (JsString s) => if isEmpty (trim s) then None else Some s
  | _ => None
  end.

(** The first value of the candidates that passes the test. *)
Definition firstNonBlank (candidates : list (option JsValue))
  : option string :=
  head (omap nonBlankString candidates).

Definition readMessageText (record : gmap string JsValue) : option string :=
  firstNonBlank
    [ record !! "text"; record !! "message"; record !! "body";
      record !! "content";
      match record !! "msg" with
      | Some (JsString msg) => Some (JsString msg)
      | _ => None
      end ].

Definition readFirstNonEmptyString (values : list (option JsValue))
  : option string :=
  trim <$> firstNonBlank values.

Definition recordHandle (record : gmap string JsValue) : option string :=
  readFirstNonEmptyString
    [record !! "handle"; record !! "username"; record !! "userHandle"].

Definition recordDisplayName (record : gmap string JsValue) : option string :=
  readFirstNonEmptyString
    [record !! "displayName"; record !! "name"; record !! "user";
     record !! "sender"; record !! "author"].

Definition recordAvatarUrl (record : gmap string JsValue) : option string :=
  readFirstNonEmptyString
    [record !! "avatarUrl"; record !! "avatar"; record !! "pfp";
     record !! "profileImage"].

Definition localIdentityFromRecord (did : string)
    (record : gmap string JsValue) : option ResolvedIdentity.t :=
  Listener.localIdentityFromRecord did
    (recordHandle record) (recordDisplayName record) (recordAvatarUrl record).

Definition readUser (record : gmap string JsValue) (did : string) : string :=
  match firstNonBlank
          [record !! "user"; record !! "sender"; record !! "author";
           record !! "handle"] with
  | Some value => trim value
  | None => shortenDid did
  end.

Section WithConfig.

Variable STREAMER_DID : string.
Variables KEYPRESS_DURATION_MS LONG_KEYPRESS_DURATION_MS : Z.

(** The body of the [for await] loop for one event; [now] holds the
    readings of the clock and the ids are those the run creates. *)
Definition onEvent (event : JetstreamEvent) (now : Clock.t)
    (messageId itemId : string) (s : State) : State :=
  match event with
  | OtherEvent _ => s
  | CommitEvent did collection operation record =>
      if bool_decide (collection ≠ "place.stream.chat.message") then s
      else if bool_decide (operation ≠ "create" ∧ operation ≠ "update") then s
      else
        match record with
        | None => s
        | Some record =>
            if bool_decide (record !! "streamer" ≠ Some (JsString STREAMER_DID))
            then s
            else
              match readMessageText record with
              | None => s
              | Some text =>
                  chatRecord KEYPRESS_DURATION_MS LONG_KEYPRESS_DURATION_MS
                    did text (readUser record did)
                    (recordHandle record) (recordDisplayName record)
                    (recordAvatarUrl record) now messageId itemId s
              end
        end
  end.

End WithConfig.

End Reader.

(** * Facts *)

(** ** Strings *)

Module JsStringFacts.

Lemma sapp_nil_r (s : string) : s +:+ "" = s.
Proof. induction s; simpl; [done|]. unfold String.app in *. simpl. by f_equal. Qed.

Lemma sapp_assoc (a b c : string) : (a +:+ b) +:+ c = a +:+ b +:+ c.
Proof. induction a; [done|]. unfold String.app in *. simpl. by f_equal. Qed.

Lemma sapp_cons (c : ascii) (a b : string) :
  String c a +:+ b = String c (a +:+ b).
Proof. done. Qed.

Lemma snoc_app (a : string) c (b : string) : snoc a c +:+ b = a +:+ String c b.
Proof. unfold snoc. by rewrite sapp_assoc. Qed.

Lemma lowerChar_isWhiteSpace c : isWhiteSpace (lowerChar c) = isWhiteSpace c.
Proof. by destruct c as [[] [] [] [] [] [] [] []]. Qed.

Lemma allChars_app f a b :
  allChars f (a +:+ b) = allChars f a && allChars f b.
Proof.
  induction a as [|c a IH]; [done|].
  rewrite sapp_cons. simpl. rewrite IH. by rewrite andb_assoc.
Qed.

(** *** trimStart, trimEnd, trim *)

Lemma trimEnd_cons c s :
  trimEnd (String c s) =
    if isEmpty (trimEnd s) && isWhiteSpace c then "" else String c (trimEnd s).
Proof. simpl. destruct (trimEnd s); simpl; [by destruct (isWhiteSpace c)|done]. Qed.

Lemma trimEnd_cons_keep c s :
  isWhiteSpace c = false → trimEnd (String c s) = String c (trimEnd s).
Proof. intros H. rewrite trimEnd_cons, H. by rewrite andb_false_r. Qed.

Lemma trimEnd_empty s : trimEnd s = "" ↔ allChars isWhiteSpace s = true.
Proof.
  induction s as [|c s IH]; [done|].
  rewrite trimEnd_cons. simpl.
  destruct (trimEnd s) eqn:E; simpl.
  - destruct (isWhiteSpace c); simpl; [tauto|]. split; [done|]. done.
  - split; [done|]. intros [_ H]%andb_true_iff. apply IH in H. done.
Qed.

Lemma trimStart_trimEnd s : trimStart (trimEnd s) = trimEnd (trimStart s).
Proof.
  induction s as [|c s IH]; [done|].
  rewrite trimEnd_cons. simpl trimStart at 2.
  destruct (isWhiteSpace c) eqn:Hc.
  - rewrite andb_true_r, <- IH.
    destruct (trimEnd s); simpl; [done|]. by rewrite Hc.
  - rewrite andb_false_r, trimEnd_cons_keep by done. simpl. by rewrite Hc.
Qed.

Lemma trimEnd_idemp s : trimEnd (trimEnd s) = trimEnd s.
Proof.
  induction s as [|c s IH]; [done|].
  rewrite trimEnd_cons.
  destruct (isEmpty (trimEnd s) && isWhiteSpace c) eqn:E; [done|].
  rewrite trimEnd_cons, IH, E. done.
Qed.

Lemma trimStart_idemp s : trimStart (trimStart s) = trimStart s.
Proof.
  induction s as [|c s IH]; [done|]. simpl.
  destruct (isWhiteSpace c) eqn:E; [done|]. simpl. by rewrite E.
Qed.

Lemma trim_trimEnd s : trim (trimEnd s) = trim s.
Proof. unfold trim. by rewrite trimStart_trimEnd, trimEnd_idemp. Qed.

Lemma trim_trimStart s : trim (trimStart s) = trim s.
Proof. unfold trim. by rewrite trimStart_idemp. Qed.

Lemma trim_idemp s : trim (trim s) = trim s.
Proof. unfold trim at 2. by rewrite trim_trimEnd, trim_trimStart. Qed.

Lemma trim_cons_ws c s : isWhiteSpace c = true → trim (String c s) = trim s.
Proof. intros H. unfold trim. simpl. by rewrite H. Qed.

(** The first character of a trimmed string is no white space. *)
Definition startsClean (s : string) : bool :=
  match s with "" => true | String c _ => negb (isWhiteSpace c) end.

Lemma trimStart_startsClean s : startsClean (trimStart s) = true.
Proof.
  induction s as [|c s IH]; [done|]. simpl.
  destruct (isWhiteSpace c) eqn:E; [done|]. simpl. by rewrite E.
Qed.

Lemma trimEnd_startsClean s :
  startsClean s = true → startsClean (trimEnd s) = true.
Proof.
  destruct s as [|c s]; [done|]. simpl startsClean at 1. intros H%negb_true_iff.
  rewrite trimEnd_cons_keep by done. simpl. by rewrite H.
Qed.

Lemma trim_startsClean s : startsClean (trim s) = true.
Proof. apply trimEnd_startsClean, trimStart_startsClean. Qed.

Lemma toLowerCase_startsClean s :
  startsClean (toLowerCase s) = startsClean s.
Proof. destruct s; [done|]. simpl. by rewrite lowerChar_isWhiteSpace. Qed.

(** A string is the part [trimEnd] keeps followed by white space. *)
Lemma trimEnd_app s :
  ∃ r, s = trimEnd s +:+ r ∧ allChars isWhiteSpace r = true.
Proof.
  induction s as [|c s (r & Hs & Hr)]; [by exists ""|].
  rewrite trimEnd_cons.
  destruct (isEmpty (trimEnd s) && isWhiteSpace c) eqn:E.
  - apply andb_true_iff in E as [E1 E2].
    exists (String c s). split; [done|]. simpl. rewrite E2. simpl.
    apply trimEnd_empty. by destruct (trimEnd s).
  - exists r. split; [|done]. rewrite sapp_cons. by rewrite <- Hs.
Qed.

Lemma trimEnd_app_ws s r :
  allChars isWhiteSpace r = true → trimEnd (s +:+ r) = trimEnd s.
Proof.
  intros Hr. induction s as [|c s IH].
  - simpl. apply trimEnd_empty in Hr. done.
  - rewrite sapp_cons, !trimEnd_cons, IH. done.
Qed.

(** *** split and join *)

Lemma split_nonempty sep s : split sep s ≠ [].
Proof.
  destruct s as [|c s]; [done|]. simpl.
  case_bool_decide; [done|]. by destruct (split sep s).
Qed.

Definition consHead (c : ascii) (parts : list string) : list string :=
  match parts with
  | part :: parts => String c part :: parts
  | [] => [String c ""]
  end.

Lemma split_cons sep c s :
  split sep (String c s) =
    if bool_decide (c = sep) then "" :: split sep s
    else consHead c (split sep s).
Proof. done. Qed.

(** Apply [f] to the last element. *)
Fixpoint mapLast {A} (f : A → A) (l : list A) : list A :=
  match l with
  | [] => []
  | [x] => [f x]
  | x :: l' => x :: mapLast f l'
  end.

Lemma mapLast_cons {A} (f : A → A) x l :
  l ≠ [] → mapLast f (x :: l) = x :: mapLast f l.
Proof. by destruct l. Qed.

Lemma split_no_sep sep s :
  allChars (λ c, negb (bool_decide (c = sep))) s = true → split sep s = [s].
Proof.
  induction s as [|c s IH]; [done|]. simpl.
  intros [Hc Hs]%andb_true_iff. apply negb_true_iff in Hc.
  rewrite Hc, IH by done. done.
Qed.

Lemma allChars_impl (f g : ascii → bool) s :
  (∀ c, f c = true → g c = true) →
  allChars f s = true → allChars g s = true.
Proof.
  intros Hfg. induction s as [|c s IH]; [done|]. simpl.
  intros [Hc Hs]%andb_true_iff. rewrite Hfg, IH; done.
Qed.

Lemma split_singleton sep s h : split sep s = [h] → h = s.
Proof.
  revert h. induction s as [|d s IH]; intros h Hsp.
  - by injection Hsp.
  - rewrite split_cons in Hsp. pose proof (split_nonempty sep s).
    case_bool_decide; [by injection Hsp as _ Hsp|].
    destruct (split sep s) as [|h' t']; [done|].
    simpl in Hsp. injection Hsp as <- ->. f_equal. by apply IH.
Qed.

Lemma split_trimEnd sep s :
  isWhiteSpace sep = false →
  split sep (trimEnd s) = mapLast trimEnd (split sep s).
Proof.
  intros Hsep. induction s as [|c s IH]; [done|].
  rewrite split_cons, trimEnd_cons.
  destruct (isEmpty (trimEnd s) && isWhiteSpace c) eqn:E.
  - apply andb_true_iff in E as [E1 E2].
    assert (trimEnd s = "") as Hs by by destruct (trimEnd s).
    apply trimEnd_empty in Hs as Hws.
    rewrite bool_decide_false by (intros ->; congruence).
    rewrite (split_no_sep sep s).
    + cbn [mapLast consHead]. rewrite trimEnd_cons, E1, E2. done.
    + eapply allChars_impl; [|done]. intros d Hd. simpl.
      apply negb_true_iff, bool_decide_false. intros ->. congruence.
  - rewrite split_cons. case_bool_decide as Hc.
    + rewrite IH, mapLast_cons; [done|apply split_nonempty].
    + rewrite IH. pose proof (split_nonempty sep s) as Hne.
      destruct (split sep s) as [|h t] eqn:Hsp; [done|].
      destruct t as [|h2 t]; [|reflexivity]. cbn [mapLast consHead].
      rewrite trimEnd_cons.
      apply split_singleton in Hsp as ->. by rewrite E.
Qed.

Lemma map_trim_mapLast l : trim <$> mapLast trimEnd l = trim <$> l.
Proof.
  induction l as [|x l IH]; [done|].
  destruct l as [|y l]; [simpl; by rewrite trim_trimEnd|].
  rewrite mapLast_cons by done. rewrite (fmap_cons _ x), IH. done.
Qed.

Lemma map_trim_split_trimStart sep s :
  isWhiteSpace sep = false →
  trim <$> split sep (trimStart s) = trim <$> split sep s.
Proof.
  intros Hsep. induction s as [|c s IH]; [done|]. simpl trimStart.
  destruct (isWhiteSpace c) eqn:Hc; [|done].
  rewrite IH, split_cons, bool_decide_false by (intros ->; congruence).
  pose proof (split_nonempty sep s).
  destruct (split sep s) as [|h t]; [done|]. simpl.
  by rewrite trim_cons_ws.
Qed.

Lemma map_trim_split_trim sep s :
  isWhiteSpace sep = false →
  trim <$> split sep (trim s) = trim <$> split sep s.
Proof.
  intros Hsep. unfold trim at 2.
  rewrite split_trimEnd, map_trim_mapLast by done.
  by apply map_trim_split_trimStart.
Qed.

End JsStringFacts.

Import JsStringFacts.

(** ** The pattern of the repeat suffix *)

Module RegexFacts.

(** [rest] does not go on with a character that [f] accepts. *)
Definition stopsAt (f : ascii → bool) (rest : string) : Prop :=
  match rest with "" => True | String c _ => f c = false end.

Section Loops.
Context {R : Type} (f : ascii → bool) (k : string → string → option R).

Lemma plusGreedy_stop taken rest :
  stopsAt f rest → plusGreedy f k taken rest = None.
Proof. destruct rest as [|c rest]; [done|]. simpl. by intros ->. Qed.

Lemma plusGreedy_longest run : ∀ taken rest r,
  run ≠ "" → allChars f run = true → stopsAt f rest →
  k (taken +:+ run) rest = Some r →
  plusGreedy f k taken (run +:+ rest) = Some r.
Proof.
  induction run as [|c run IH]; intros taken rest r Hne Hrun Hrest Hk; [done|].
  simpl in Hrun. apply andb_true_iff in Hrun as [Hc Hrun].
  rewrite sapp_cons. simpl. rewrite Hc.
  destruct run as [|d run].
  - change ("" +:+ rest) with rest. rewrite plusGreedy_stop by done. done.
  - erewrite IH; [done..|]. by rewrite snoc_app.
Qed.

Lemma plusGreedy_sound s : ∀ taken r,
  plusGreedy f k taken s = Some r →
  ∃ run rest, s = run +:+ rest ∧ run ≠ "" ∧ allChars f run = true ∧
              k (taken +:+ run) rest = Some r.
Proof.
  induction s as [|c s IH]; intros taken r; [done|]. simpl.
  destruct (f c) eqn:Hc; [|done].
  destruct (plusGreedy f k (snoc taken c) s) as [r'|] eqn:E.
  - intros [= ->]. apply IH in E as (run & rest & -> & _ & Hrun & Hk).
    exists (String c run), rest. rewrite snoc_app in Hk.
    split_and!; [done|done|by cbn; rewrite Hc|done].
  - intros Hk. exists (String c ""), s.
    split_and!; [done|done|by cbn; rewrite Hc|done].
Qed.

Lemma plusLazy_sound s : ∀ taken r,
  plusLazy f k taken s = Some r →
  ∃ run rest, s = run +:+ rest ∧ run ≠ "" ∧ allChars f run = true ∧
              k (taken +:+ run) rest = Some r.
Proof.
  induction s as [|c s IH]; intros taken r; [done|]. simpl.
  destruct (f c) eqn:Hc; [|done].
  destruct (k (snoc taken c) s) as [r'|] eqn:E.
  - intros [= ->]. exists (String c ""), s.
    split_and!; [done|done|by cbn; rewrite Hc|done].
  - intros (run & rest & -> & _ & Hrun & Hk)%IH.
    exists (String c run), rest. rewrite snoc_app in Hk.
    split_and!; [done|done|by cbn; rewrite Hc|done].
Qed.

(** The lazy loop stops at the first run after which [k] matches. *)
Lemma plusLazy_first run : ∀ taken rest r,
  run ≠ "" → allChars f run = true →
  k (taken +:+ run) rest = Some r →
  (∀ run1 run2, run = run1 +:+ run2 → run1 ≠ "" → run2 ≠ "" →
                k (taken +:+ run1) (run2 +:+ rest) = None) →
  plusLazy f k taken (run +:+ rest) = Some r.
Proof.
  induction run as [|c run IH]; intros taken rest r Hne Hrun Hk Hfirst; [done|].
  simpl in Hrun. apply andb_true_iff in Hrun as [Hc Hrun].
  rewrite sapp_cons. simpl. rewrite Hc.
  destruct (decide (run = "")) as [->|Hrun'].
  - unfold snoc. change ("" +:+ rest) with rest. by rewrite Hk.
  - unfold snoc at 1.
    rewrite (Hfirst (String c "") run) by done.
    apply IH; [done..|by rewrite snoc_app|].
    intros run1 run2 -> Hr1 Hr2. rewrite snoc_app.
    by apply (Hfirst (String c run1) run2).
Qed.
End Loops.

(** The text after the first group: [\s+x(\d+)$]. *)
Definition tailPattern : list Atom :=
  [ mkAtom Space PlusGreedy false;
    mkAtom (Lit "x") Once false;
    mkAtom Digit PlusGreedy true ].

Lemma digits_match ds :
  ds ≠ "" → allChars isDigit ds = true →
  matchAtoms [mkAtom Digit PlusGreedy true] ds = Some [ds].
Proof.
  intros Hne Hds. simpl.
  rewrite <- (sapp_nil_r ds) at 1.
  by apply plusGreedy_longest.
Qed.

Lemma digits_match_inv s g :
  matchAtoms [mkAtom Digit PlusGreedy true] s = Some g →
  s ≠ "" ∧ allChars isDigit s = true ∧ g = [s].
Proof.
  simpl. intros (run & rest & -> & Hne & Hrun & Hk)%plusGreedy_sound.
  destruct rest; [|done]. simpl in Hk. injection Hk as <-.
  rewrite sapp_nil_r. split; [|done]. by destruct run.
Qed.

Lemma tail_match ws ds :
  ws ≠ "" → allChars isWhiteSpace ws = true →
  ds ≠ "" → allChars isDigit ds = true →
  matchAtoms tailPattern (ws +:+ String "x" ds) = Some [ds].
Proof.
  intros Hws1 Hws2 Hds1 Hds2. unfold tailPattern.
  change (matchAtoms (?a :: ?p) ?s) with
    (plusGreedy isWhiteSpace (λ taken rest, capture a taken <$> matchAtoms p rest) "" s).
  apply plusGreedy_longest; [done..|].
  change (matchAtoms (?a :: ?p) (String "x" ds)) with
    (capture a "x" <$> matchAtoms p ds).
  by rewrite digits_match.
Qed.

Lemma tail_match_inv s g :
  matchAtoms tailPattern s = Some g →
  ∃ ws ds, s = ws +:+ String "x" ds ∧
           ws ≠ "" ∧ allChars isWhiteSpace ws = true ∧
           ds ≠ "" ∧ allChars isDigit ds = true ∧ g = [ds].
Proof.
  unfold tailPattern.
  change (matchAtoms (?a :: ?p) ?s) with
    (plusGreedy isWhiteSpace (λ taken rest, capture a taken <$> matchAtoms p rest) "" s).
  intros (ws & rest & -> & Hne & Hws & Hk)%plusGreedy_sound.
  unfold capture in Hk. simpl atomGroup in Hk. cbv iota in Hk.
  rewrite option_fmap_id in Hk.
  destruct rest as [|c rest]; [done|].
  change (matchAtoms (?a :: ?p) (String c rest)) with
    (if bool_decide (c = "x"%char) then capture a (String c "") <$> matchAtoms p rest else None) in Hk.
  case_bool_decide as Hc; [subst c|done].
  unfold capture in Hk. simpl atomGroup in Hk. cbv iota in Hk.
  rewrite option_fmap_id in Hk.
  apply digits_match_inv in Hk as (? & ? & ->).
  by exists ws, rest.
Qed.

(** The place of the [x] before the final digits is determined. *)
Lemma before_digits_inj a : ∀ a' d d',
  a +:+ String "x" d = a' +:+ String "x" d' →
  allChars isDigit d = true → allChars isDigit d' = true →
  a = a' ∧ d = d'.
Proof.
  induction a as [|c a IH]; intros [|c' a'] d d' Heq Hd Hd'.
  - by injection Heq.
  - injection Heq as <- ->. rewrite allChars_app in Hd.
    apply andb_true_iff in Hd as [_ Hd]. done.
  - injection Heq as -> <-. rewrite allChars_app in Hd'.
    apply andb_true_iff in Hd' as [_ Hd']. done.
  - rewrite !sapp_cons in Heq. injection Heq as -> Heq.
    apply IH in Heq as [-> ->]; done.
Qed.

(** A string that [trimEnd] leaves alone does not end in white space,
    and neither does any non-empty end of it. *)
Lemma trimEnd_fixed_suffix a b :
  trimEnd (a +:+ b) = a +:+ b → b ≠ "" → allChars isWhiteSpace b = false.
Proof.
  induction a as [|c a IH]; intros Hfix Hb.
  - change ("" +:+ b) with b in Hfix.
    destruct (allChars isWhiteSpace b) eqn:E; [|done].
    apply trimEnd_empty in E. congruence.
  - apply IH; [|done]. rewrite sapp_cons, trimEnd_cons in Hfix.
    destruct (isEmpty (trimEnd (a +:+ b)) && isWhiteSpace c); [done|].
    by injection Hfix.
Qed.

(** What the pattern of the repeat suffix matches, and with which groups. *)
Lemma spamMatch_form base ws ds :
  base ≠ "" → trimEnd base = base →
  allChars (λ c, negb (isLineTerminator c)) base = true →
  ws ≠ "" → allChars isWhiteSpace ws = true →
  ds ≠ "" → allChars isDigit ds = true →
  spamMatch (base +:+ ws +:+ String "x" ds) = Some (base, ds).
Proof.
  intros Hb1 Hb2 Hb3 Hws1 Hws2 Hds1 Hds2. unfold spamMatch, spamPattern.
  change (matchAtoms (?a :: ?p) ?s) with
    (plusLazy (λ c, negb (isLineTerminator c))
       (λ taken rest, capture a taken <$> matchAtoms p rest) "" s).
  rewrite (plusLazy_first _ _ base "" _ [base; ds]); [done|done|done| |].
  - fold tailPattern. by rewrite tail_match.
  - intros run1 run2 -> Hr1 Hr2. fold tailPattern.
    destruct (matchAtoms tailPattern _) as [g|] eqn:E; [|done].
    apply tail_match_inv in E as (ws' & ds' & Heq & _ & Hws' & _ & Hds' & _).
    rewrite <- sapp_assoc in Heq.
    apply before_digits_inj in Heq as [Heq _]; [|done..].
    rewrite <- Heq, allChars_app in Hws'.
    apply andb_true_iff in Hws' as [Hws' _].
    by rewrite (trimEnd_fixed_suffix run1 run2) in Hws'.
Qed.

Lemma spamMatch_inv s base ds :
  spamMatch s = Some (base, ds) →
  ∃ ws, s = base +:+ ws +:+ String "x" ds ∧
        base ≠ "" ∧ allChars (λ c, negb (isLineTerminator c)) base = true ∧
        ws ≠ "" ∧ allChars isWhiteSpace ws = true ∧
        ds ≠ "" ∧ allChars isDigit ds = true.
Proof.
  unfold spamMatch, spamPattern.
  change (matchAtoms (?a :: ?p) ?s) with
    (plusLazy (λ c, negb (isLineTerminator c))
       (λ taken rest, capture a taken <$> matchAtoms p rest) "" s).
  destruct (plusLazy _ _ _ _) as [g|] eqn:E; [|done].
  apply plusLazy_sound in E as (run & rest & -> & Hne & Hrun & Hk).
  fold tailPattern in Hk.
  destruct (matchAtoms tailPattern rest) as [g'|] eqn:E; [|done].
  apply tail_match_inv in E as (ws & ds' & -> & ? & ? & ? & ? & ->).
  simpl in Hk. injection Hk as <-. intros [= <- <-]. by exists ws.
Qed.

End RegexFacts.

Import RegexFacts.

(** ** The parser *)

Module ParserFacts.

Section WithDurations.
Variables K L : Z.   (* the short and the long key press duration *)

Lemma parseCommand_unfold raw allow :
  parseCommand K L raw allow =
    let normalizedRaw := normalizeCommand raw in
    if isEmpty normalizedRaw then None else
    match spamMatch normalizedRaw with
    | Some (commandRaw, repeatRaw) =>
        if allow then
          let n := parseInt10 repeatRaw in
          if bool_decide (n < 2 ∨ MAX_COMMAND_SPAM_REPEAT < n) then None
          else withRepeat n <$> parseCommand K L commandRaw false
        else None
    | None => parseCombo K L normalizedRaw
    end.
Proof.
  simp parseCommand. cbv zeta.
  destruct (normalizeCommand raw) as [|c s] eqn:E; simpl.
  - done.
  - destruct (spamMatch (String c s)) as [[a b]|] eqn:E2; simpl.
    + destruct allow; simpl; [|done].
      case_bool_decide; [done|]. by destruct (parseCommand K L a false).
    + done.
Qed.

Lemma forallb_vocabulary parts :
  forallb (λ b, negb (isEmpty b) && supported b) parts = true ↔
  Forall inVocabulary parts.
Proof.
  rewrite forallb_forall, Forall_forall. unfold inVocabulary, supported.
  split; intros H b Hb.
  - apply list_elem_of_In, H in Hb. apply andb_true_iff in Hb as [H1 H2].
    apply bool_decide_eq_true in H2. split; [|done]. by destruct b.
  - apply list_elem_of_In, H in Hb as [H1 H2].
    apply andb_true_iff. split; [by destruct b|by apply bool_decide_eq_true].
Qed.

(** [parseCombo] in terms of the trimmed parts of the text that is left
    once the hold suffix is taken away. *)
Lemma parseCombo_parts t :
  let hold := endsWith t "-" in
  let parts := trim <$> split "+" (if hold then dropLast t else t) in
  (oneOrTwo parts ∧ Forall inVocabulary parts →
     parseCombo K L t = Some (comboResult K L hold parts)) ∧
  (¬ (oneOrTwo parts ∧ Forall inVocabulary parts) → parseCombo K L t = None).
Proof.
  intros hold parts. unfold parseCombo. fold hold.
  set (base := if hold then trim (dropLast t) else t).
  assert (trim <$> split "+" base = parts) as Hparts.
  { unfold base, parts. destruct hold; [|done].
    by apply map_trim_split_trim. }
  rewrite Hparts.
  destruct (isEmpty base) eqn:Hbase.
  - assert (parts = [""]) as Hp.
    { rewrite <- Hparts. by destruct base. }
    split; [|done]. intros [_ Hv]. rewrite Hp in Hv.
    apply Forall_cons in Hv as [[Hv _] _]. done.
  - case_bool_decide as Hlen.
    + split; [|done]. intros [Hl _]. unfold oneOrTwo in Hl. lia.
    + destruct (forallb _ parts) eqn:Hall.
      * split; [done|]. intros Hn. exfalso. apply Hn. split.
        -- unfold oneOrTwo. lia.
        -- by apply forallb_vocabulary.
      * split; [|done]. intros [_ Hv]. apply forallb_vocabulary in Hv.
        congruence.
Qed.


Lemma parseCommand_normalize raw raw' allow :
  normalizeCommand raw = normalizeCommand raw' →
  parseCommand K L raw allow = parseCommand K L raw' allow.
Proof. intros H. rewrite !parseCommand_unfold. by rewrite H. Qed.

Lemma parseCommand_plain raw allow :
  spamMatch (normalizeCommand raw) = None →
  parseCommand K L raw allow = parseCombo K L (normalizeCommand raw).
Proof.
  intros H. rewrite parseCommand_unfold. cbv zeta. rewrite H.
  destruct (normalizeCommand raw); [|done]. done.
Qed.

Lemma normalizeCommand_startsClean raw :
  startsClean (normalizeCommand raw) = true.
Proof.
  unfold normalizeCommand.
  by rewrite toLowerCase_startsClean, trim_startsClean.
Qed.

Lemma toLowerCase_trimEnd s : toLowerCase (trimEnd s) = trimEnd (toLowerCase s).
Proof.
  induction s as [|c s IH]; [done|].
  simpl toLowerCase. rewrite !trimEnd_cons, <- IH, lowerChar_isWhiteSpace.
  destruct (trimEnd s); simpl; [|done]. by destruct (isWhiteSpace c).
Qed.

Lemma normalizeCommand_trimEnd s :
  normalizeCommand (trimEnd s) = normalizeCommand s.
Proof. unfold normalizeCommand. by rewrite trim_trimEnd. Qed.

(** C5 (amended).  An input whose normalized text is [base], white
    space, [x] and a decimal number [n], with no line terminator in
    [base] (the form the pattern of the repeat suffix matches: [base]
    on one line, then [\s+], [x], [\d+]), is accepted if and only if
    repeats are allowed, [2 <= n <= 100] and [base] parses with repeats
    disabled; the result then has the buttons, the duration and the
    normalized text of the base command and [repeatCount = n]. *)
Theorem parse_repeat_form raw allow base ws ds :
  normalizeCommand raw = base +:+ ws +:+ String "x" ds →
  allChars (λ c, negb (isLineTerminator c)) base = true →
  ws ≠ "" → allChars isWhiteSpace ws = true →
  ds ≠ "" → allChars isDigit ds = true →
  let n := parseInt10 ds in
  (is_Some (parseCommand K L raw allow) ↔
     allow = true ∧ 2 ≤ n ≤ 100 ∧ is_Some (parseCommand K L base false)) ∧
  (∀ p, parseCommand K L raw allow = Some p →
        ∃ b, parseCommand K L base false = Some b ∧
             buttons p = buttons b ∧ durationMs p = durationMs b ∧
             normalized p = normalized b ∧ repeatCount p = n).
Proof.
  intros Hraw Hbase Hws1 Hws2 Hds1 Hds2 n.
  destruct (trimEnd_app base) as (r & Hb & Hr).
  pose proof (normalizeCommand_startsClean raw) as Hclean.
  assert (trimEnd base ≠ "") as Hne.
  { intros E. apply trimEnd_empty in E. rewrite Hraw in Hclean.
    destruct base as [|c base].
    - destruct ws as [|c ws]; [done|]. simpl in Hws2, Hclean.
      by destruct (isWhiteSpace c).
    - simpl in E, Hclean. by destruct (isWhiteSpace c). }
  assert (spamMatch (normalizeCommand raw) = Some (trimEnd base, ds)) as Hm.
  { rewrite Hraw. rewrite Hb at 1. rewrite sapp_assoc, <- (sapp_assoc r).
    apply spamMatch_form; try done.
    - apply trimEnd_idemp.
    - rewrite Hb, allChars_app in Hbase. by apply andb_true_iff in Hbase as [? _].
    - destruct r; [done|]. done.
    - rewrite allChars_app, Hr, Hws2. done. }
  assert (parseCommand K L raw allow =
            if allow then
              if bool_decide (n < 2 ∨ MAX_COMMAND_SPAM_REPEAT < n) then None
              else withRepeat n <$> parseCommand K L base false
            else None) as ->.
  { rewrite parseCommand_unfold. cbv zeta. rewrite Hm.
    rewrite (parseCommand_normalize (trimEnd base) base)
      by apply normalizeCommand_trimEnd.
    rewrite Hraw, Hb. destruct (trimEnd base); done. }
  unfold MAX_COMMAND_SPAM_REPEAT.
  destruct allow; [|split; [split; [by intros [? ?]|by intros [? _]]|done]].
  case_bool_decide as Hn.
  - split; [|done]. split; [by intros [? ?]|]. intros (_ & ? & _). lia.
  - destruct (parseCommand K L base false) as [b|]; simpl.
    + split; [split; [intros _; split_and!; [done|lia|lia|by eexists]|by eexists]|].
      intros p [= <-]. by exists b.
    + split; [|done]. split; [by intros [? ?]|]. by intros (_ & _ & [? ?]).
Qed.

(** C4 (amended).  For an input without repeat suffix, take the
    normalized text, strip one trailing [-] and split the rest on
    [+]: the parser accepts if and only if there are one or two
    parts and each part, trimmed of the white space around it, is a
    non-empty word of the vocabulary.  More than two parts are
    rejected with or without hold suffix.  On success the buttons
    are the trimmed parts, the duration is the long one exactly when
    the hold suffix was there, the normalized text is the buttons
    joined by [+] with the [-] put back, and the repeat count is 1;
    so ["b+right-"] gives the buttons [b], [right], the long
    duration and the text ["b+right-"]. *)
Theorem combo_rule_trimmed_parts raw allow :
  spamMatch (normalizeCommand raw) = None →
  let parts := trim <$> comboParts raw in
  (is_Some (parseCommand K L raw allow) ↔
     oneOrTwo parts ∧ Forall inVocabulary parts) ∧
  ((2 < length parts)%nat → parseCommand K L raw allow = None) ∧
  (∀ p, parseCommand K L raw allow = Some p →
        p = comboResult K L (holdSuffix raw) parts) ∧
  parseCommand K L "b+right-" false =
    Some (mkParsed ["b"; "right"] L "b+right-" 1).
Proof.
  intros Hplain parts. rewrite (parseCommand_plain _ _ Hplain).
  destruct (parseCombo_parts (normalizeCommand raw)) as [Hyes Hno].
  cbv zeta in Hyes, Hno.
  change (endsWith (normalizeCommand raw) "-") with (holdSuffix raw) in *.
  change (trim <$> split "+" (if holdSuffix raw
                              then dropLast (normalizeCommand raw)
                              else normalizeCommand raw))
    with parts in *.
  split_and!.
  - split.
    + intros [p Hp].
      destruct (decide (oneOrTwo parts ∧ Forall inVocabulary parts)) as [|Hn];
        [done|]. rewrite (Hno Hn) in Hp. done.
    + intros H. rewrite (Hyes H). by eexists.
  - intros Hlen. apply Hno. intros [[?|?] _]; lia.
  - intros p Hp.
    destruct (decide (oneOrTwo parts ∧ Forall inVocabulary parts)) as [H|Hn].
    + rewrite (Hyes H) in Hp. by injection Hp.
    + rewrite (Hno Hn) in Hp. done.
  - vm_compute. reflexivity.
Qed.

(** What a successful parse looks like. *)
Lemma parseCombo_Some t p :
  parseCombo K L t = Some p →
  ∃ hold : bool, oneOrTwo (buttons p) ∧ Forall inVocabulary (buttons p) ∧
          p = comboResult K L hold (buttons p).
Proof.
  intros Hp. destruct (parseCombo_parts t) as [Hyes Hno]. cbv zeta in *.
  set (hold := endsWith t "-") in *.
  set (parts := trim <$> split "+" (if hold then dropLast t else t)) in *.
  destruct (decide (oneOrTwo parts ∧ Forall inVocabulary parts)) as [Hd|Hd].
  - rewrite (Hyes Hd) in Hp. injection Hp as <-. exists hold.
    destruct Hd. by split_and!.
  - rewrite (Hno Hd) in Hp. done.
Qed.

Lemma parseCommand_Some raw allow p :
  parseCommand K L raw allow = Some p →
  ∃ hold : bool, oneOrTwo (buttons p) ∧ Forall inVocabulary (buttons p) ∧
          normalized p = join "+" (buttons p) +:+ (if hold then "-" else "") ∧
          durationMs p = (if hold then L else K) ∧
          1 ≤ repeatCount p ≤ 100.
Proof.
  assert (∀ raw p, parseCommand K L raw false = Some p →
    ∃ hold : bool, oneOrTwo (buttons p) ∧ Forall inVocabulary (buttons p) ∧
            p = comboResult K L hold (buttons p)) as Hplain.
  { clear. intros raw p. rewrite parseCommand_unfold. cbv zeta.
    destruct (isEmpty _); [done|].
    destruct (spamMatch _) as [[? ?]|]; [done|]. apply parseCombo_Some. }
  rewrite parseCommand_unfold. cbv zeta.
  destruct (isEmpty _); [done|].
  destruct (spamMatch _) as [[commandRaw repeatRaw]|].
  - destruct allow; [|done]. case_bool_decide as Hn; [done|].
    unfold MAX_COMMAND_SPAM_REPEAT in Hn.
    destruct (parseCommand K L commandRaw false) as [b|] eqn:Hb; [|done].
    intros [= <-]. apply Hplain in Hb as (hold & ? & ? & Hb).
    exists hold. simpl. split_and!; [done|done|by rewrite Hb at 1|by rewrite Hb at 1|lia|lia].
  - intros (hold & ? & ? & ->)%parseCombo_Some. exists hold. simpl.
    split_and!; done.
Qed.

(** The normalized text of a command parses back to the command. *)
Lemma parse_normalized (hold : bool) parts :
  oneOrTwo parts → Forall inVocabulary parts →
  parseCommand K L (join "+" parts +:+ (if hold then "-" else "")) false =
    Some (comboResult K L hold parts).
Proof.
  intros Hlen Hall.
  destruct parts as [|b1 [|b2 [|b3 parts]]];
    [destruct Hlen; done| | |destruct Hlen; done].
  - apply Forall_cons in Hall as [[_ H1] _]. unfold SUPPORTED_COMMANDS in H1.
    repeat (apply elem_of_cons in H1 as [->|H1]);
      [destruct hold; vm_compute; reflexivity..|by apply elem_of_nil in H1].
  - apply Forall_cons in Hall as [[_ H1] Hall].
    apply Forall_cons in Hall as [[_ H2] _].
    unfold SUPPORTED_COMMANDS in H1, H2.
    repeat (apply elem_of_cons in H1 as [->|H1]);
      [(repeat (apply elem_of_cons in H2 as [->|H2]);
        [destruct hold; vm_compute; reflexivity..|by apply elem_of_nil in H2])..
      |by apply elem_of_nil in H1].
Qed.

(** Parsing the normalized text of a parser result, with repeats
    disabled, gives the result back with repeat count 1. *)
Lemma reparse_normalized raw allow p :
  parseCommand K L raw allow = Some p →
  parseCommand K L (normalized p) false = Some (withRepeat 1 p).
Proof.
  intros (hold & Hlen & Hvoc & Hnorm & Hdur & _)%parseCommand_Some.
  rewrite Hnorm, (parse_normalized hold) by done.
  unfold comboResult, withRepeat. by rewrite Hnorm, Hdur.
Qed.

End WithDurations.

Lemma combo_rule_trimmed_parts_witness :
  spamMatch (normalizeCommand "a + b") = None ∧
  is_Some (parseCommand 80 240 "a + b" false) ∧
  trim <$> comboParts "a + b" = ["a"; "b"].
Proof.
  split; [reflexivity|]. split; [|reflexivity].
  apply (combo_rule_trimmed_parts 80 240 "a + b" false); [reflexivity|].
  split; [by right|].
  repeat constructor; try done; apply bool_decide_unpack; by vm_compute.
Defined.

(** The rule as the specification words it (the parts are not trimmed)
    fails on ["a + b"]: the parts are ["a "] and [" b"], no words of the
    vocabulary, and the parser accepts the command [a+b]. *)
Lemma combo_rule_untrimmed_counterexample :
  spamMatch (normalizeCommand "a + b") = None ∧
  parseCommand 80 240 "a + b" false = Some (mkParsed ["a"; "b"] 80 "a+b" 1) ∧
  comboParts "a + b" = ["a "; " b"] ∧
  ¬ (is_Some (parseCommand 80 240 "a + b" false) ↔
     oneOrTwo (comboParts "a + b") ∧ Forall inVocabulary (comboParts "a + b")).
Proof.
  split_and!; [reflexivity..|].
  intros [H _]. destruct H as [_ H]; [by vm_compute; eexists|].
  change (comboParts "a + b") with ["a "; " b"] in H.
  apply Forall_cons in H as [[_ H] _].
  apply (bool_decide_pack _) in H. by vm_compute in H.
Qed.

(** The rule as the specification words it, for every input of the
    form [base], white space, [x], number, fails when [base] holds a
    line terminator: the [.] of the pattern does not match it.  The
    text [a+], line feed, [b x5] is such an input, with the base [a+],
    line feed, [b], which parses to the buttons [a] and [b], and with
    the count 5; the pattern does not match, the text is read as a
    combo whose second part [b x5] is no button, and the parser
    rejects it with repeats allowed. *)
Lemma repeat_form_line_break_counterexample :
  let base := "a+" +:+ String "010" "b" in
  let raw := base +:+ " x5" in
  normalizeCommand raw = base +:+ " " +:+ String "x" "5" ∧
  allChars isWhiteSpace " " = true ∧ allChars isDigit "5" = true ∧
  parseInt10 "5" = 5 ∧
  parseCommand 80 240 base false = Some (mkParsed ["a"; "b"] 80 "a+b" 1) ∧
  spamMatch (normalizeCommand raw) = None ∧
  parseCommand 80 240 raw true = None ∧
  ¬ (is_Some (parseCommand 80 240 raw true) ↔
     true = true ∧ 2 ≤ parseInt10 "5" ≤ 100 ∧
     is_Some (parseCommand 80 240 base false)).
Proof.
  cbv zeta. split_and!; [reflexivity..|].
  intros [_ H]. destruct H as [p Hp]; [|by vm_compute in Hp].
  split_and!; [done|by vm_compute|by vm_compute|by vm_compute; eexists].
Qed.

Lemma parse_repeat_form_witness :
  normalizeCommand "a x5" = "a" +:+ " " +:+ String "x" "5" ∧
  parseCommand 80 240 "a x5" true = Some (mkParsed ["a"] 80 "a" 5) ∧
  parseCommand 80 240 "a x5" false = None ∧
  parseCommand 80 240 "a x1" true = None.
Proof.
  split; [reflexivity|].
  pose proof (parse_repeat_form 80 240 "a x5" true "a" " " "5"
                eq_refl eq_refl ltac:(done) eq_refl ltac:(done) eq_refl) as [_ H5].
  pose proof (parse_repeat_form 80 240 "a x5" false "a" " " "5"
                eq_refl eq_refl ltac:(done) eq_refl ltac:(done) eq_refl) as [[H5f _] _].
  pose proof (parse_repeat_form 80 240 "a x1" true "a" " " "1"
                eq_refl eq_refl ltac:(done) eq_refl ltac:(done) eq_refl) as [[H1 _] _].
  split_and!.
  - destruct (parseCommand 80 240 "a x5" true) as [p|] eqn:E; [|by vm_compute in E].
    destruct (H5 p eq_refl) as (b & Hb & ? & ? & ? & ?).
    vm_compute in Hb. injection Hb as <-. destruct p; simpl in *. by subst.
  - destruct (parseCommand 80 240 "a x5" false); [|done].
    destruct H5f as (? & _); [by eexists|done].
  - destruct (parseCommand 80 240 "a x1" true); [|done].
    destruct H1 as (_ & H & _); [by eexists|]. vm_compute in H. by destruct H as [H _].
Defined.

End ParserFacts.

Import Listener ParserFacts.

(** ** The chatter activity window *)

Module TrackerFacts.

(** The entries are in the order of their time stamps. *)
Definition inTimeOrder (chatterActivity : list ChatterEntry.t) : Prop :=
  StronglySorted (λ a b, ChatterEntry.createdAt a ≤ ChatterEntry.createdAt b)
    chatterActivity.

(** The age of an entry at [now] is within the window. *)
Definition inWindow (now : Z) (entry : ChatterEntry.t) : Prop :=
  now - ChatterEntry.createdAt entry ≤ CHATTER_WINDOW_MS.

Global Instance inWindow_dec now entry : Decision (inWindow now entry).
Proof. unfold inWindow. apply _. Defined.

Lemma filter_all {A} (P : A → Prop) `{∀ x, Decision (P x)} (l : list A) :
  Forall P l → filter P l = l.
Proof.
  induction 1 as [|x l Hx Hl IH]; [done|].
  by rewrite filter_cons, decide_True, IH.
Qed.

(** The loop drops a run of expired entries from the head and stops at
    the first entry that is not expired. *)
Lemma evictExpired_split cutoff activity :
  ∃ evicted,
    activity = evicted ++ evictExpired cutoff activity ∧
    Forall (λ e, ChatterEntry.createdAt e < cutoff) evicted ∧
    match evictExpired cutoff activity with
    | [] => True
    | first :: _ => cutoff ≤ ChatterEntry.createdAt first
    end.
Proof.
  induction activity as [|first rest (evicted & Heq & Hold & Hhead)].
  - by exists [].
  - simpl. case_bool_decide as Hc.
    + by exists [].
    + exists (first :: evicted). split_and!; [by rewrite Heq at 1| |done].
      constructor; [lia|done].
Qed.

Lemma evictExpired_sorted now activity :
  inTimeOrder activity →
  evictExpired (now - CHATTER_WINDOW_MS) activity =
    filter (inWindow now) activity.
Proof.
  induction 1 as [|first rest Hrest IH Hfirst]; [done|].
  simpl. rewrite filter_cons. unfold inWindow at 2.
  case_bool_decide as Hc.
  - rewrite decide_True by lia. f_equal. symmetry. apply filter_all.
    eapply Forall_impl; [done|]. unfold inWindow. simpl. intros. lia.
  - rewrite decide_False by lia. done.
Qed.

Lemma evictExpired_head cutoff first rest :
  cutoff ≤ ChatterEntry.createdAt first →
  evictExpired cutoff (first :: rest) = first :: rest.
Proof. intros H. simpl. by rewrite bool_decide_true. Qed.

(** A read at a later time finds what it would have found without
    the earlier read. *)
Lemma evictExpired_later cutoff cutoff' activity :
  cutoff ≤ cutoff' →
  evictExpired cutoff' (evictExpired cutoff activity) =
    evictExpired cutoff' activity.
Proof.
  intros Hle. induction activity as [|first rest IH]; [done|].
  simpl. case_bool_decide as Hc; [done|].
  rewrite IH. by rewrite (bool_decide_false (cutoff' ≤ _)) by lia.
Qed.

Lemma uniqueDids_remove_dups activity :
  uniqueDids activity =
    Z.of_nat (length (remove_dups (ChatterEntry.did <$> activity))).
Proof.
  unfold uniqueDids. f_equal.
  rewrite <- (size_list_to_set (C:=gset string) (remove_dups _))
    by apply NoDup_remove_dups.
  f_equal. apply set_eq. intros x.
  by rewrite !elem_of_list_to_set, elem_of_remove_dups.
Qed.

Lemma inTimeOrder_snoc activity did now :
  inTimeOrder activity →
  Forall (λ e, ChatterEntry.createdAt e ≤ now) activity →
  inTimeOrder (activity ++ [ChatterEntry.mk did now]).
Proof.
  intros Hs Hle. apply StronglySorted_app. split_and!; [|done|].
  - intros a b Ha ->%list_elem_of_singleton. simpl.
    by apply (proj1 (Forall_forall _ _) Hle).
  - repeat constructor.
Qed.

Lemma inTimeOrder_filter (P : ChatterEntry.t → Prop)
    `{∀ x, Decision (P x)} activity :
  inTimeOrder activity → inTimeOrder (filter P activity).
Proof.
  induction 1 as [|first rest Hrest IH Hfirst]; [constructor|].
  rewrite filter_cons. case_decide; [|done].
  constructor; [done|]. apply Forall_forall.
  intros x [_ Hx]%list_elem_of_filter.
  by apply (proj1 (Forall_forall _ _) Hfirst).
Qed.

(** C6.  A read at [now] of an activity sequence in time order evicts
    from its head exactly the entries whose age is above the window of
    ten minutes and returns the number of distinct participant ids of
    the entries that are left; none of these is older than the window.
    Recording a chatter at a time no earlier than the entries keeps
    the sequence in time order, and is such a read of the appended
    sequence. *)
Theorem read_counts_window_only now activity :
  inTimeOrder activity →
  let '(count, kept) := countUniqueChattersInWindow now activity in
  (∃ evicted, activity = evicted ++ kept ∧
              Forall (λ e, CHATTER_WINDOW_MS < now - ChatterEntry.createdAt e)
                evicted) ∧
  kept = filter (inWindow now) activity ∧
  Forall (inWindow now) kept ∧
  count = Z.of_nat (length (remove_dups (ChatterEntry.did <$> kept))) ∧
  inTimeOrder kept ∧
  CHATTER_WINDOW_MS = 600000 ∧
  ∀ did, Forall (λ e, ChatterEntry.createdAt e ≤ now) activity →
         inTimeOrder (activity ++ [ChatterEntry.mk did now]) ∧
         recordChatterAndCountUnique did now activity =
           countUniqueChattersInWindow now
             (activity ++ [ChatterEntry.mk did now]).
Proof.
  intros Hs. unfold countUniqueChattersInWindow.
  destruct (evictExpired_split (now - CHATTER_WINDOW_MS) activity)
    as (evicted & Heq & Hold & _).
  pose proof (evictExpired_sorted now activity Hs) as Hf.
  split_and!.
  - exists evicted. split; [done|].
    eapply Forall_impl; [done|]. simpl. intros. lia.
  - done.
  - rewrite Hf. apply Forall_forall. by intros x [? _]%list_elem_of_filter.
  - apply uniqueDids_remove_dups.
  - rewrite Hf. by apply inTimeOrder_filter.
  - done.
  - intros did Hle. split; [by apply inTimeOrder_snoc|done].
Qed.

Lemma read_counts_window_only_witness :
  inTimeOrder [ChatterEntry.mk "alice" 0; ChatterEntry.mk "bob" 5;
               ChatterEntry.mk "alice" 7] ∧
  countUniqueChattersInWindow 600005
    [ChatterEntry.mk "alice" 0; ChatterEntry.mk "bob" 5;
     ChatterEntry.mk "alice" 7] =
    (2, [ChatterEntry.mk "bob" 5; ChatterEntry.mk "alice" 7]).
Proof.
  assert (inTimeOrder [ChatterEntry.mk "alice" 0; ChatterEntry.mk "bob" 5;
                       ChatterEntry.mk "alice" 7]) as Hs.
  { repeat constructor; simpl; lia. }
  split; [done|].
  pose proof (read_counts_window_only 600005 _ Hs) as H.
  destruct (countUniqueChattersInWindow 600005 _) as [count kept].
  destruct H as (_ & -> & _ & -> & _). reflexivity.
Defined.

End TrackerFacts.

Import TrackerFacts.

(** ** The command queue and its consumer *)

Module ListenerFacts.

(** *** What the invariants speak about *)

Definition isActive (item : QueueItem.t) : Prop :=
  QueueItem.status item = Active.

Global Instance isActive_dec item : Decision (isActive item).
Proof. unfold isActive. apply _. Defined.

(** The number of items with status [active]. *)
Definition activeCount (items : list QueueItem.t) : nat :=
  length (filter isActive items).

(** The item the suspended consumer is dispatching, if any. *)
Definition nextOf (c : Consumer) : option nat :=
  match c with AwaitDispatch next => Some next | _ => None end.

(** No object is [active] but [owner]. *)
Definition activeOnly (owner : option nat) (objects : gmap nat QueueItem.t)
  : Prop :=
  ∀ ref item, objects !! ref = Some item → isActive item → owner = Some ref.

(** The queue holds the newest [MAX_QUEUE_ITEMS] arrivals. *)
Definition newest (arrived : list nat) : list nat :=
  drop (length arrived - MAX_QUEUE_ITEMS) arrived.

(** Two versions of an item that differ in the display fields only. *)
Definition sameWork (a b : QueueItem.t) : Prop :=
  QueueItem.id a = QueueItem.id b ∧ QueueItem.did a = QueueItem.did b ∧
  QueueItem.command a = QueueItem.command b ∧
  QueueItem.status a = QueueItem.status b ∧
  QueueItem.createdAt a = QueueItem.createdAt b.

Definition sameWorkHeap (h h' : gmap nat QueueItem.t) : Prop :=
  ∀ ref, option_Forall2 sameWork (h !! ref) (h' !! ref).

Global Instance sameWork_refl : Reflexive sameWork.
Proof. by intros a. Qed.

Global Instance sameWork_trans : Transitive sameWork.
Proof.
  intros a b c (?&?&?&?&?) (?&?&?&?&?). unfold sameWork. split_and!; congruence.
Qed.

Global Instance sameWorkHeap_refl : Reflexive sameWorkHeap.
Proof. intros h ref. by destruct (h !! ref); constructor. Qed.

Global Instance sameWorkHeap_trans : Transitive sameWorkHeap.
Proof.
  intros h1 h2 h3 H12 H23 ref. specialize (H12 ref). specialize (H23 ref).
  destruct H12; inversion H23; constructor; subst. by etrans.
Qed.

(** *** Counting active items *)

Lemma omap_cons {A B} (f : A → option B) x l :
  omap f (x :: l) =
    match f x with Some y => y :: omap f l | None => omap f l end.
Proof. done. Qed.

Lemma activeCount_owner (objects : gmap nat QueueItem.t) owner refs :
  NoDup refs → activeOnly owner objects →
  (activeCount (omap (λ ref, objects !! ref) refs) ≤ 1)%nat.
Proof.
  intros Hnd Hown. unfold activeCount.
  induction Hnd as [|ref refs Hnotin Hnd IH]; [simpl; lia|].
  rewrite omap_cons. destruct (objects !! ref) as [item|] eqn:Hitem; [|done].
  rewrite filter_cons. case_decide as Hact; [|done].
  assert (filter isActive (omap (λ ref, objects !! ref) refs) = []) as ->; [|done].
  apply (Hown _ _ Hitem) in Hact as ->.
  clear -Hnotin Hown. induction refs as [|r refs IH]; [done|].
  apply not_elem_of_cons in Hnotin as [Hne Hnotin]. rewrite omap_cons.
  destruct (objects !! r) as [item|] eqn:Hitem; [|by apply IH].
  rewrite filter_cons. case_decide as Hact; [|by apply IH].
  apply (Hown _ _ Hitem) in Hact. congruence.
Qed.


(** *** The overlay *)

Lemma set_chatterActivity_same s : set_chatterActivity (chatterActivity s) s = s.
Proof. by destruct s. Qed.

Lemma snapshot_eq now s :
  snapshot now s =
    (OverlaySnapshot.mk (chatMessages s) (queueItems s) (activeCommandId s)
       (SpamAbility.mk
          (bool_decide
             (uniqueDids (evictExpired (now - CHATTER_WINDOW_MS) (chatterActivity s))
              < MIN_UNIQUE_CHATTERS_FOR_NO_SPAM))
          (uniqueDids (evictExpired (now - CHATTER_WINDOW_MS) (chatterActivity s)))
          3 10),
     set_chatterActivity
       (evictExpired (now - CHATTER_WINDOW_MS) (chatterActivity s)) s).
Proof. by destruct s. Qed.

Lemma broadcast_eq now s :
  broadcast now s =
    set_pushed (pushed s ++ [(snapshot now s).1])
      (set_chatterActivity
         (evictExpired (now - CHATTER_WINDOW_MS) (chatterActivity s)) s).
Proof. unfold broadcast. rewrite snapshot_eq. by destruct s. Qed.

Lemma snapshot_queue now s :
  OverlaySnapshot.queue (snapshot now s).1 = queueItems s.
Proof. by rewrite snapshot_eq. Qed.

(** *** What a snapshot does to the tracker *)

(** C7 (amended).  Building a snapshot reads the tracker with
    [countUniqueChattersInWindow], and that read evicts: the activity
    sequence after the snapshot is the one before without the run of
    entries at its head that are older than the window, and nothing
    else of the state changes.  So the state is left as it was when
    the sequence is empty or its first entry is within the window, and
    no read at that time or later returns another count or another
    sequence than it would have without the snapshot.  The snapshot
    shows the count of that read, the threshold 3, the window of 10
    minutes and whether the count is below the threshold. *)
Theorem snapshot_only_evicts now s :
  let s' := (snapshot now s).2 in
  s' = set_chatterActivity
         (countUniqueChattersInWindow now (chatterActivity s)).2 s ∧
  (∃ evicted,
     chatterActivity s = evicted ++ chatterActivity s' ∧
     Forall (λ e, CHATTER_WINDOW_MS < now - ChatterEntry.createdAt e)
       evicted) ∧
  (match chatterActivity s with
   | [] => True
   | first :: _ => now - ChatterEntry.createdAt first ≤ CHATTER_WINDOW_MS
   end → s' = s) ∧
  (∀ now', now ≤ now' →
     countUniqueChattersInWindow now' (chatterActivity s') =
       countUniqueChattersInWindow now' (chatterActivity s)) ∧
  OverlaySnapshot.spamAbility (snapshot now s).1 =
    let count := (countUniqueChattersInWindow now (chatterActivity s)).1 in
    SpamAbility.mk (bool_decide (count < 3)) count 3 10.
Proof.
  rewrite snapshot_eq. cbv zeta. cbn [fst snd].
  unfold countUniqueChattersInWindow. cbn [fst snd].
  destruct (evictExpired_split (now - CHATTER_WINDOW_MS) (chatterActivity s))
    as (evicted & Heq & Hold & _).
  split_and!.
  - done.
  - exists evicted. split; [by destruct s|].
    eapply Forall_impl; [done|]. simpl. intros. lia.
  - intros Hhead.
    assert (evictExpired (now - CHATTER_WINDOW_MS) (chatterActivity s) =
            chatterActivity s) as ->; [|apply set_chatterActivity_same].
    destruct (chatterActivity s) as [|first rest]; [done|].
    apply evictExpired_head. lia.
  - intros now' Hle.
    change (chatterActivity (set_chatterActivity ?a ?s)) with a.
    rewrite evictExpired_later by lia. done.
  - done.
Qed.

(** *** The identity patch keeps the work of every item *)

Lemma patchItem_sameWork identity item :
  sameWork item (patchItem identity item).1.
Proof. unfold patchItem. by repeat case_bool_decide. Qed.

Lemma sameWorkHeap_insert h ref item item' :
  h !! ref = Some item → sameWork item item' →
  sameWorkHeap h (<[ref := item']> h).
Proof.
  intros Hitem Hsame r. destruct (decide (r = ref)) as [->|Hne].
  - rewrite lookup_insert_eq, Hitem. by constructor.
  - rewrite lookup_insert_ne by done. destruct (h !! r); by constructor.
Qed.

Lemma patchQueue_sameWork identity refs : ∀ objects,
  sameWorkHeap objects (patchQueue identity objects refs).1.
Proof.
  unfold patchQueue. generalize false.
  induction refs as [|ref refs IH]; intros changed objects; [done|].
  simpl. destruct (objects !! ref) as [item|] eqn:Hitem; [|apply IH].
  pose proof (patchItem_sameWork identity item) as Hsame.
  destruct (patchItem identity item) as [item' c]. simpl in Hsame.
  etrans; [|apply IH]. destruct c; [|done].
  by eapply sameWorkHeap_insert.
Qed.

(** The fields the identity cache and the overlay leave alone. *)
Definition sameControl (s s' : State) : Prop :=
  commandQueue s' = commandQueue s ∧ arrivals s' = arrivals s ∧
  activeCommandId s' = activeCommandId s ∧
  processingQueue s' = processingQueue s ∧ consumer s' = consumer s ∧
  repeaters s' = repeaters s ∧ dispatched s' = dispatched s.

(** The fields the command queue leaves alone. *)
Definition sameIdentity (s s' : State) : Prop :=
  chatMessages s' = chatMessages s ∧ identityCache s' = identityCache s ∧
  pendingIdentityLookups s' = pendingIdentityLookups s ∧
  lookups s' = lookups s.

Global Instance sameControl_refl : Reflexive sameControl.
Proof. by intros s. Qed.
Global Instance sameControl_trans : Transitive sameControl.
Proof.
  intros s1 s2 s3 (?&?&?&?&?&?&?) (?&?&?&?&?&?&?).
  unfold sameControl. split_and!; congruence.
Qed.
Global Instance sameIdentity_refl : Reflexive sameIdentity.
Proof. by intros s. Qed.
Global Instance sameIdentity_trans : Transitive sameIdentity.
Proof.
  intros s1 s2 s3 (?&?&?&?) (?&?&?&?).
  unfold sameIdentity. split_and!; congruence.
Qed.

Lemma broadcast_sameControl now s : sameControl s (broadcast now s).
Proof. by rewrite broadcast_eq. Qed.

Lemma broadcast_sameIdentity now s : sameIdentity s (broadcast now s).
Proof. by rewrite broadcast_eq. Qed.

Lemma broadcast_heap now s : heap (broadcast now s) = heap s.
Proof. by rewrite broadcast_eq. Qed.

Lemma sseStream_eq now s : sseStream now s = broadcast now s.
Proof. done. Qed.

Lemma applyIdentityToOverlay_sameControl identity now s :
  sameControl s (applyIdentityToOverlay identity now s).
Proof.
  unfold applyIdentityToOverlay.
  destruct (patchMessages _ _) as [messages c1].
  destruct (patchQueue _ _ _) as [objects c2].
  destruct (c1 || c2); [|done].
  etrans; [|apply broadcast_sameControl]. done.
Qed.

Lemma applyIdentityToOverlay_sameWork identity now s :
  sameWorkHeap (heap s) (heap (applyIdentityToOverlay identity now s)).
Proof.
  unfold applyIdentityToOverlay.
  destruct (patchMessages _ _) as [messages c1].
  pose proof (patchQueue_sameWork identity (commandQueue s) (heap s)) as Hq.
  destruct (patchQueue _ _ _) as [objects c2]. simpl in Hq.
  destruct (c1 || c2); [|done]. by rewrite broadcast_heap.
Qed.

Lemma applyIdentityToOverlay_identity identity now s :
  let s' := applyIdentityToOverlay identity now s in
  identityCache s' = identityCache s ∧
  pendingIdentityLookups s' = pendingIdentityLookups s ∧
  lookups s' = lookups s.
Proof.
  unfold applyIdentityToOverlay.
  destruct (patchMessages _ _) as [messages c1].
  destruct (patchQueue _ _ _) as [objects c2].
  destruct (c1 || c2); [|done]. by rewrite broadcast_eq.
Qed.

(** *** Trimming *)

Lemma set_commandQueue_same s : set_commandQueue (commandQueue s) s = s.
Proof. by destruct s. Qed.

Lemma trimQueue_eq s :
  trimQueue s =
    set_commandQueue
      (drop (length (commandQueue s) - MAX_QUEUE_ITEMS) (commandQueue s)) s.
Proof.
  unfold trimQueue. case_bool_decide as Hlen; [|done].
  replace (length (commandQueue s) - MAX_QUEUE_ITEMS)%nat with 0%nat by lia.
  by rewrite drop_0, set_commandQueue_same.
Qed.

Lemma newest_length arrived :
  length (newest arrived) = (length arrived `min` MAX_QUEUE_ITEMS)%nat.
Proof. unfold newest. rewrite length_drop. lia. Qed.

(** Pushing on the trimmed queue and trimming again keeps the newest. *)
Lemma newest_snoc arrived ref :
  drop (length (newest arrived ++ [ref]) - MAX_QUEUE_ITEMS)
    (newest arrived ++ [ref]) = newest (arrived ++ [ref]).
Proof.
  rewrite length_app, newest_length. unfold newest. rewrite length_app. simpl.
  destruct (decide (length arrived < MAX_QUEUE_ITEMS)%nat) as [Hlt|Hge].
  - replace (length arrived `min` MAX_QUEUE_ITEMS + 1 - MAX_QUEUE_ITEMS)%nat
      with 0%nat by lia.
    replace (length arrived + 1 - MAX_QUEUE_ITEMS)%nat with 0%nat by lia.
    replace (length arrived - MAX_QUEUE_ITEMS)%nat with 0%nat by lia.
    by rewrite !drop_0.
  - replace (length arrived `min` MAX_QUEUE_ITEMS + 1 - MAX_QUEUE_ITEMS)%nat
      with 1%nat by lia.
    rewrite !drop_app_le by (rewrite ?length_drop; unfold MAX_QUEUE_ITEMS in *; lia).
    rewrite drop_drop. f_equal. f_equal. lia.
Qed.

Section WithDurations.

Variables K L : Z.   (* the short and the long key press duration *)

Abbreviation parse := (parseCommand K L).
Abbreviation consumerLoop := (consumerLoop K L).
Abbreviation processQueue := (processQueue K L).
Abbreviation run := (run K L).
Abbreviation step := (step K L).
Abbreviation queueDelayElapsed := (queueDelayElapsed K L).
Abbreviation enqueueSingleCommand := (enqueueSingleCommand K L).
Abbreviation enqueueCommand := (enqueueCommand K L).
Abbreviation repeatDelayElapsed := (repeatDelayElapsed K L).
Abbreviation chatRecord := (chatRecord K L).

Definition parses (item : QueueItem.t) : Prop :=
  is_Some (parse (QueueItem.command item) false).

Definition snapshotOk (data : OverlaySnapshot.t) : Prop :=
  (activeCount (OverlaySnapshot.queue data) ≤ 1)%nat.

(** What holds of the queue between any two statements, for the item
    [owner] that may be [active]. *)
Record Core (owner : option nat) (s : State) : Prop := mkCore {
  core_nodup : NoDup (arrivals s);
  core_alloc : ∀ ref, ref ∈ arrivals s → is_Some (heap s !! ref);
  core_queue : commandQueue s = newest (arrivals s);
  core_active : activeOnly owner (heap s);
  core_pushed : Forall snapshotOk (pushed s);
  core_parse : ∀ ref item, heap s !! ref = Some item → parses item
}.

Lemma Core_queue_nodup owner s : Core owner s → NoDup (commandQueue s).
Proof.
  intros H. rewrite (core_queue _ _ H). unfold newest.
  eapply sublist_NoDup; [apply H|apply sublist_drop].
Qed.

(** The objects keep their commands. *)
Definition sameCommands (h h' : gmap nat QueueItem.t) : Prop :=
  ∀ ref, option_Forall2 (λ a b, QueueItem.command a = QueueItem.command b)
           (h !! ref) (h' !! ref).

Global Instance sameCommands_refl : Reflexive sameCommands.
Proof. intros h ref. by destruct (h !! ref); constructor. Qed.

Lemma sameWork_sameCommands h h' : sameWorkHeap h h' → sameCommands h h'.
Proof.
  intros H ref. destruct (H ref) as [a b (?&?&?&?&?)|]; by constructor.
Qed.

Lemma Core_update owner owner' s s' :
  Core owner s →
  arrivals s' = arrivals s → commandQueue s' = commandQueue s →
  pushed s' = pushed s → sameCommands (heap s) (heap s') →
  activeOnly owner' (heap s') →
  Core owner' s'.
Proof.
  intros [H1 H2 H3 H4 H5 H6] Ha Hq Hp Hh Hact. split.
  - by rewrite Ha.
  - intros ref Hin. rewrite Ha in Hin. apply H2 in Hin as [item Hitem].
    specialize (Hh ref). rewrite Hitem in Hh. inversion Hh. by eexists.
  - by rewrite Hq, Ha.
  - done.
  - by rewrite Hp.
  - intros ref item Hitem. specialize (Hh ref). rewrite Hitem in Hh.
    inversion Hh as [a b Hab Ha' Hb|]; subst. symmetry in Ha'.
    unfold parses. rewrite <- Hab. by eapply H6.
Qed.

Lemma activeOnly_sameWork owner h h' :
  activeOnly owner h → sameWorkHeap h h' → activeOnly owner h'.
Proof.
  intros Hact Hh ref item Hitem Hitem'. specialize (Hh ref).
  rewrite Hitem in Hh. inversion Hh as [a b (?&?&?&Hst&?) Ha Hb|]; subst.
  symmetry in Ha. apply (Hact _ _ Ha). unfold isActive in *. congruence.
Qed.

Lemma Core_sameWork owner s s' :
  Core owner s →
  arrivals s' = arrivals s → commandQueue s' = commandQueue s →
  pushed s' = pushed s → sameWorkHeap (heap s) (heap s') →
  Core owner s'.
Proof.
  intros H ? ? ? Hh. eapply Core_update; [done..| |].
  - by apply sameWork_sameCommands.
  - eapply activeOnly_sameWork; [apply H|done].
Qed.

Lemma Core_frame owner s s' :
  Core owner s →
  arrivals s' = arrivals s → commandQueue s' = commandQueue s →
  pushed s' = pushed s → heap s' = heap s →
  Core owner s'.
Proof.
  intros H ? ? ? Hh. eapply Core_sameWork; [done..|]. by rewrite Hh.
Qed.

Lemma Core_broadcast owner now s : Core owner s → Core owner (broadcast now s).
Proof.
  intros H. rewrite broadcast_eq.
  split; cbn [arrivals heap commandQueue pushed set_pushed set_chatterActivity];
    try apply H.
  apply Forall_app. split; [apply H|]. constructor; [|done].
  unfold snapshotOk. rewrite snapshot_queue. unfold queueItems.
  eapply activeCount_owner; [by eapply Core_queue_nodup|apply H].
Qed.

(** [setStatus] *)
Lemma sameCommands_alter_status h ref st :
  sameCommands h (alter (QueueItem.withStatus st) ref h).
Proof.
  intros r. destruct (decide (r = ref)) as [->|Hne].
  - rewrite lookup_alter_eq. destruct (h !! ref); by constructor.
  - rewrite lookup_alter_ne by done. destruct (h !! r); by constructor.
Qed.

Lemma Core_setStatus_inactive owner s ref st :
  Core owner s → st ≠ Active → Core owner (setStatus ref st s).
Proof.
  intros H Hst. eapply Core_update; [done|done..| |].
  - apply sameCommands_alter_status.
  - intros r item. simpl. destruct (decide (r = ref)) as [->|Hne].
    + rewrite lookup_alter_eq. destruct (heap s !! ref); [|done].
      simpl. intros [= <-]. done.
    + rewrite lookup_alter_ne by done. apply H.
Qed.

Lemma Core_release s ref st :
  Core (Some ref) s → st ≠ Active → Core None (setStatus ref st s).
Proof.
  intros H Hst. eapply Core_update; [done|done..| |].
  - apply sameCommands_alter_status.
  - intros r item. simpl. destruct (decide (r = ref)) as [->|Hne].
    + rewrite lookup_alter_eq. destruct (heap s !! ref); [|done].
      simpl. intros [= <-]. done.
    + rewrite lookup_alter_ne by done. intros Hitem Hact.
      pose proof (core_active _ _ H _ _ Hitem Hact). congruence.
Qed.

Lemma Core_acquire s ref :
  Core None s → Core (Some ref) (setStatus ref Active s).
Proof.
  intros H. eapply Core_update; [done|done..| |].
  - apply sameCommands_alter_status.
  - intros r item. simpl. destruct (decide (r = ref)) as [->|Hne]; [done|].
    rewrite lookup_alter_ne by done. intros Hitem Hact.
    pose proof (core_active _ _ H _ _ Hitem Hact). done.
Qed.

Lemma Core_applyIdentityToOverlay owner identity now s :
  Core owner s → Core owner (applyIdentityToOverlay identity now s).
Proof.
  intros H. unfold applyIdentityToOverlay.
  destruct (patchMessages _ _) as [messages c1].
  pose proof (patchQueue_sameWork identity (commandQueue s) (heap s)) as Hq.
  destruct (patchQueue _ _ _) as [objects c2]. simpl in Hq.
  assert (Core owner (set_heap objects (set_chatMessages messages s))) as H'.
  { by eapply Core_sameWork. }
  destruct (c1 || c2); [|done]. by apply Core_broadcast.
Qed.

(** *** The consumer loop *)

(** The state in which the loop returns. *)
Definition loopReturns (now : Z) (s : State) : State :=
  set_consumer Idle
    (set_processingQueue false (broadcast now (set_activeCommandId None s))).

(** The state in which it awaits the dispatch of [next]. *)
Definition loopDispatches (now : Z) (next : nat)
    (parsedCommand : ParsedCommand) (s : State) : State :=
  let s := setStatus next Active s in
  let s := set_activeCommandId (Some (idOf s next)) s in
  let s := broadcast now s in
  let s :=
    set_dispatched
      (dispatched s ++ [(buttons parsedCommand, durationMs parsedCommand)])
      s in
  set_consumer (AwaitDispatch next) s.

(** A rule for the loop: [I] holds at its head, [Q] where it stops,
    when its broadcasts read the clock at times that satisfy [T]. *)
Lemma consumerLoop_rule_readings (T : Z → Prop) (I Q : State → Prop) :
  (∀ time s next, T time → I s → findQueued s = Some next →
                  parse (commandOf s next) false = None →
                  I (broadcast time (setStatus next Error s))) →
  (∀ time s, T time → I s → findQueued s = None → Q (loopReturns time s)) →
  (∀ time s next parsedCommand,
     T time → I s → findQueued s = Some next →
     parse (commandOf s next) false = Some parsedCommand →
     Q (loopDispatches time next parsedCommand s)) →
  ∀ now s, (∀ path, T (now path)) → I s → Q (consumerLoop now s).
Proof.
  intros Hskip Hret Hdisp now s. funelim (consumerLoop now s); intros HT HI.
  - apply Hret; [apply (HT [0%nat])|done..].
  - apply Hdisp; [apply (HT [0%nat])|done..].
  - match goal with IH : ∀ (T : Z → Prop) (I Q : State → Prop), _ |- _ =>
      apply (IH T I Q); auto
    end.
    + intros path. apply (HT (1%nat :: path)).
    + apply Hskip; [apply (HT [0%nat])|done..].
Qed.

(** The same, whatever the clock reads. *)
Lemma consumerLoop_rule (I Q : State → Prop) :
  (∀ time s next, I s → findQueued s = Some next →
                  parse (commandOf s next) false = None →
                  I (broadcast time (setStatus next Error s))) →
  (∀ time s, I s → findQueued s = None → Q (loopReturns time s)) →
  (∀ time s next parsedCommand,
     I s → findQueued s = Some next →
     parse (commandOf s next) false = Some parsedCommand →
     Q (loopDispatches time next parsedCommand s)) →
  ∀ now s, I s → Q (consumerLoop now s).
Proof.
  intros Hskip Hret Hdisp now s.
  apply (consumerLoop_rule_readings (λ _, True)); auto.
Qed.

Lemma consumerLoop_unfold now s :
  consumerLoop now s =
    match findQueued s with
    | None => loopReturns (Clock.read now 0) s
    | Some next =>
        match parse (commandOf s next) false with
        | None =>
            consumerLoop (Clock.sub now 1)
              (broadcast (Clock.read now 0) (setStatus next Error s))
        | Some parsedCommand =>
            loopDispatches (Clock.read now 0) next parsedCommand s
        end
    end.
Proof.
  funelim (consumerLoop now s).
  - match goal with e : findQueued _ = None |- _ => by rewrite e end.
  - match goal with e : findQueued _ = Some _ |- _ => rewrite e end.
    match goal with e : parse _ _ = Some _ |- _ => by rewrite e end.
  - match goal with e : findQueued _ = Some _ |- _ => rewrite e end.
    match goal with e : parse _ _ = None |- _ => by rewrite e end.
Qed.

(** *** The invariant of the listener *)

(** The item the consumer is dispatching is [active]. *)
Definition awaited (s : State) : Prop :=
  ∀ ref, consumer s = AwaitDispatch ref →
         ∃ item, heap s !! ref = Some item ∧ isActive item.

(** The commands that are still to be repeated parse. *)
Definition repeatersOk (s : State) : Prop :=
  Forall (λ r, is_Some (parse (normalized (Repeater.command r)) false))
    (repeaters s).

Record Inv (s : State) : Prop := mkInv {
  inv_core : Core (nextOf (consumer s)) s;
  inv_flag : processingQueue s = true ↔ consumer s ≠ Idle;
  inv_awaited : awaited s;
  inv_repeaters : repeatersOk s
}.

Lemma Inv_initial : Inv initial.
Proof.
  split; [split| | |]; simpl; try done.
  - constructor.
  - intros ref []%elem_of_nil.
  - by apply Forall_nil.
Qed.

(** A step of the overlay or of the identity cache. *)
Definition identityStep (s s' : State) : Prop :=
  sameControl s s' ∧ sameWorkHeap (heap s) (heap s') ∧
  ∀ owner, Core owner s → Core owner s'.

Global Instance identityStep_refl : Reflexive identityStep.
Proof. intros s. by split_and!. Qed.

Global Instance identityStep_trans : Transitive identityStep.
Proof.
  intros s1 s2 s3 (?&?&?) (?&?&?). split_and!; [by etrans|by etrans|auto].
Qed.

Lemma Inv_identityStep s s' : Inv s → identityStep s s' → Inv s'.
Proof.
  intros [H1 H2 H3 H4] ((Hq&Ha&Hid&Hp&Hc&Hr&Hd)&Hh&HC). split.
  - rewrite Hc. by apply HC.
  - by rewrite Hp, Hc.
  - intros ref Href. rewrite Hc in Href.
    destruct (H3 _ Href) as (item & Hitem & Hact).
    specialize (Hh ref). rewrite Hitem in Hh.
    inversion Hh as [a b (?&?&?&Hst&?) Ha' Hb|]; subst.
    exists b. split; [done|]. unfold isActive in *. congruence.
  - unfold repeatersOk. by rewrite Hr.
Qed.

Lemma broadcast_identityStep now s : identityStep s (broadcast now s).
Proof.
  split_and!; [apply broadcast_sameControl|by rewrite broadcast_heap|].
  intros owner. apply Core_broadcast.
Qed.

Lemma applyIdentityToOverlay_identityStep identity now s :
  identityStep s (applyIdentityToOverlay identity now s).
Proof.
  split_and!.
  - apply applyIdentityToOverlay_sameControl.
  - apply applyIdentityToOverlay_sameWork.
  - intros owner. apply Core_applyIdentityToOverlay.
Qed.

(** A change of fields the queue does not read. *)
Lemma frame_identityStep s s' :
  sameControl s s' → heap s' = heap s → pushed s' = pushed s →
  identityStep s s'.
Proof.
  intros Hc Hh Hp. split_and!; [done|by rewrite Hh|].
  intros owner H. destruct Hc as (?&?&_). by eapply Core_frame.
Qed.

Lemma pushChatMessage_identityStep did user text isCommand now id s :
  identityStep s (pushChatMessage did user text isCommand now id s).
Proof.
  unfold pushChatMessage. etrans; [|apply broadcast_identityStep].
  by apply frame_identityStep.
Qed.

Lemma hydrateIdentity_identityStep did now s :
  identityStep s (hydrateIdentity did now s).
Proof.
  unfold hydrateIdentity.
  destruct (identityCache s !! did) as [cached|];
    repeat case_bool_decide;
    first [apply applyIdentityToOverlay_identityStep
          |reflexivity
          |by apply frame_identityStep].
Qed.

Lemma cacheLocalIdentity_identityStep identity now s :
  identityStep s (cacheLocalIdentity identity now s).
Proof.
  unfold cacheLocalIdentity.
  etrans; [|apply applyIdentityToOverlay_identityStep].
  by apply frame_identityStep.
Qed.

Lemma lookupSettled_identityStep did outcome now s :
  identityStep s (lookupSettled did outcome now s).
Proof.
  unfold lookupSettled. case_bool_decide; [|done].
  match goal with |- identityStep _ (set_pendingIdentityLookups _ ?s1) =>
    assert (identityStep s s1) as Hs1
  end.
  { destruct outcome; [|reflexivity..].
    etrans; [|apply applyIdentityToOverlay_identityStep].
    by apply frame_identityStep. }
  etrans; [done|]. by apply frame_identityStep.
Qed.

(** *** The queue *)

Lemma findQueued_lookup s next :
  findQueued s = Some next →
  next ∈ commandQueue s ∧
  ∃ item, heap s !! next = Some item ∧ QueueItem.status item = Queued.
Proof.
  intros [Hin Hq]%find_isQueued. split; [done|].
  unfold isQueued in Hq. destruct (heap s !! next) as [item|]; [|done].
  exists item. split; [done|]. by apply bool_decide_eq_true in Hq.
Qed.

Lemma consumerLoop_Inv now s :
  Core None s → processingQueue s = true → repeatersOk s →
  Inv (consumerLoop now s).
Proof.
  intros HC Hp Hr.
  apply (consumerLoop_rule
           (λ s, Core None s ∧ processingQueue s = true ∧ repeatersOk s));
    [| | |done]; clear now s HC Hp Hr.
  - intros now s next (HC & Hp & Hr) _ _. split_and!.
    + by apply Core_broadcast, Core_setStatus_inactive.
    + by rewrite broadcast_eq.
    + unfold repeatersOk. by rewrite broadcast_eq.
  - intros now s (HC & Hp & Hr) _. unfold loopReturns. split.
    + eapply Core_frame; [apply (Core_broadcast None now)|done..].
      by eapply Core_frame.
    + done.
    + done.
    + unfold repeatersOk. by rewrite broadcast_eq.
  - intros now s next parsed (HC & Hp & Hr) Hnext _. unfold loopDispatches.
    apply findQueued_lookup in Hnext as (_ & item & Hitem & _).
    cbv zeta. split.
    + eapply Core_frame; [apply (Core_broadcast (Some next) now)|done..].
      eapply Core_frame; [apply (Core_acquire s next HC)|done..].
    + rewrite broadcast_eq. simpl. by rewrite Hp.
    + intros ref [= <-]. rewrite broadcast_eq. simpl.
      rewrite lookup_alter_eq, Hitem. by eexists.
    + unfold repeatersOk. by rewrite broadcast_eq.
Qed.

Lemma processQueue_Inv now s : Inv s → Inv (processQueue now s).
Proof.
  intros H. unfold processQueue.
  destruct (processingQueue s) eqn:Hp; [done|].
  destruct H as [HC Hf Ha Hr].
  assert (consumer s = Idle) as Hidle.
  { destruct (consumer s); [done|..]; destruct Hf as [_ Hf];
      by rewrite Hf in Hp. }
  rewrite Hidle in HC. apply consumerLoop_Inv; [|done..].
  by eapply Core_frame.
Qed.

Lemma dispatchSettled_Inv ok now s : Inv s → Inv (dispatchSettled ok now s).
Proof.
  intros H. unfold dispatchSettled.
  destruct (consumer s) as [|next|] eqn:Hc; [done| |done].
  destruct H as [HC Hf Ha Hr]. rewrite Hc in HC. simpl in HC.
  split.
  - eapply Core_frame; [apply (Core_broadcast None now)|done..].
    eapply Core_frame;
      [apply (Core_release s next (if ok then Done else Error) HC)|done..].
    by destruct ok.
  - rewrite broadcast_eq. simpl. rewrite Hf, Hc. done.
  - done.
  - unfold repeatersOk. by rewrite broadcast_eq.
Qed.

Lemma queueDelayElapsed_Inv now s : Inv s → Inv (queueDelayElapsed now s).
Proof.
  intros H. unfold queueDelayElapsed.
  destruct (consumer s) as [|next|] eqn:Hc; [done|done|].
  destruct H as [HC Hf Ha Hr]. rewrite Hc in HC.
  apply consumerLoop_Inv; [done| |done]. apply Hf. by rewrite Hc.
Qed.

(** The part of [enqueueSingleCommand] before the broadcast. *)
Definition pushItem (item : QueueItem.t) (s : State) : State :=
  let ref := fresh (dom (heap s)) in
  let s := set_heap (<[ref := item]> (heap s)) s in
  let s := set_commandQueue (commandQueue s ++ [ref]) s in
  let s := set_arrivals (arrivals s ++ [ref]) s in
  trimQueue s.

Lemma enqueueSingleCommand_eq command did now id s :
  enqueueSingleCommand command did now id s =
    processQueue (Clock.sub now 2)
      (broadcast (Clock.read now 1)
         (pushItem (buildQueueItem command did (Clock.sub now 0) id s) s)).
Proof. done. Qed.

Lemma fresh_ref_new (s : State) : heap s !! fresh (dom (heap s)) = None.
Proof. apply not_elem_of_dom, is_fresh. Qed.

Lemma Core_pushItem owner item s :
  Core owner s → parses item → QueueItem.status item = Queued →
  Core owner (pushItem item s).
Proof.
  intros [H1 H2 H3 H4 H5 H6] Hparse Hst. unfold pushItem. cbv zeta.
  rewrite trimQueue_eq. pose proof (fresh_ref_new s) as Hnew.
  set (ref := fresh (dom (heap s))) in *.
  split; cbn [arrivals heap commandQueue pushed set_commandQueue
              set_arrivals set_heap].
  - apply NoDup_app. split_and!; [done| |apply NoDup_singleton].
    intros r Hr ->%list_elem_of_singleton. apply H2 in Hr as [? Hr].
    congruence.
  - intros r [Hr| ->%list_elem_of_singleton]%elem_of_app.
    + destruct (decide (r = ref)) as [->|Hne].
      * rewrite lookup_insert_eq. by eexists.
      * rewrite lookup_insert_ne by done. by apply H2.
    + rewrite lookup_insert_eq. by eexists.
  - rewrite H3. apply newest_snoc.
  - intros r it. destruct (decide (r = ref)) as [->|Hne].
    + rewrite lookup_insert_eq. intros [= <-] Hact.
      unfold isActive in Hact. congruence.
    + rewrite lookup_insert_ne by done. apply H4.
  - done.
  - intros r it. destruct (decide (r = ref)) as [->|Hne].
    + rewrite lookup_insert_eq. by intros [= <-].
    + rewrite lookup_insert_ne by done. apply H6.
Qed.

Lemma pushItem_Inv item s :
  Inv s → parses item → QueueItem.status item = Queued →
  Inv (pushItem item s).
Proof.
  intros [HC Hf Ha Hr] Hparse Hst.
  assert (consumer (pushItem item s) = consumer s) as Hc.
  { unfold pushItem. cbv zeta. by rewrite trimQueue_eq. }
  split.
  - rewrite Hc. by apply Core_pushItem.
  - rewrite Hc. unfold pushItem. cbv zeta. by rewrite trimQueue_eq.
  - intros ref Href. rewrite Hc in Href.
    destruct (Ha _ Href) as (it & Hit & Hact). exists it. split; [|done].
    unfold pushItem. cbv zeta. rewrite trimQueue_eq. simpl.
    rewrite lookup_insert_ne; [done|].
    intros <-. by rewrite fresh_ref_new in Hit.
  - unfold repeatersOk, pushItem. cbv zeta. by rewrite trimQueue_eq.
Qed.

Lemma enqueueSingleCommand_Inv command did now id s :
  Inv s → is_Some (parse command false) →
  Inv (enqueueSingleCommand command did now id s).
Proof.
  intros H Hparse. rewrite enqueueSingleCommand_eq.
  apply processQueue_Inv.
  eapply Inv_identityStep; [|apply broadcast_identityStep].
  by apply pushItem_Inv.
Qed.

(** *** What the queue leaves alone *)

(** A step of the consumer: the identity cache, the repeat loops and
    the queue array stay, and so do the objects but for their
    status. *)
Definition statusOnly (a b : QueueItem.t) : Prop :=
  QueueItem.withStatus Queued a = QueueItem.withStatus Queued b.

Definition statusOnlyHeap (h h' : gmap nat QueueItem.t) : Prop :=
  ∀ ref, option_Forall2 statusOnly (h !! ref) (h' !! ref).

Definition consumerStep (s s' : State) : Prop :=
  sameIdentity s s' ∧ repeaters s' = repeaters s ∧
  arrivals s' = arrivals s ∧ commandQueue s' = commandQueue s ∧
  statusOnlyHeap (heap s) (heap s').

Global Instance statusOnlyHeap_refl : Reflexive statusOnlyHeap.
Proof. intros h ref. by destruct (h !! ref); constructor. Qed.

Global Instance statusOnlyHeap_trans : Transitive statusOnlyHeap.
Proof.
  intros h1 h2 h3 H12 H23 ref. specialize (H12 ref). specialize (H23 ref).
  destruct H12; inversion H23; constructor; subst.
  unfold statusOnly in *. congruence.
Qed.

Lemma statusOnly_command a b :
  statusOnly a b →
  QueueItem.command a = QueueItem.command b ∧
  QueueItem.did a = QueueItem.did b ∧ QueueItem.id a = QueueItem.id b.
Proof. destruct a, b. unfold statusOnly. simpl. by intros [=]. Qed.

Lemma statusOnlyHeap_alter h ref st :
  statusOnlyHeap h (alter (QueueItem.withStatus st) ref h).
Proof.
  intros r. destruct (decide (r = ref)) as [->|Hne].
  - rewrite lookup_alter_eq. destruct (h !! ref); by constructor.
  - rewrite lookup_alter_ne by done. destruct (h !! r); by constructor.
Qed.

Global Instance consumerStep_refl : Reflexive consumerStep.
Proof. intros s. by split_and!. Qed.

Global Instance consumerStep_trans : Transitive consumerStep.
Proof.
  intros s1 s2 s3 (?&?&?&?&?) (?&?&?&?&?).
  split_and!; [by etrans|congruence..|by etrans].
Qed.

Lemma broadcast_consumerStep now s : consumerStep s (broadcast now s).
Proof. rewrite broadcast_eq. by split_and!. Qed.

Lemma setStatus_consumerStep ref st s : consumerStep s (setStatus ref st s).
Proof. split_and!; try done. apply statusOnlyHeap_alter. Qed.

Lemma consumerLoop_consumerStep now s : consumerStep s (consumerLoop now s).
Proof.
  apply (consumerLoop_rule (consumerStep s)); [| | |done].
  - intros time s' next Hs _ _. etrans; [done|].
    etrans; [apply (setStatus_consumerStep next Error)|].
    apply broadcast_consumerStep.
  - intros time s' Hs _. etrans; [done|]. unfold loopReturns.
    etrans; [|etrans; [apply (broadcast_consumerStep time)|]]; by split_and!.
  - intros time s' next parsed Hs _ _. etrans; [done|]. unfold loopDispatches.
    cbv zeta. etrans; [apply (setStatus_consumerStep next Active)|].
    etrans; [|etrans; [apply (broadcast_consumerStep time)|]]; by split_and!.
Qed.

Lemma processQueue_consumerStep now s : consumerStep s (processQueue now s).
Proof.
  unfold processQueue. destruct (processingQueue s); [done|].
  etrans; [|apply consumerLoop_consumerStep]. by split_and!.
Qed.

Lemma dispatchSettled_consumerStep ok now s :
  consumerStep s (dispatchSettled ok now s).
Proof.
  unfold dispatchSettled. destruct (consumer s) as [|next|]; [done| |done].
  etrans; [apply (setStatus_consumerStep next (if ok then Done else Error))|].
  etrans; [|etrans; [apply (broadcast_consumerStep now)|]]; by split_and!.
Qed.

Lemma queueDelayElapsed_consumerStep now s :
  consumerStep s (queueDelayElapsed now s).
Proof.
  unfold Listener.queueDelayElapsed.
  destruct (consumer s); [done|done|]. apply consumerLoop_consumerStep.
Qed.

(** [enqueueSingleCommand] pushes one new object and lets the
    consumer run. *)
Lemma enqueueSingleCommand_frame command did now id s :
  let s' := enqueueSingleCommand command did now id s in
  sameIdentity s s' ∧ repeaters s' = repeaters s ∧
  arrivals s' = arrivals s ++ [fresh (dom (heap s))].
Proof.
  cbv zeta. rewrite enqueueSingleCommand_eq.
  set (s1 := broadcast _ (pushItem _ s)).
  assert (sameIdentity s s1 ∧ repeaters s1 = repeaters s ∧
          arrivals s1 = arrivals s ++ [fresh (dom (heap s))])
    as ((Hm&Hi&Hp&Hl) & Hr & Ha).
  { unfold s1, pushItem. cbv zeta. rewrite broadcast_eq, trimQueue_eq.
    by split_and!. }
  destruct (processQueue_consumerStep (Clock.sub now 2) s1)
    as ((Hm'&Hi'&Hp'&Hl') & Hr' & Ha' & _).
  unfold sameIdentity. split_and!; congruence.
Qed.

Lemma Inv_set_repeaters rs s :
  Inv s →
  Forall (λ r, is_Some (parse (normalized (Repeater.command r)) false)) rs →
  Inv (set_repeaters rs s).
Proof.
  intros [HC Hf Ha Hr] Hrs. split; [|done..]. by eapply Core_frame.
Qed.

Lemma enqueueCommand_Inv command did now id s :
  Inv s → is_Some (parse (normalized command) false) →
  Inv (enqueueCommand command did now id s).
Proof.
  intros H Hparse. unfold Listener.enqueueCommand.
  pose proof (enqueueSingleCommand_Inv (normalized command) did now id s
                H Hparse) as H'.
  destruct (enqueueSingleCommand_frame (normalized command) did now id s)
    as (_ & Hr & _).
  revert H' Hr.
  generalize (enqueueSingleCommand (normalized command) did now id s).
  intros s' H' Hr.
  case_bool_decide; [done|]. apply Inv_set_repeaters; [done|].
  apply Forall_app. split; [apply H'|]. by constructor.
Qed.

Lemma repeatDelayElapsed_Inv k now id s :
  Inv s → Inv (repeatDelayElapsed k now id s).
Proof.
  intros H. unfold Listener.repeatDelayElapsed.
  destruct (repeaters s !! k) as [r|] eqn:Hk; [|done].
  assert (is_Some (parse (normalized (Repeater.command r)) false)) as Hparse.
  { eapply (proj1 (Forall_forall _ _) (inv_repeaters _ H)).
    by eapply list_elem_of_lookup_2. }
  pose proof (enqueueSingleCommand_Inv
                (normalized (Repeater.command r)) (Repeater.did r) now id s
                H Hparse) as H'.
  destruct (enqueueSingleCommand_frame (normalized (Repeater.command r))
              (Repeater.did r) now id s) as (_ & Hr & _).
  revert H' Hr.
  generalize (enqueueSingleCommand (normalized (Repeater.command r))
                (Repeater.did r) now id s).
  intros s' H' Hr.
  case_bool_decide; (apply Inv_set_repeaters; [done|]).
  - apply Forall_insert; [apply H'|done].
  - apply Forall_delete, H'.
Qed.

Lemma chatRecord_Inv did text user handle displayName avatarUrl
    now messageId itemId s :
  Inv s →
  Inv (chatRecord did text user handle displayName avatarUrl
         now messageId itemId s).
Proof.
  intros H. unfold Listener.chatRecord.
  destruct (recordChatterAndCountUnique did _ (chatterActivity s))
    as [uniqueChatters activity].
  set (allow := bool_decide (uniqueChatters < MIN_UNIQUE_CHATTERS_FOR_NO_SPAM)).
  match goal with |- Inv (match _ with Some _ => _ | None => ?s4 end) =>
    assert (Inv s4) as H4
  end.
  { eapply Inv_identityStep; [done|].
    etrans; [|apply hydrateIdentity_identityStep].
    etrans; [by apply (frame_identityStep s (set_chatterActivity activity s))|].
    etrans; [apply pushChatMessage_identityStep|].
    destruct (localIdentityFromRecord _ _ _ _); [|done].
    apply cacheLocalIdentity_identityStep. }
  destruct (parse text allow) as [p|] eqn:Hp; [|done].
  apply enqueueCommand_Inv; [done|].
  rewrite (reparse_normalized K L _ _ _ Hp). by eexists.
Qed.

Lemma step_Inv s e : Inv s → Inv (step s e).
Proof.
  intros H. destruct e as [now []]; simpl.
  - by apply chatRecord_Inv.
  - eapply Inv_identityStep; [done|]. apply broadcast_identityStep.
  - by apply dispatchSettled_Inv.
  - by apply queueDelayElapsed_Inv.
  - by apply repeatDelayElapsed_Inv.
  - eapply Inv_identityStep; [done|]. apply lookupSettled_identityStep.
Qed.

Lemma run_snoc s trace e : run s (trace ++ [e]) = step (run s trace) e.
Proof. unfold Listener.run. by rewrite foldl_snoc. Qed.

Lemma run_app s trace1 trace2 :
  run s (trace1 ++ trace2) = run (run s trace1) trace2.
Proof. unfold Listener.run. by rewrite foldl_app. Qed.

Lemma run_Inv trace : ∀ s, Inv s → Inv (run s trace).
Proof.
  induction trace as [|e trace IH]; intros s H; [done|].
  apply IH. by apply step_Inv.
Qed.

Lemma reachable_Inv trace : Inv (run initial trace).
Proof. apply run_Inv, Inv_initial. Qed.

(** *** The claims about the queue *)

(** C1.  In every state the listener reaches, and in every snapshot
    it has sent to the overlay, at most one item of the queue is
    [active].  An [active] object is the one the suspended consumer
    is dispatching; while it is, neither a wake nor the delay timer
    selects another item, and when the dispatch settles the item
    becomes [done] or [error] and the consumer goes to its delay.
    The flag is set exactly while a call of the consumer is
    suspended, and a wake with the flag set changes nothing. *)
Theorem at_most_one_active trace :
  let s := run initial trace in
  (activeCount (queueItems s) ≤ 1)%nat ∧
  Forall (λ data, (activeCount (OverlaySnapshot.queue data) ≤ 1)%nat)
    (pushed s) ∧
  (∀ ref item, heap s !! ref = Some item →
               QueueItem.status item = Active →
               consumer s = AwaitDispatch ref) ∧
  (∀ ref, consumer s = AwaitDispatch ref →
          (∀ now, processQueue now s = s ∧ queueDelayElapsed now s = s) ∧
          ∀ ok now,
            consumer (dispatchSettled ok now s) = AwaitDelay ∧
            QueueItem.status <$> heap (dispatchSettled ok now s) !! ref =
              Some (if ok then Done else Error)) ∧
  (processingQueue s = true ↔ consumer s ≠ Idle) ∧
  (processingQueue s = true → ∀ now, processQueue now s = s).
Proof.
  intros s. destruct (reachable_Inv trace) as [HC Hf Ha Hr]. fold s in HC, Hf, Ha, Hr.
  split_and!.
  - unfold queueItems.
    eapply activeCount_owner; [by eapply Core_queue_nodup|apply HC].
  - apply HC.
  - intros ref item Hitem Hact.
    pose proof (core_active _ _ HC _ _ Hitem Hact) as Ho.
    by destruct (consumer s); simplify_eq/=.
  - intros ref Href. split.
    + intros now. unfold Listener.processQueue, Listener.queueDelayElapsed.
      rewrite Href. destruct Hf as [_ ->]; [done|by rewrite Href].
    + intros ok now. unfold dispatchSettled. rewrite Href. split; [done|].
      destruct (Ha _ Href) as (item & Hitem & _).
      rewrite broadcast_eq. simpl. rewrite lookup_alter_eq, Hitem. done.
  - done.
  - intros Hp now. unfold Listener.processQueue. by rewrite Hp.
Qed.

(** C2.  In every state the listener reaches, the queue holds the
    newest [MAX_QUEUE_ITEMS] = 40 of the items that were enqueued,
    in their order of arrival: it is the end of the sequence of
    arrivals, all of it up to 40 arrivals and exactly its last 40
    beyond, so overflow drops from the head.  Each
    [enqueueSingleCommand] adds one new object for its command to
    the arrivals. *)
Theorem queue_keeps_newest trace :
  let s := run initial trace in
  commandQueue s =
    drop (length (arrivals s) - MAX_QUEUE_ITEMS) (arrivals s) ∧
  commandQueue s `suffix_of` arrivals s ∧
  length (commandQueue s) = (length (arrivals s) `min` MAX_QUEUE_ITEMS)%nat ∧
  MAX_QUEUE_ITEMS = 40%nat ∧
  NoDup (arrivals s) ∧
  ∀ command did now id,
    let s' := enqueueSingleCommand command did now id s in
    ∃ ref item,
      arrivals s' = arrivals s ++ [ref] ∧
      heap s' !! ref = Some item ∧
      QueueItem.command item = command ∧ QueueItem.did item = did.
Proof.
  intros s. destruct (reachable_Inv trace) as [HC Hf Ha Hr]. fold s in HC, Hf, Ha, Hr.
  split_and!.
  - apply HC.
  - rewrite (core_queue _ _ HC). apply suffix_drop.
  - rewrite (core_queue _ _ HC). apply newest_length.
  - done.
  - apply HC.
  - intros command did now id. cbv zeta.
    destruct (enqueueSingleCommand_frame command did now id s) as (_ & _ & Harr).
    exists (fresh (dom (heap s))).
    rewrite enqueueSingleCommand_eq in *.
    set (item := buildQueueItem command did (Clock.sub now 0) id s) in *.
    destruct (processQueue_consumerStep (Clock.sub now 2)
                (broadcast (Clock.read now 1) (pushItem item s)))
      as (_ & _ & _ & _ & Hh).
    specialize (Hh (fresh (dom (heap s)))).
    rewrite broadcast_heap in Hh. unfold pushItem in Hh at 1. cbv zeta in Hh.
    rewrite trimQueue_eq in Hh. simpl in Hh. rewrite lookup_insert_eq in Hh.
    inversion Hh as [a b Hab Ha' Hb|]; subst.
    apply statusOnly_command in Hab as (Hcmd & Hdid & _).
    exists b. split_and!; [done|done|by rewrite <- Hcmd|by rewrite <- Hdid].
Qed.

(** C10.  The normalized text of every parser result parses again,
    with repeats disabled, to the same buttons, duration and
    normalized text, with repeat count 1.  So the command of every
    queue item the listener ever creates parses, and whenever the
    consumer selects an item the re-parse succeeds: the branch that
    marks a queued item [error] is never taken. *)
Theorem normalized_reparses :
  (∀ raw allow p,
     parse raw allow = Some p →
     parse (normalized p) false =
       Some (mkParsed (buttons p) (durationMs p) (normalized p) 1)) ∧
  ∀ trace,
    let s := run initial trace in
    (∀ ref item, heap s !! ref = Some item →
                 is_Some (parse (QueueItem.command item) false)) ∧
    (∀ next, findQueued s = Some next →
             is_Some (parse (commandOf s next) false)) ∧
    ∀ now,
      match findQueued s with
      | None => consumerLoop now s = loopReturns (Clock.read now 0) s
      | Some next =>
          ∃ parsedCommand,
            parse (commandOf s next) false = Some parsedCommand ∧
            consumerLoop now s =
              loopDispatches (Clock.read now 0) next parsedCommand s
      end.
Proof.
  split; [intros raw allow p Hp; by apply (reparse_normalized K L raw allow)|].
  intros trace s. destruct (reachable_Inv trace) as [HC _ _ _]. fold s in HC.
  assert (∀ next, findQueued s = Some next →
                  is_Some (parse (commandOf s next) false)) as Hnext.
  { intros next (_ & item & Hitem & _)%findQueued_lookup.
    unfold commandOf. rewrite Hitem. simpl. by eapply (core_parse _ _ HC). }
  split_and!; [apply HC|done|].
  intros now. destruct (findQueued s) as [next|] eqn:Hfind.
  - destruct (Hnext next eq_refl) as [p Hp]. exists p. split; [done|].
    by rewrite consumerLoop_unfold, Hfind, Hp.
  - by rewrite consumerLoop_unfold, Hfind.
Qed.

(** *** The selection of the consumer *)

Lemma find_first {A} (f : A → bool) (l : list A) x :
  List.find f l = Some x →
  ∃ l1 l2, l = l1 ++ x :: l2 ∧ f x = true ∧ Forall (λ y, f y = false) l1.
Proof.
  induction l as [|y l IH]; [done|]. simpl.
  destruct (f y) eqn:Hy.
  - intros [= <-]. by exists [], l.
  - intros (l1 & l2 & -> & Hx & Hl1)%IH. exists (y :: l1), l2.
    split_and!; [done|done|by constructor].
Qed.

Lemma find_some_elem {A} (f : A → bool) (l : list A) x :
  x ∈ l → f x = true → is_Some (List.find f l).
Proof.
  intros Hx Hf. destruct (List.find f l) eqn:E; [by eexists|].
  apply list_elem_of_In in Hx. by rewrite (find_none _ _ E _ Hx) in Hf.
Qed.

(** What the loop has done to the objects when it is at its head
    again: nothing, or it has marked a queued item whose command
    does not parse. *)
Definition skipped (s s' : State) : Prop :=
  commandQueue s' = commandQueue s ∧
  ∀ ref, heap s' !! ref = heap s !! ref ∨
         (isQueued (heap s) ref = true ∧
          parse (commandOf s ref) false = None ∧
          isQueued (heap s') ref = false).

Lemma skipped_queued s s' ref :
  skipped s s' → isQueued (heap s') ref = true →
  isQueued (heap s) ref = true ∧ commandOf s' ref = commandOf s ref.
Proof.
  intros [_ H] Hq. destruct (H ref) as [Heq|(_ & _ & Hn)]; [|congruence].
  unfold isQueued, commandOf in *. by rewrite <- Heq.
Qed.

(** The loop passes a queued item whose command does not parse. *)
Lemma skipped_step time s s' ref :
  skipped s s' → findQueued s' = Some ref →
  parse (commandOf s' ref) false = None →
  skipped s (broadcast time (setStatus ref Error s')).
Proof.
  intros Hs Hfind Hparse.
  apply find_isQueued in Hfind as [_ Hq].
  destruct (skipped_queued _ _ _ Hs Hq) as [Hq0 Hcmd].
  destruct Hs as [Hqueue Hobj]. split; [by rewrite broadcast_eq|].
  intros r. rewrite broadcast_heap. destruct (decide (r = ref)) as [->|Hne].
  - right. split_and!; [done|by rewrite <- Hcmd|].
    rewrite isQueued_setStatus, decide_True by done. by rewrite andb_false_r.
  - destruct (Hobj r) as [Heq|(?&?&Hr)].
    + left. simpl. by rewrite lookup_alter_ne.
    + right. split_and!; [done..|].
      by rewrite isQueued_setStatus, decide_False.
Qed.

Lemma consumerLoop_selects now s next :
  consumer (consumerLoop now s) = AwaitDispatch next →
  ∃ older newer,
    commandQueue s = older ++ next :: newer ∧
    isQueued (heap s) next = true ∧
    is_Some (parse (commandOf s next) false) ∧
    Forall (λ ref, isQueued (heap s) ref = false ∨
                   parse (commandOf s ref) false = None) older.
Proof.
  revert next.
  apply (consumerLoop_rule (skipped s)); [| | |by split; [|left]].
  - intros time s' ref Hs Hfind Hparse. by apply skipped_step.
  - intros time s' _ _ next. unfold loopReturns. simpl. done.
  - intros time s' ref parsed Hs Hfind Hparse next. unfold loopDispatches.
    simpl. intros [= <-].
    apply find_first in Hfind as (older & newer & Hqueue & Hq & Hold).
    destruct (skipped_queued _ _ _ Hs Hq) as [Hq0 Hcmd].
    exists older, newer. destruct Hs as [Hqueue' Hobj].
    split_and!; [congruence|done|rewrite <- Hcmd, Hparse; by eexists|].
    eapply Forall_impl; [done|]. simpl. intros r Hr.
    destruct (Hobj r) as [Heq|(?&?&_)]; [|by right].
    left. unfold isQueued in *. by rewrite <- Heq.
Qed.

(** The first element that satisfies [Q], when no element before it
    satisfies [P] and [Q] implies [P], is the first that satisfies
    [P]. *)
Lemma first_match {A} (P Q : A → Prop) (l1 l2 older newer : list A) x y :
  l1 ++ x :: l2 = older ++ y :: newer →
  Forall (λ r, ¬ P r) l1 → P y → Forall (λ r, ¬ Q r) older → Q x →
  x = y.
Proof.
  revert older. induction l1 as [|a l1 IH]; intros [|b older] Heq Hl1 Hy Ho Hx.
  - by injection Heq.
  - injection Heq as -> _. by apply Forall_cons in Ho as [? _].
  - injection Heq as -> _. by apply Forall_cons in Hl1 as [? _].
  - injection Heq as -> Heq. apply Forall_cons in Hl1 as [_ Hl1].
    apply Forall_cons in Ho as [_ Ho]. by apply (IH older).
Qed.

(** An item that is [queued] with a command that parses is dispatched
    when no such item is before it in the queue, whatever the status of
    the items before it. *)
Lemma consumerLoop_dispatches now s older next newer :
  commandQueue s = older ++ next :: newer →
  isQueued (heap s) next = true →
  is_Some (parse (commandOf s next) false) →
  Forall (λ ref, isQueued (heap s) ref = false ∨
                 parse (commandOf s ref) false = None) older →
  consumer (consumerLoop now s) = AwaitDispatch next ∧
  QueueItem.status <$> heap (consumerLoop now s) !! next = Some Active.
Proof.
  intros Hqueue Hq Hparse Hold.
  assert (∀ s', skipped s s' →
                heap s' !! next = heap s !! next ∧
                isQueued (heap s') next = true ∧
                commandOf s' next = commandOf s next) as Hnext.
  { intros s' [_ Hobj]. destruct (Hobj next) as [Heq|(_ & Hn & _)].
    - unfold isQueued, commandOf in *. by rewrite Heq.
    - rewrite Hn in Hparse. by destruct Hparse. }
  apply (consumerLoop_rule (skipped s)); [| | |by split; [|left]].
  - intros time s' ref Hs Hfind Hnone. by apply skipped_step.
  - intros time s' Hs Hfind. exfalso.
    destruct (Hnext s' Hs) as (_ & Hq' & _).
    assert (is_Some (findQueued s')) as [? Hsome]; [|congruence].
    eapply find_some_elem; [|done]. destruct Hs as [-> _].
    rewrite Hqueue. apply elem_of_app. right. by left.
  - intros time s' ref parsed Hs Hfind Hsome.
    destruct (Hnext s' Hs) as (Hsame & Hq' & Hcmd').
    apply find_first in Hfind as (l1 & l2 & Hqueue' & Hqref & Hl1).
    assert (ref = next) as ->.
    { apply (first_match (λ r, isQueued (heap s') r = true)
               (λ r, isQueued (heap s') r = true ∧
                     is_Some (parse (commandOf s' r) false))
               l1 l2 older newer).
      - destruct Hs as [Hsameq _]. congruence.
      - eapply Forall_impl; [done|]. simpl. intros r Hr. congruence.
      - done.
      - eapply Forall_impl; [exact Hold|]. simpl. intros r Hr [Hqr Hpr].
        destruct (skipped_queued _ _ _ Hs Hqr) as [Hqr0 Hcmdr].
        rewrite Hcmdr in Hpr. destruct Hr as [Hr|Hr]; [congruence|].
        rewrite Hr in Hpr. by destruct Hpr.
      - split; [done|]. rewrite Hsome. by eexists. }
    unfold loopDispatches. cbv zeta. rewrite broadcast_eq. simpl.
    split; [done|]. rewrite lookup_alter_eq.
    unfold isQueued in Hq'. by destruct (heap s' !! next).
Qed.

(** C3.  The consumer selects with [findQueued], which gives the
    first item of the queue sequence that is [queued]: every item
    before it has another status, and if any item is [queued] one is
    found, so items that are [done], [error] or [active] are passed
    over and block nothing.  The item the loop dispatches is such a
    selection: it was [queued] when the loop started, and the items
    before it were not, or were [queued] with a command that does
    not parse, which the loop marks [error] and passes.  And the loop
    does dispatch: a [queued] item whose command parses is dispatched
    and made [active] when no such item is before it, whatever the
    items before it are.  In the states the listener reaches every
    command parses, so there the items before the dispatched one were
    not [queued], and whenever an item of the queue is [queued] the
    loop dispatches the first one that is. *)
Theorem consumer_picks_oldest_queued :
  (∀ s next,
     findQueued s = Some next →
     ∃ older newer,
       commandQueue s = older ++ next :: newer ∧
       isQueued (heap s) next = true ∧
       Forall (λ ref, isQueued (heap s) ref = false) older) ∧
  (∀ s ref,
     ref ∈ commandQueue s → isQueued (heap s) ref = true →
     is_Some (findQueued s)) ∧
  (∀ now s next,
     consumer (consumerLoop now s) = AwaitDispatch next →
     ∃ older newer,
       commandQueue s = older ++ next :: newer ∧
       isQueued (heap s) next = true ∧
       is_Some (parse (commandOf s next) false) ∧
       Forall (λ ref, isQueued (heap s) ref = false ∨
                      parse (commandOf s ref) false = None) older) ∧
  (∀ trace now next,
     let s := run initial trace in
     consumer (consumerLoop now s) = AwaitDispatch next →
     ∃ older newer,
       commandQueue s = older ++ next :: newer ∧
       isQueued (heap s) next = true ∧
       Forall (λ ref, isQueued (heap s) ref = false) older) ∧
  (∀ now s older next newer,
     commandQueue s = older ++ next :: newer →
     isQueued (heap s) next = true →
     is_Some (parse (commandOf s next) false) →
     Forall (λ ref, isQueued (heap s) ref = false ∨
                    parse (commandOf s ref) false = None) older →
     consumer (consumerLoop now s) = AwaitDispatch next ∧
     QueueItem.status <$> heap (consumerLoop now s) !! next = Some Active) ∧
  (∀ trace now ref,
     let s := run initial trace in
     ref ∈ commandQueue s → isQueued (heap s) ref = true →
     ∃ next,
       findQueued s = Some next ∧
       consumer (consumerLoop now s) = AwaitDispatch next ∧
       QueueItem.status <$> heap (consumerLoop now s) !! next = Some Active).
Proof.
  split_and!.
  - intros s next. apply find_first.
  - intros s ref. apply find_some_elem.
  - apply consumerLoop_selects.
  - intros trace now next s
      (older & newer & Hqueue & Hq & _ & Hold)%consumerLoop_selects.
    exists older, newer. split_and!; [done..|].
    eapply Forall_impl; [done|]. simpl. intros r [Hr|Hr]; [done|].
    destruct (isQueued (heap s) r) eqn:Hqr; [|done].
    unfold isQueued, commandOf in *.
    destruct (heap s !! r) as [item|] eqn:Hitem; [|done].
    destruct (core_parse _ _ (inv_core _ (reachable_Inv trace)) _ _ Hitem)
      as [p Hp].
    simpl in Hr. unfold parses in *. congruence.
  - apply consumerLoop_dispatches.
  - intros trace now ref s Hin Hq.
    destruct (find_some_elem _ _ _ Hin Hq) as [next Hfind].
    exists next. split; [done|].
    destruct (findQueued_lookup _ _ Hfind) as (_ & item & Hitem & _).
    apply find_first in Hfind as (older & newer & Hqueue & Hqn & Hold).
    apply (consumerLoop_dispatches now s older next newer); [done|done| |].
    + unfold commandOf. rewrite Hitem. simpl.
      by eapply (core_parse _ _ (inv_core _ (reachable_Inv trace))).
    + eapply Forall_impl; [done|]. simpl. by left.
Qed.

(** *** Identity lookups *)

(** The number of calls of [fetchIdentityFromSlingshot] for [did]. *)
Definition lookupsFor (did : string) (s : State) : nat :=
  length (filter (λ d, d = did) (lookups s)).

(** While a lookup for [did] is in flight, it stays so and no other
    is started. *)
Definition keepsInFlight (did : string) (s s' : State) : Prop :=
  did ∈ pendingIdentityLookups s →
  did ∈ pendingIdentityLookups s' ∧ lookupsFor did s' = lookupsFor did s.

Global Instance keepsInFlight_refl did : Reflexive (keepsInFlight did).
Proof. by intros s. Qed.

Global Instance keepsInFlight_trans did : Transitive (keepsInFlight did).
Proof.
  intros s1 s2 s3 H12 H23 H1. destruct (H12 H1) as [H2 ?].
  destruct (H23 H2) as [? ?]. split; [done|congruence].
Qed.

Lemma keepsInFlight_same did s s' :
  pendingIdentityLookups s' = pendingIdentityLookups s →
  lookups s' = lookups s → keepsInFlight did s s'.
Proof. intros Hp Hl H. unfold lookupsFor. by rewrite Hp, Hl. Qed.

Lemma applyIdentityToOverlay_keepsInFlight did identity now s :
  keepsInFlight did s (applyIdentityToOverlay identity now s).
Proof.
  destruct (applyIdentityToOverlay_identity identity now s) as (_&?&?).
  by apply keepsInFlight_same.
Qed.

Lemma lookupsFor_snoc did did' s :
  lookupsFor did (set_lookups (lookups s ++ [did']) s) =
    (lookupsFor did s + if decide (did' = did) then 1 else 0)%nat.
Proof.
  unfold lookupsFor. simpl. rewrite filter_app, length_app, filter_cons.
  by case_decide.
Qed.

Lemma hydrateIdentity_keepsInFlight did did' now s :
  keepsInFlight did s (hydrateIdentity did' now s).
Proof.
  unfold hydrateIdentity.
  match goal with |- context [match ?c with _ => _ end] =>
    destruct c as [cached|]
  end; [apply applyIdentityToOverlay_keepsInFlight|].
  case_bool_decide as Hp; [done|]. intros Hin. split.
  - simpl. set_solver.
  - change (lookupsFor did (set_pendingIdentityLookups ?p ?s))
      with (lookupsFor did s).
    rewrite lookupsFor_snoc. case_decide; [by subst|lia].
Qed.

Lemma lookupSettled_keepsInFlight did did' outcome now s :
  did' ≠ did → keepsInFlight did s (lookupSettled did' outcome now s).
Proof.
  intros Hne. unfold lookupSettled. case_bool_decide; [|done].
  match goal with |- keepsInFlight _ _ (set_pendingIdentityLookups _ ?s1) =>
    assert (keepsInFlight did s s1) as Hs1
  end.
  { destruct outcome; [|done..].
    etrans; [|apply applyIdentityToOverlay_keepsInFlight].
    by apply keepsInFlight_same. }
  intros Hin. destruct (Hs1 Hin) as [Hin1 Hl]. split; [|done].
  simpl. set_solver.
Qed.

Lemma pushChatMessage_keepsInFlight did did' user text isCommand now id s :
  keepsInFlight did s (pushChatMessage did' user text isCommand now id s).
Proof.
  unfold pushChatMessage. rewrite broadcast_eq. by apply keepsInFlight_same.
Qed.

Lemma cacheLocalIdentity_keepsInFlight did identity now s :
  keepsInFlight did s (cacheLocalIdentity identity now s).
Proof.
  unfold cacheLocalIdentity.
  etrans; [|apply applyIdentityToOverlay_keepsInFlight].
  by apply keepsInFlight_same.
Qed.

Lemma consumerStep_keepsInFlight did s s' :
  consumerStep s s' → keepsInFlight did s s'.
Proof. intros ((_&_&?&?)&_). by apply keepsInFlight_same. Qed.

Lemma enqueueCommand_keepsInFlight did command did' now id s :
  keepsInFlight did s (enqueueCommand command did' now id s).
Proof.
  unfold Listener.enqueueCommand.
  destruct (enqueueSingleCommand_frame (normalized command) did' now id s)
    as ((_&_&Hp&Hl)&_).
  revert Hp Hl.
  generalize (enqueueSingleCommand (normalized command) did' now id s).
  intros s' Hp Hl. case_bool_decide; by apply keepsInFlight_same.
Qed.

Lemma step_keepsInFlight did s e :
  (∀ outcome, e.2 ≠ LookupSettled did outcome) →
  keepsInFlight did s (step s e).
Proof.
  intros He. destruct e as [now e]. simpl in He.
  destruct e; unfold Listener.step; cbv beta iota.
  - unfold Listener.chatRecord.
    destruct (recordChatterAndCountUnique _ _ _) as [uniqueChatters activity].
    match goal with |- keepsInFlight _ _ (match _ with Some _ => _ | None => ?s4 end) =>
      assert (keepsInFlight did s s4) as H4
    end.
    { etrans; [|apply hydrateIdentity_keepsInFlight].
      etrans; [by apply (keepsInFlight_same did s (set_chatterActivity activity s))|].
      etrans; [apply pushChatMessage_keepsInFlight|].
      destruct (localIdentityFromRecord _ _ _ _); [|done].
      apply cacheLocalIdentity_keepsInFlight. }
    destruct (parse _ _); [|done].
    etrans; [done|]. apply enqueueCommand_keepsInFlight.
  - rewrite sseStream_eq, broadcast_eq. by apply keepsInFlight_same.
  - apply consumerStep_keepsInFlight, dispatchSettled_consumerStep.
  - apply consumerStep_keepsInFlight, queueDelayElapsed_consumerStep.
  - unfold Listener.repeatDelayElapsed.
    destruct (repeaters s !! k) as [r|]; [|done].
    destruct (enqueueSingleCommand_frame (normalized (Repeater.command r))
                (Repeater.did r) now itemId s) as ((_&_&Hp&Hl)&_).
    revert Hp Hl.
    generalize (enqueueSingleCommand (normalized (Repeater.command r))
                  (Repeater.did r) now itemId s).
    intros s' Hp Hl. case_bool_decide; by apply keepsInFlight_same.
  - apply lookupSettled_keepsInFlight. intros ->. by apply (He outcome).
Qed.

Lemma run_keepsInFlight did trace : ∀ s,
  Forall (λ e, ∀ outcome, e.2 ≠ LookupSettled did outcome) trace →
  keepsInFlight did s (run s trace).
Proof.
  induction trace as [|e trace IH]; intros s Htrace; [done|].
  apply Forall_cons in Htrace as [He Htrace].
  etrans; [by apply step_keepsInFlight|]. by apply IH.
Qed.

(** C8.  Let [did] have no valid cache entry and no lookup in flight
    when [hydrateIdentity] is called for it: the call starts one
    lookup.  Whatever the listener does then, as long as that lookup
    has not settled, a second call for [did] starts none: after it
    exactly one lookup for [did] has been started, and it is still
    in flight. *)
Theorem one_lookup_in_flight did now s trace now' :
  cachedIdentityForDid did (Clock.read now 0) s = None →
  did ∉ pendingIdentityLookups s →
  Forall (λ e, ∀ outcome, e.2 ≠ LookupSettled did outcome) trace →
  let s1 := hydrateIdentity did now s in
  let s2 := hydrateIdentity did now' (run s1 trace) in
  lookupsFor did s1 = (lookupsFor did s + 1)%nat ∧
  did ∈ pendingIdentityLookups s1 ∧
  lookupsFor did s2 = (lookupsFor did s + 1)%nat ∧
  did ∈ pendingIdentityLookups s2.
Proof.
  intros Hcache Hpending Htrace s1 s2.
  assert (lookupsFor did s1 = (lookupsFor did s + 1)%nat ∧
          did ∈ pendingIdentityLookups s1) as [H1 Hin1].
  { unfold s1, hydrateIdentity. unfold cachedIdentityForDid in Hcache.
    destruct (identityCache s !! did) as [cached|].
    - destruct (decide (CacheEntry.expiresAt cached ≤ Clock.read now 0))
        as [Hexp|Hexp]; [|by rewrite bool_decide_false in Hcache].
      rewrite (bool_decide_false (_ < _)) by lia.
      rewrite (bool_decide_false _ Hpending). split.
      + change (lookupsFor did (set_pendingIdentityLookups ?p ?s))
          with (lookupsFor did s).
        by rewrite lookupsFor_snoc, decide_True.
      + simpl. set_solver.
    - rewrite (bool_decide_false _ Hpending). split.
      + change (lookupsFor did (set_pendingIdentityLookups ?p ?s))
          with (lookupsFor did s).
        by rewrite lookupsFor_snoc, decide_True.
      + simpl. set_solver. }
  destruct (run_keepsInFlight did trace s1 Htrace Hin1) as [Hin2 H2].
  destruct (hydrateIdentity_keepsInFlight did did now' (run s1 trace) Hin2)
    as [Hin3 H3].
  split_and!; [done|done|unfold s2; congruence|done].
Qed.

(** *** First in, first out *)

(** The call of [dispatchMgbaCommand] for a command text. *)
Definition callOf (command : string) : option (list string * Z) :=
  (λ p, (buttons p, durationMs p)) <$> parse command false.

Definition callsOf (s : State) (refs : list nat) : list (list string * Z) :=
  omap (λ ref, callOf (commandOf s ref)) refs.

(** The queue is a run of items that are no longer [queued], whose
    dispatches are the calls made so far, and then the items that
    are still [queued]. *)
Definition fifo (s : State) : Prop :=
  ∃ served waiting,
    commandQueue s = served ++ waiting ∧
    Forall (λ ref, isQueued (heap s) ref = false) served ∧
    Forall (λ ref, isQueued (heap s) ref = true) waiting ∧
    dispatched s = callsOf s served.

(** When no call of the consumer is suspended, nothing is [queued]. *)
Definition drained (s : State) : Prop :=
  consumer s = Idle → findQueued s = None.

Lemma isQueued_sameWork h h' ref :
  sameWorkHeap h h' → isQueued h' ref = isQueued h ref.
Proof.
  intros H. unfold isQueued. destruct (H ref) as [a b (?&?&?&Hst&?)|]; [|done].
  by rewrite Hst.
Qed.

Lemma commandOf_sameCommands s s' ref :
  sameCommands (heap s) (heap s') → commandOf s' ref = commandOf s ref.
Proof.
  intros H. unfold commandOf. by destruct (H ref) as [a b Hab|].
Qed.

Lemma statusOnly_sameCommands h h' : statusOnlyHeap h h' → sameCommands h h'.
Proof.
  intros H ref. destruct (H ref) as [a b Hab|]; constructor.
  by apply statusOnly_command in Hab as (?&_).
Qed.

Lemma callsOf_sameCommands s s' refs :
  sameCommands (heap s) (heap s') → callsOf s' refs = callsOf s refs.
Proof.
  intros H. unfold callsOf. induction refs as [|r refs IH]; [done|].
  by rewrite !omap_cons, IH, (commandOf_sameCommands s s').
Qed.

Lemma findQueued_ext s s' :
  commandQueue s' = commandQueue s →
  (∀ ref, isQueued (heap s') ref = isQueued (heap s) ref) →
  findQueued s' = findQueued s.
Proof.
  intros Hq Hh. unfold findQueued. rewrite Hq. clear Hq.
  induction (commandQueue s) as [|r l IH]; [done|]. cbn [find].
  by rewrite Hh, IH.
Qed.

Lemma fifo_ext s s' :
  commandQueue s' = commandQueue s → dispatched s' = dispatched s →
  (∀ ref, isQueued (heap s') ref = isQueued (heap s) ref) →
  sameCommands (heap s) (heap s') →
  fifo s → fifo s'.
Proof.
  intros Hq Hd Hh Hc (served & waiting & Hsplit & Hs & Hw & Hcalls).
  exists served, waiting. rewrite Hq, Hd, (callsOf_sameCommands s s') by done.
  split_and!; [done| | |done].
  - eapply Forall_impl; [done|]. simpl. intros r. by rewrite Hh.
  - eapply Forall_impl; [done|]. simpl. intros r. by rewrite Hh.
Qed.

Lemma identityStep_fifo s s' : identityStep s s' → fifo s → fifo s'.
Proof.
  intros ((Hq&_&_&_&_&_&Hd)&Hh&_). apply fifo_ext; [done|done| |].
  - intros ref. by apply isQueued_sameWork.
  - by apply sameWork_sameCommands.
Qed.

Lemma identityStep_drained s s' : identityStep s s' → drained s → drained s'.
Proof.
  intros ((Hq&_&_&_&Hc&_&_)&Hh&_) Hdr Hidle. rewrite Hc in Hidle.
  rewrite <- (Hdr Hidle). apply findQueued_ext; [done|].
  intros ref. by apply isQueued_sameWork.
Qed.

(** The place where the queued items begin is determined. *)
Lemma split_at_first {A} (f : A → bool) (a b a' b' : list A) x :
  a ++ b = a' ++ x :: b' →
  Forall (λ y, f y = false) a → Forall (λ y, f y = true) b →
  Forall (λ y, f y = false) a' → f x = true →
  a = a' ∧ b = x :: b'.
Proof.
  revert a'. induction a as [|y a IH]; intros [|y' a'] Heq Ha Hb Ha' Hx.
  - done.
  - simpl in Heq. subst b. apply Forall_cons in Hb as [Hy _].
    apply Forall_cons in Ha' as [Hy' _]. congruence.
  - simpl in Heq. injection Heq as -> _.
    apply Forall_cons in Ha as [Hy _]. congruence.
  - simpl in Heq. injection Heq as -> Heq.
    apply Forall_cons in Ha as [_ Ha]. apply Forall_cons in Ha' as [_ Ha'].
    by destruct (IH a' Heq Ha Hb Ha' Hx) as [-> ->].
Qed.

Lemma callsOf_app s l1 l2 : callsOf s (l1 ++ l2) = callsOf s l1 ++ callsOf s l2.
Proof. unfold callsOf. apply omap_app. Qed.

Lemma loopReturns_fifo now s : fifo s → fifo (loopReturns now s).
Proof.
  unfold loopReturns. rewrite broadcast_eq.
  apply fifo_ext; [done|done|done|reflexivity].
Qed.

Lemma loopDispatches_fields now next parsed s :
  let s' := loopDispatches now next parsed s in
  commandQueue s' = commandQueue s ∧
  heap s' = alter (QueueItem.withStatus Active) next (heap s) ∧
  dispatched s' = dispatched s ++ [(buttons parsed, durationMs parsed)] ∧
  consumer s' = AwaitDispatch next.
Proof. unfold loopDispatches. cbv zeta. by rewrite broadcast_eq. Qed.

Lemma loopDispatches_fifo now next parsed s :
  NoDup (commandQueue s) → findQueued s = Some next →
  parse (commandOf s next) false = Some parsed →
  fifo s → fifo (loopDispatches now next parsed s).
Proof.
  intros Hnd Hfind Hparse (served & waiting & Hsplit & Hs & Hw & Hcalls).
  apply find_first in Hfind as (older & newer & Hqueue & Hq & Hold).
  rewrite Hsplit in Hqueue.
  destruct (split_at_first _ _ _ _ _ _ Hqueue Hs Hw Hold Hq) as [-> ->].
  rewrite Hsplit in Hnd. apply NoDup_app in Hnd as (_ & Hdisj & Hnd).
  apply NoDup_cons in Hnd as [Hnotin _].
  destruct (loopDispatches_fields now next parsed s) as (Hq' & Hh' & Hd' & _).
  set (s' := loopDispatches now next parsed s) in *.
  assert (∀ r, isQueued (heap s') r =
               if decide (r = next) then false else isQueued (heap s) r) as Hst.
  { intros r. rewrite Hh'.
    pose proof (isQueued_setStatus s next Active r) as Hst.
    simpl in Hst. rewrite Hst. case_decide; [|done]. by rewrite andb_false_r. }
  assert (sameCommands (heap s) (heap s')) as Hsame.
  { rewrite Hh'. apply sameCommands_alter_status. }
  exists (older ++ [next]), newer. split_and!.
  - by rewrite Hq', Hsplit, <- app_assoc.
  - apply Forall_app. split.
    + apply Forall_forall. intros r Hr. rewrite Hst, decide_False.
      * by apply (proj1 (Forall_forall _ _) Hs).
      * intros ->. by apply (Hdisj next Hr), elem_of_cons; left.
    + constructor; [|done]. by rewrite Hst, decide_True.
  - apply Forall_forall. intros r Hr. rewrite Hst, decide_False.
    + apply Forall_cons in Hw as [_ Hw].
      by apply (proj1 (Forall_forall _ _) Hw).
    + by intros ->.
  - rewrite Hd', (callsOf_sameCommands s s') by done.
    rewrite callsOf_app, <- Hcalls. f_equal.
    unfold callsOf, callOf. simpl. by rewrite Hparse.
Qed.

Lemma consumerLoop_fifo now s :
  Core None s → fifo s → fifo (consumerLoop now s).
Proof.
  intros HC Hfifo. rewrite consumerLoop_unfold.
  destruct (findQueued s) as [next|] eqn:Hfind; [|by apply loopReturns_fifo].
  destruct (findQueued_lookup _ _ Hfind) as (_ & item & Hitem & _).
  destruct (core_parse _ _ HC _ _ Hitem) as [p Hp].
  assert (parse (commandOf s next) false = Some p) as Hparse.
  { unfold commandOf. by rewrite Hitem. }
  rewrite Hparse. apply loopDispatches_fifo; [|done..].
  by eapply Core_queue_nodup.
Qed.

Lemma consumerLoop_drained now s : drained (consumerLoop now s).
Proof.
  apply (consumerLoop_rule (λ _, True)); [done| | |done].
  - intros time s' _ Hfind _. rewrite <- Hfind. unfold loopReturns.
    rewrite broadcast_eq. by apply findQueued_ext.
  - intros time s' next parsed _ _ _.
    destruct (loopDispatches_fields time next parsed s') as (_&_&_&Hc).
    intros Hidle. congruence.
Qed.

Lemma processQueue_fifo now s : Inv s → fifo s → fifo (processQueue now s).
Proof.
  intros [HC Hf _ _] Hfifo. unfold Listener.processQueue.
  destruct (processingQueue s) eqn:Hp; [done|].
  assert (consumer s = Idle) as Hidle.
  { destruct (consumer s) eqn:Hc; [done|..];
      by (assert (false = true) by by apply Hf). }
  rewrite Hidle in HC. apply consumerLoop_fifo.
  - by eapply Core_frame.
  - revert Hfifo. apply fifo_ext; [done|done|done|reflexivity].
Qed.

Lemma processQueue_drained now s : Inv s → drained (processQueue now s).
Proof.
  intros [_ Hf _ _]. unfold Listener.processQueue.
  destruct (processingQueue s) eqn:Hp; [|apply consumerLoop_drained].
  intros Hidle. destruct Hf as [Hf _]. by apply Hf in Hidle.
Qed.

Lemma dispatchSettled_fifo ok now s :
  Inv s → fifo s → fifo (dispatchSettled ok now s).
Proof.
  intros [_ _ Ha _]. unfold dispatchSettled.
  destruct (consumer s) as [|next|] eqn:Hc; [done| |done].
  destruct (Ha _ Hc) as (item & Hitem & Hact).
  rewrite broadcast_eq. apply fifo_ext; [done|done| |].
  - intros r. simpl.
    pose proof (isQueued_setStatus s next (if ok then Done else Error) r) as Hst.
    simpl in Hst. rewrite Hst. case_decide as Hr; [|done]. subst r.
    unfold isQueued. rewrite Hitem. unfold isActive in Hact.
    rewrite Hact. by destruct ok.
  - apply sameCommands_alter_status.
Qed.

Lemma dispatchSettled_drained ok now s :
  drained s → drained (dispatchSettled ok now s).
Proof.
  unfold dispatchSettled. by destruct (consumer s) as [|next|] eqn:Hc.
Qed.

Lemma queueDelayElapsed_fifo now s :
  Inv s → fifo s → fifo (queueDelayElapsed now s).
Proof.
  intros [HC _ _ _] Hfifo. unfold Listener.queueDelayElapsed.
  destruct (consumer s) eqn:Hc; [done|done|].
  apply consumerLoop_fifo; [exact HC|done].
Qed.

Lemma queueDelayElapsed_drained now s :
  drained s → drained (queueDelayElapsed now s).
Proof.
  unfold Listener.queueDelayElapsed.
  destruct (consumer s) eqn:Hc; [done|done|]. intros _.
  apply consumerLoop_drained.
Qed.

Lemma pushItem_fields item s :
  let ref := fresh (dom (heap s)) in
  let s' := pushItem item s in
  arrivals s' = arrivals s ++ [ref] ∧
  heap s' = <[ref := item]> (heap s) ∧
  dispatched s' = dispatched s ∧ consumer s' = consumer s ∧
  repeaters s' = repeaters s ∧
  commandQueue s' =
    drop (length (commandQueue s ++ [ref]) - MAX_QUEUE_ITEMS)
      (commandQueue s ++ [ref]).
Proof. unfold pushItem. cbv zeta. by rewrite trimQueue_eq. Qed.

Lemma newest_room arrived :
  (length arrived ≤ MAX_QUEUE_ITEMS)%nat → newest arrived = arrived.
Proof.
  intros H. unfold newest.
  replace (length arrived - MAX_QUEUE_ITEMS)%nat with 0%nat by lia.
  apply drop_0.
Qed.

Lemma old_ref_not_fresh owner s r :
  Core owner s → r ∈ arrivals s → r ≠ fresh (dom (heap s)).
Proof.
  intros HC Hr ->. apply (core_alloc _ _ HC) in Hr as [? Hr].
  by rewrite fresh_ref_new in Hr.
Qed.

Lemma isQueued_insert_ne (h : gmap nat QueueItem.t) ref item r :
  r ≠ ref → isQueued (<[ref := item]> h) r = isQueued h r.
Proof. intros Hne. unfold isQueued. by rewrite lookup_insert_ne. Qed.

Lemma callsOf_lookup s s' refs :
  (∀ r, r ∈ refs → heap s' !! r = heap s !! r) →
  callsOf s' refs = callsOf s refs.
Proof.
  unfold callsOf. induction refs as [|r refs IH]; intros H; [done|].
  rewrite !omap_cons, IH by (intros; apply H; by right).
  unfold commandOf. rewrite H by by left. done.
Qed.

(** Pushing when there is room leaves the run of waiting items one
    longer. *)
Lemma pushItem_fifo item s :
  Inv s → (length (arrivals s) < MAX_QUEUE_ITEMS)%nat →
  QueueItem.status item = Queued →
  fifo s → fifo (pushItem item s).
Proof.
  intros [HC _ _ _] Hroom Hst (served & waiting & Hsplit & Hs & Hw & Hcalls).
  destruct (pushItem_fields item s) as (Ha' & Hh' & Hd' & _ & _ & Hq').
  pose proof (core_queue _ _ HC) as Hq.
  rewrite newest_room in Hq by lia.
  assert (commandQueue (pushItem item s) = commandQueue s ++ [fresh (dom (heap s))])
    as Hq''.
  { rewrite Hq'. rewrite length_app, Hq. simpl.
    replace (length (arrivals s) + 1 - MAX_QUEUE_ITEMS)%nat with 0%nat by lia.
    apply drop_0. }
  assert (∀ r, r ∈ commandQueue s →
               heap (pushItem item s) !! r = heap s !! r) as Hold.
  { intros r Hr. rewrite Hh', lookup_insert_ne; [done|].
    intros <-. rewrite Hq in Hr. by eapply old_ref_not_fresh. }
  exists served, (waiting ++ [fresh (dom (heap s))]). split_and!.
  - by rewrite Hq'', Hsplit, <- app_assoc.
  - apply Forall_forall. intros r Hr. unfold isQueued. rewrite Hold.
    + by apply (proj1 (Forall_forall _ _) Hs).
    + rewrite Hsplit. apply elem_of_app. by left.
  - apply Forall_app. split.
    + apply Forall_forall. intros r Hr. unfold isQueued. rewrite Hold.
      * by apply (proj1 (Forall_forall _ _) Hw).
      * rewrite Hsplit. apply elem_of_app. by right.
    + constructor; [|done]. unfold isQueued.
      rewrite Hh', lookup_insert_eq. by apply bool_decide_eq_true.
  - rewrite Hd', Hcalls. symmetry. apply callsOf_lookup.
    intros r Hr. apply Hold. rewrite Hsplit. apply elem_of_app. by left.
Qed.

Lemma enqueueSingleCommand_fifo command did now id s :
  Inv s → is_Some (parse command false) →
  (length (arrivals s) < MAX_QUEUE_ITEMS)%nat →
  fifo s → fifo (enqueueSingleCommand command did now id s).
Proof.
  intros H Hparse Hroom Hfifo. rewrite enqueueSingleCommand_eq.
  apply processQueue_fifo.
  - eapply Inv_identityStep; [|apply broadcast_identityStep].
    by apply pushItem_Inv.
  - eapply identityStep_fifo; [apply broadcast_identityStep|].
    by apply pushItem_fifo.
Qed.

Lemma enqueueSingleCommand_drained command did now id s :
  Inv s → is_Some (parse command false) →
  drained (enqueueSingleCommand command did now id s).
Proof.
  intros H Hparse. rewrite enqueueSingleCommand_eq.
  apply processQueue_drained.
  eapply Inv_identityStep; [|apply broadcast_identityStep].
  by apply pushItem_Inv.
Qed.

Lemma enqueueSingleCommand_commands command did now id s :
  Inv s →
  let s' := enqueueSingleCommand command did now id s in
  (∀ r, r ∈ arrivals s → commandOf s' r = commandOf s r) ∧
  commandOf s' (fresh (dom (heap s))) = command.
Proof.
  intros [HC _ _ _]. cbv zeta. rewrite enqueueSingleCommand_eq.
  set (item := buildQueueItem command did (Clock.sub now 0) id s).
  destruct (processQueue_consumerStep (Clock.sub now 2)
              (broadcast (Clock.read now 1) (pushItem item s)))
    as (_ & _ & _ & _ & Hh).
  apply statusOnly_sameCommands in Hh.
  destruct (pushItem_fields item s) as (_ & Hh' & _).
  split.
  - intros r Hr. rewrite (commandOf_sameCommands _ _ _ Hh).
    unfold commandOf. rewrite broadcast_heap, Hh', lookup_insert_ne; [done|].
    intros <-. by eapply old_ref_not_fresh.
  - rewrite (commandOf_sameCommands _ _ _ Hh).
    unfold commandOf. by rewrite broadcast_heap, Hh', lookup_insert_eq.
Qed.

(** *** Repeats *)

(** The commands a suspended repeat loop will still enqueue. *)
Definition owedBy (r : Repeater.t) : list string :=
  replicate (Z.to_nat (repeatCount (Repeater.command r) - Repeater.i r))
    (normalized (Repeater.command r)).

Definition owed (s : State) : list string := repeaters s ≫= owedBy.

(** The commands that have arrived, oldest first. *)
Definition arrived (s : State) : list string := commandOf s <$> arrivals s.

(** With at most one repeat loop suspended, the order of all
    arrivals to come is known: [plan]. *)
Record Planned (plan : list string) (s : State) : Prop := mkPlanned {
  planned_inv : Inv s;
  planned_fifo : fifo s;
  planned_drained : drained s;
  planned_one : (length (repeaters s) ≤ 1)%nat;
  planned_index :
    Forall (λ r, Repeater.i r < repeatCount (Repeater.command r)) (repeaters s);
  planned_plan : arrived s ++ owed s = plan
}.

Lemma arrived_ext s s' :
  arrivals s' = arrivals s → sameCommands (heap s) (heap s') →
  arrived s' = arrived s.
Proof.
  intros Ha Hh. unfold arrived. rewrite Ha. apply list_fmap_ext.
  intros _ r _. by apply commandOf_sameCommands.
Qed.

Lemma Planned_identityStep plan s s' :
  identityStep s s' → Planned plan s → Planned plan s'.
Proof.
  intros Hstep [H1 H2 H3 H4 H5 H6].
  pose proof Hstep as ((_&Ha&_&_&_&Hr&_)&Hh&_). split.
  - by eapply Inv_identityStep.
  - by eapply identityStep_fifo.
  - by eapply identityStep_drained.
  - by rewrite Hr.
  - by rewrite Hr.
  - unfold owed. rewrite Hr, (arrived_ext s s'); [done|done|].
    by apply sameWork_sameCommands.
Qed.

Lemma Planned_consumerStep plan s s' :
  consumerStep s s' → Inv s' → fifo s' → drained s' →
  Planned plan s → Planned plan s'.
Proof.
  intros (_ & Hr & Ha & _ & Hh) HI Hf Hd [_ _ _ H4 H5 H6].
  split; [done|done|done|by rewrite Hr|by rewrite Hr|].
  unfold owed. rewrite Hr, (arrived_ext s s'); [done|done|].
  by apply statusOnly_sameCommands.
Qed.

Lemma Planned_set_repeaters plan rs s :
  Inv s → fifo s → drained s →
  Forall (λ r, is_Some (parse (normalized (Repeater.command r)) false)) rs →
  Forall (λ r, Repeater.i r < repeatCount (Repeater.command r)) rs →
  (length rs ≤ 1)%nat →
  arrived s ++ (rs ≫= owedBy) = plan →
  Planned plan (set_repeaters rs s).
Proof.
  intros HI Hf Hd Hok Hi Hlen Hplan. split.
  - by apply Inv_set_repeaters.
  - revert Hf. apply fifo_ext; [done|done|done|reflexivity].
  - done.
  - done.
  - done.
  - by rewrite <- Hplan.
Qed.

Lemma Planned_repeatDelayElapsed plan k now id s :
  (length plan ≤ MAX_QUEUE_ITEMS)%nat →
  Planned plan s → Planned plan (repeatDelayElapsed k now id s).
Proof.
  intros Hlen HP. pose proof HP as [HI Hf Hd H1 Hi Hplan].
  unfold Listener.repeatDelayElapsed.
  destruct (repeaters s) as [|r [|r' rs]] eqn:Hrs;
    [by destruct k| |simpl in H1; lia].
  destruct k as [|k]; [|done]. cbn [lookup list_lookup].
  apply Forall_cons in Hi as [Hi _].
  set (command := Repeater.command r) in *.
  assert (is_Some (parse (normalized command) false)) as Hparse.
  { pose proof (inv_repeaters _ HI) as Hr. unfold repeatersOk in Hr.
    rewrite Hrs in Hr. by apply Forall_cons in Hr as [? _]. }
  assert (owed s = normalized command ::
            replicate (Z.to_nat (repeatCount command - (Repeater.i r + 1)))
              (normalized command)) as Howed.
  { unfold owed. rewrite Hrs. simpl. rewrite app_nil_r. unfold owedBy.
    fold command.
    replace (Z.to_nat (repeatCount command - Repeater.i r))
      with (S (Z.to_nat (repeatCount command - (Repeater.i r + 1)))) by lia.
    done. }
  assert (length (arrivals s) < MAX_QUEUE_ITEMS)%nat as Hroom.
  { apply (f_equal length) in Hplan. rewrite length_app, Howed in Hplan.
    unfold arrived in Hplan. rewrite length_fmap in Hplan. simpl in Hplan. lia. }
  pose proof (enqueueSingleCommand_Inv (normalized command) (Repeater.did r)
                now id s HI Hparse) as HI'.
  pose proof (enqueueSingleCommand_fifo (normalized command) (Repeater.did r)
                now id s HI Hparse Hroom Hf) as Hf'.
  pose proof (enqueueSingleCommand_drained (normalized command) (Repeater.did r)
                now id s HI Hparse) as Hd'.
  destruct (enqueueSingleCommand_frame (normalized command) (Repeater.did r) now id s)
    as (_ & Hr' & Ha').
  destruct (enqueueSingleCommand_commands (normalized command) (Repeater.did r) now id s HI)
    as (Hold & Hnew).
  revert HI' Hf' Hd' Hr' Ha' Hold Hnew.
  generalize (enqueueSingleCommand (normalized command) (Repeater.did r) now id s).
  intros s' HI' Hf' Hd' Hr' Ha' Hold Hnew.
  assert (arrived s' = arrived s ++ [normalized command]) as Harr.
  { unfold arrived. rewrite Ha', fmap_app. simpl. rewrite Hnew. f_equal.
    apply list_fmap_ext. intros ? x Hx. apply Hold.
    by eapply list_elem_of_lookup_2. }
  rewrite Hr', Hrs. cbn [insert list_insert delete list_delete].
  case_bool_decide as Hmore;
    (apply Planned_set_repeaters;
       [done|done|done|by repeat constructor|by repeat constructor
       |simpl; lia|]).
  - rewrite Harr, <- app_assoc, <- Hplan, Howed. f_equal.
    simpl. by rewrite app_nil_r.
  - rewrite Harr, <- Hplan, Howed. simpl.
    replace (Z.to_nat (repeatCount command - (Repeater.i r + 1))) with 0%nat by lia.
    by rewrite app_nil_r.
Qed.

(** The events after the last chat record. *)
Definition laterEvent (e : Clock.t * Event) : Prop :=
  match e.2 with ChatRecord _ _ _ _ _ _ _ _ => False | _ => True end.

Lemma Planned_step plan s e :
  (length plan ≤ MAX_QUEUE_ITEMS)%nat → laterEvent e →
  Planned plan s → Planned plan (step s e).
Proof.
  intros Hlen He HP. pose proof HP as [HI Hf Hd _ _ _].
  destruct e as [now e]. destruct e; unfold Listener.step; cbv beta iota.
  - done.
  - rewrite sseStream_eq. eapply Planned_identityStep; [|done].
    apply broadcast_identityStep.
  - eapply Planned_consumerStep; [apply dispatchSettled_consumerStep| | | |done].
    + by apply dispatchSettled_Inv.
    + by apply dispatchSettled_fifo.
    + by apply dispatchSettled_drained.
  - eapply Planned_consumerStep; [apply queueDelayElapsed_consumerStep| | | |done].
    + by apply queueDelayElapsed_Inv.
    + by apply queueDelayElapsed_fifo.
    + by apply queueDelayElapsed_drained.
  - by apply Planned_repeatDelayElapsed.
  - eapply Planned_identityStep; [|done]. apply lookupSettled_identityStep.
Qed.

Lemma Planned_run plan trace : ∀ s,
  (length plan ≤ MAX_QUEUE_ITEMS)%nat → Forall laterEvent trace →
  Planned plan s → Planned plan (run s trace).
Proof.
  induction trace as [|e trace IH]; intros s Hlen Htrace HP; [done|].
  apply Forall_cons in Htrace as [He Htrace].
  apply IH; [done..|]. by apply Planned_step.
Qed.

(** *** Dispatch follows arrival *)

Lemma chatRecord_cases did text user handle displayName avatarUrl
    now messageId itemId s :
  ∃ s4, identityStep s s4 ∧
        (chatRecord did text user handle displayName avatarUrl
           now messageId itemId s = s4 ∨
         ∃ raw allow p,
           parse raw allow = Some p ∧
           chatRecord did text user handle displayName avatarUrl
             now messageId itemId s =
             enqueueCommand p did (Clock.sub now 4) itemId s4).
Proof.
  unfold Listener.chatRecord.
  destruct (recordChatterAndCountUnique did _ (chatterActivity s))
    as [uniqueChatters activity].
  set (allow := bool_decide (uniqueChatters < MIN_UNIQUE_CHATTERS_FOR_NO_SPAM)).
  match goal with
  | |- ∃ _, _ ∧ (match _ with Some _ => _ | None => ?s4 end = _ ∨ _) =>
      exists s4
  end.
  split.
  - etrans; [|apply hydrateIdentity_identityStep].
    etrans; [by apply (frame_identityStep s (set_chatterActivity activity s))|].
    etrans; [apply pushChatMessage_identityStep|].
    destruct (localIdentityFromRecord _ _ _ _); [|done].
    apply cacheLocalIdentity_identityStep.
  - destruct (parse text allow) as [p|] eqn:Hp; [|by left].
    right. by exists text, allow, p.
Qed.

Lemma enqueueCommand_fifo command did now id s :
  Inv s → is_Some (parse (normalized command) false) →
  (length (arrivals s) < MAX_QUEUE_ITEMS)%nat →
  fifo s → fifo (enqueueCommand command did now id s).
Proof.
  intros HI Hparse Hroom Hf. unfold Listener.enqueueCommand.
  pose proof (enqueueSingleCommand_fifo (normalized command) did now id s
                HI Hparse Hroom Hf) as Hf'.
  revert Hf'.
  generalize (enqueueSingleCommand (normalized command) did now id s).
  intros s'. case_bool_decide; [done|].
  apply fifo_ext; [done|done|done|reflexivity].
Qed.

Lemma enqueueCommand_arrivals command did now id s :
  arrivals (enqueueCommand command did now id s) =
    arrivals s ++ [fresh (dom (heap s))].
Proof.
  unfold Listener.enqueueCommand.
  destruct (enqueueSingleCommand_frame (normalized command) did now id s)
    as (_ & _ & Ha).
  revert Ha.
  generalize (enqueueSingleCommand (normalized command) did now id s).
  intros s' Ha. by case_bool_decide.
Qed.

Lemma repeatDelayElapsed_arrivals k now id s :
  arrivals (repeatDelayElapsed k now id s) =
    arrivals s ++
      (if repeaters s !! k is Some _ then [fresh (dom (heap s))] else []).
Proof.
  unfold Listener.repeatDelayElapsed.
  destruct (repeaters s !! k) as [r|]; [|by rewrite app_nil_r].
  destruct (enqueueSingleCommand_frame (normalized (Repeater.command r))
              (Repeater.did r) now id s) as (_ & _ & Ha).
  revert Ha.
  generalize (enqueueSingleCommand (normalized (Repeater.command r))
                (Repeater.did r) now id s).
  intros s' Ha. by case_bool_decide.
Qed.

Lemma step_fifo s e :
  Inv s → (length (arrivals (step s e)) ≤ MAX_QUEUE_ITEMS)%nat →
  fifo s → fifo (step s e).
Proof.
  intros HI. destruct e as [now e].
  destruct e; unfold Listener.step; cbv beta iota; intros Hlen Hf.
  - destruct (chatRecord_cases did text user handle displayName avatarUrl
                now messageId itemId s)
      as (s4 & Hstep & [Heq|(raw & allow & p & Hp & Heq)]);
      rewrite Heq in *; [by eapply identityStep_fifo|].
    rewrite enqueueCommand_arrivals, length_app in Hlen. simpl in Hlen.
    apply enqueueCommand_fifo.
    + by eapply Inv_identityStep.
    + rewrite (reparse_normalized K L _ _ _ Hp). by eexists.
    + lia.
    + by eapply identityStep_fifo.
  - eapply identityStep_fifo; [apply broadcast_identityStep|done].
  - by apply dispatchSettled_fifo.
  - by apply queueDelayElapsed_fifo.
  - rewrite repeatDelayElapsed_arrivals in Hlen.
    unfold Listener.repeatDelayElapsed.
    destruct (repeaters s !! k) as [r|] eqn:Hk; [|done].
    rewrite length_app in Hlen. simpl in Hlen.
    assert (is_Some (parse (normalized (Repeater.command r)) false)) as Hparse.
    { eapply (proj1 (Forall_forall _ _) (inv_repeaters _ HI)).
      by eapply list_elem_of_lookup_2. }
    pose proof (enqueueSingleCommand_fifo (normalized (Repeater.command r))
                  (Repeater.did r) now itemId s HI Hparse ltac:(lia) Hf) as Hf'.
    revert Hf'.
    generalize (enqueueSingleCommand (normalized (Repeater.command r))
                  (Repeater.did r) now itemId s).
    intros s'. case_bool_decide;
      apply fifo_ext; [done|done|done|reflexivity|done|done|done|reflexivity].
  - eapply identityStep_fifo; [apply lookupSettled_identityStep|done].
Qed.

Lemma step_arrivals s e : arrivals s `prefix_of` arrivals (step s e).
Proof.
  destruct e as [now e]. destruct e; unfold Listener.step; cbv beta iota.
  - destruct (chatRecord_cases did text user handle displayName avatarUrl
                now messageId itemId s)
      as (s4 & ((_&Ha&_)&_) & [Heq|(raw & allow & p & Hp & Heq)]);
      rewrite Heq.
    + by rewrite Ha.
    + rewrite enqueueCommand_arrivals, Ha. by apply prefix_app_r.
  - by rewrite sseStream_eq, broadcast_eq.
  - destruct (dispatchSettled_consumerStep ok (Clock.read now 0) s)
      as (_&_&->&_). done.
  - destruct (queueDelayElapsed_consumerStep now s) as (_&_&->&_). done.
  - rewrite repeatDelayElapsed_arrivals. by apply prefix_app_r.
  - destruct (lookupSettled_identityStep did outcome now s) as ((_&->&_)&_).
    done.
Qed.

Lemma run_arrivals trace : ∀ s, arrivals s `prefix_of` arrivals (run s trace).
Proof.
  induction trace as [|e trace IH]; intros s; [done|].
  etrans; [apply (step_arrivals s e)|apply IH].
Qed.

Lemma run_fifo trace : ∀ s,
  Inv s → (length (arrivals (run s trace)) ≤ MAX_QUEUE_ITEMS)%nat →
  fifo s → fifo (run s trace).
Proof.
  induction trace as [|e trace IH]; intros s HI Hlen Hf; [done|].
  apply IH; [by apply step_Inv|done|].
  apply step_fifo; [done| |done].
  pose proof (prefix_length _ _ (run_arrivals trace (step s e))).
  simpl in Hlen. unfold Listener.run in *. lia.
Qed.

Lemma fifo_initial : fifo initial.
Proof. exists [], []. by split_and!. Qed.

Lemma omap_prefix {A B} (f : A → option B) (l1 l2 : list A) :
  l1 `prefix_of` l2 → omap f l1 `prefix_of` omap f l2.
Proof. intros [k ->]. rewrite omap_app. by apply prefix_app_r. Qed.

Lemma callsOf_arrived s refs :
  callsOf s refs = omap callOf (commandOf s <$> refs).
Proof.
  unfold callsOf. induction refs as [|r refs IH]; [done|].
  rewrite fmap_cons, !omap_cons, IH. done.
Qed.

(** In a state with room in the queue, the calls made are a prefix
    of the calls for the arrivals, in their order. *)
Lemma fifo_dispatched s :
  Inv s → (length (arrivals s) ≤ MAX_QUEUE_ITEMS)%nat → fifo s →
  dispatched s `prefix_of` omap callOf (arrived s).
Proof.
  intros [HC _ _ _] Hlen (served & waiting & Hsplit & _ & _ & Hcalls).
  rewrite Hcalls, callsOf_arrived. apply omap_prefix.
  rewrite (core_queue _ _ HC), newest_room in Hsplit by done.
  unfold arrived. rewrite Hsplit, fmap_app. by apply prefix_app_r.
Qed.

Lemma fifo_drained_dispatched s :
  Inv s → (length (arrivals s) ≤ MAX_QUEUE_ITEMS)%nat → fifo s →
  drained s → consumer s = Idle →
  dispatched s = omap callOf (arrived s).
Proof.
  intros [HC _ _ _] Hlen (served & waiting & Hsplit & _ & Hw & Hcalls)
    Hdr Hidle.
  specialize (Hdr Hidle).
  destruct waiting as [|r waiting].
  - rewrite app_nil_r in Hsplit.
    rewrite (core_queue _ _ HC), newest_room in Hsplit by done.
    unfold arrived. by rewrite Hcalls, callsOf_arrived, Hsplit.
  - apply Forall_cons in Hw as [Hr _].
    assert (is_Some (findQueued s)) as [? Hsome]; [|congruence].
    eapply find_some_elem; [|done]. rewrite Hsplit.
    apply elem_of_app. right. by left.
Qed.


(** *** The scenario of the specification *)

Definition scenario : list (Clock.t * Event) :=
  [(Clock.const 0,
    ChatRecord "did:plc:alice" "left" "alice" None None None "m1" "q1");
   (Clock.const 1,
    ChatRecord "did:plc:bob" "a x3" "bob" None None None "m2" "q2");
   (Clock.const 2,
    ChatRecord "did:plc:carol" "b" "carol" None None None "m3" "q3")].

Definition scenarioPlan : list string := ["left"; "a"; "b"; "a"; "a"].

Definition scenarioCalls : list (list string * Z) :=
  [(["left"], K); (["a"], K); (["b"], K); (["a"], K); (["a"], K)].

(** One way for the timers and the dispatches to go on. *)
Definition scenarioRest : list (Clock.t * Event) :=
  [(Clock.const 10, DispatchSettled true);
   (Clock.const 90, QueueDelayElapsed);
   (Clock.const 141, RepeatDelayElapsed 0 "q4");
   (Clock.const 150, DispatchSettled true);
   (Clock.const 230, QueueDelayElapsed);
   (Clock.const 240, DispatchSettled true);
   (Clock.const 281, RepeatDelayElapsed 0 "q5");
   (Clock.const 320, QueueDelayElapsed);
   (Clock.const 330, DispatchSettled true);
   (Clock.const 410, QueueDelayElapsed);
   (Clock.const 420, DispatchSettled true);
   (Clock.const 500, QueueDelayElapsed)].

Lemma scenario_state :
  let s := run initial scenario in
  commandQueue s = [0; 1; 2]%nat ∧ arrivals s = [0; 1; 2]%nat ∧
  commandOf s <$> [0; 1; 2]%nat = ["left"; "a"; "b"] ∧
  isQueued (heap s) <$> [0; 1; 2]%nat = [false; true; true] ∧
  consumer s = AwaitDispatch 0 ∧
  dispatched s = [(["left"], K)] ∧
  repeaters s =
    [Repeater.mk (mkParsed ["a"] K "a" 3) "did:plc:bob" 1].
Proof. vm_compute. repeat split. Qed.

Lemma scenarioCalls_plan : omap callOf scenarioPlan = scenarioCalls.
Proof. vm_compute. reflexivity. Qed.

Lemma scenario_Planned : Planned scenarioPlan (run initial scenario).
Proof.
  pose proof scenario_state as Hstate.
  pose proof (reachable_Inv scenario) as HI.
  cbv zeta in Hstate. revert Hstate HI.
  generalize (run initial scenario). intros s.
  intros (Hq & Ha & Hc & Hst & Hcons & Hd & Hr) HI.
  injection Hc as Hc0 Hc1 Hc2. injection Hst as Hs0 Hs1 Hs2.
  split.
  - done.
  - exists [0%nat], [1; 2]%nat. split_and!; [done|by repeat constructor..|].
    rewrite Hd. unfold callsOf. rewrite omap_cons, Hc0.
    by vm_compute.
  - intros Hidle. congruence.
  - rewrite Hr. simpl. lia.
  - rewrite Hr. by repeat constructor.
  - unfold arrived, owed. rewrite Ha, Hr.
    rewrite !fmap_cons, Hc0, Hc1, Hc2. done.
Qed.

Lemma last_newest_snoc arrived ref :
  last (newest (arrived ++ [ref])) = Some ref.
Proof.
  unfold newest. rewrite drop_app_le.
  - apply last_snoc.
  - rewrite length_app. simpl. unfold MAX_QUEUE_ITEMS. lia.
Qed.

Lemma scenarioRest_state :
  let s := run (run initial scenario) scenarioRest in
  consumer s = Idle ∧ repeaters s = [] ∧ dispatched s = scenarioCalls.
Proof. vm_compute. repeat split. Qed.

(** C9.  [enqueueCommand] appends one item for the command at once
    and, when the repeat count is above 1, suspends one repeat loop
    at index 1.  Each time the delay of a suspended loop is over it
    appends one more item for the command at the tail of the queue,
    behind everything that arrived in the meantime, and it ends
    after the index [repeatCount - 1]: N - 1 later items in all.
    While the queue has room, the commands are dispatched in the
    order in which their items arrived.  After the chat records
    ["left"], ["a x3"] (repeats allowed) and ["b"], whatever the
    timers and the dispatches do, the calls made are a beginning of
    left, a, b, a, a, and all of it once no loop and no call of the
    consumer is suspended; one such run is [scenarioRest]. *)
Theorem repeats_arrive_later :
  (∀ trace command did now id,
     let s := run initial trace in
     let s' := enqueueCommand command did now id s in
     ∃ ref,
       arrivals s' = arrivals s ++ [ref] ∧
       commandOf s' ref = normalized command ∧
       repeaters s' =
         if bool_decide (repeatCount command ≤ 1) then repeaters s
         else repeaters s ++ [Repeater.mk command did 1]) ∧
  (∀ trace k r now id,
     let s := run initial trace in
     let s' := repeatDelayElapsed k now id s in
     repeaters s !! k = Some r →
     ∃ ref,
       arrivals s' = arrivals s ++ [ref] ∧
       last (commandQueue s') = Some ref ∧
       commandOf s' ref = normalized (Repeater.command r) ∧
       repeaters s' =
         if bool_decide (Repeater.i r + 1 < repeatCount (Repeater.command r))
         then <[k := Repeater.mk (Repeater.command r) (Repeater.did r)
                       (Repeater.i r + 1)]> (repeaters s)
         else delete k (repeaters s)) ∧
  (∀ trace,
     let s := run initial trace in
     (length (arrivals s) ≤ MAX_QUEUE_ITEMS)%nat →
     dispatched s `prefix_of` omap callOf (arrived s)) ∧
  (∀ trace,
     Forall laterEvent trace →
     let s := run (run initial scenario) trace in
     dispatched s `prefix_of` scenarioCalls ∧
     (consumer s = Idle → repeaters s = [] → dispatched s = scenarioCalls)) ∧
  (Forall laterEvent scenarioRest ∧
   let s := run (run initial scenario) scenarioRest in
   consumer s = Idle ∧ repeaters s = [] ∧ dispatched s = scenarioCalls).
Proof.
  split_and!.
  - intros trace command did now id s s'.
    pose proof (reachable_Inv trace) as HI. fold s in HI.
    exists (fresh (dom (heap s))). unfold s', Listener.enqueueCommand.
    destruct (enqueueSingleCommand_frame (normalized command) did now id s)
      as (_ & Hr & Ha).
    destruct (enqueueSingleCommand_commands (normalized command) did now id s HI)
      as (_ & Hnew).
    revert Hr Ha Hnew.
    generalize (enqueueSingleCommand (normalized command) did now id s).
    intros s1 Hr Ha Hnew. case_bool_decide; split_and!; try done.
    simpl. by rewrite Hr.
  - intros trace k r now id s s' Hk.
    pose proof (reachable_Inv trace) as HI. fold s in HI.
    assert (is_Some (parse (normalized (Repeater.command r)) false)) as Hparse.
    { eapply (proj1 (Forall_forall _ _) (inv_repeaters _ HI)).
      by eapply list_elem_of_lookup_2. }
    exists (fresh (dom (heap s))). unfold s', Listener.repeatDelayElapsed.
    rewrite Hk.
    pose proof (enqueueSingleCommand_Inv (normalized (Repeater.command r))
                  (Repeater.did r) now id s HI Hparse) as HI'.
    destruct (enqueueSingleCommand_frame (normalized (Repeater.command r))
                (Repeater.did r) now id s) as (_ & Hr & Ha).
    destruct (enqueueSingleCommand_commands (normalized (Repeater.command r))
                (Repeater.did r) now id s HI) as (_ & Hnew).
    revert HI' Hr Ha Hnew.
    generalize (enqueueSingleCommand (normalized (Repeater.command r))
                  (Repeater.did r) now id s).
    intros s1 HI' Hr Ha Hnew.
    assert (last (commandQueue s1) = Some (fresh (dom (heap s)))) as Hlast.
    { rewrite (core_queue _ _ (inv_core _ HI')), Ha.
      apply last_newest_snoc. }
    case_bool_decide; split_and!; try done; simpl; by rewrite Hr.
  - intros trace s Hlen. apply fifo_dispatched; [apply reachable_Inv|done|].
    apply run_fifo; [apply Inv_initial|done|apply fifo_initial].
  - intros trace Htrace s.
    assert (Planned scenarioPlan s) as [HI Hf Hd _ _ Hplan].
    { apply Planned_run; [|done|apply scenario_Planned].
      unfold scenarioPlan, MAX_QUEUE_ITEMS. simpl. lia. }
    assert (length (arrivals s) ≤ MAX_QUEUE_ITEMS)%nat as Hlen.
    { apply (f_equal length) in Hplan. rewrite length_app in Hplan.
      unfold arrived in Hplan. rewrite length_fmap in Hplan.
      simpl in Hplan. unfold MAX_QUEUE_ITEMS. lia. }
    rewrite <- scenarioCalls_plan, <- Hplan. clearbody s. split.
    + trans (omap callOf (arrived s)); [by apply fifo_dispatched|].
      apply omap_prefix. by apply prefix_app_r.
    + intros Hidle Hr. unfold owed. rewrite Hr. simpl. rewrite app_nil_r.
      by apply fifo_drained_dispatched.
  - by repeat constructor.
  - apply scenarioRest_state.
Qed.

End WithDurations.

(** The sentence of the specification, that the activity sequence is
    the same before and after the snapshot, fails in a state the
    listener reaches: after one chat message at time 0, a snapshot
    built more than ten minutes later (here for an overlay client
    that connects) leaves the sequence empty. *)
Lemma snapshot_mutates_tracker_counterexample :
  let s :=
    run 80 240 initial
      [(Clock.const 0,
        ChatRecord "did:plc:alice" "hello" "alice" None None None
          "m1" "q1")] in
  chatterActivity s = [ChatterEntry.mk "did:plc:alice" 0] ∧
  chatterActivity (snapshot 600001 s).2 = [] ∧
  chatterActivity (step 80 240 s (Clock.const 600001, OverlayConnect)) = [] ∧
  chatterActivity (snapshot 600001 s).2 ≠ chatterActivity s.
Proof. by vm_compute. Qed.

Lemma one_lookup_in_flight_witness :
  let did := "did:plc:alice" in
  let trace :=
    [(Clock.const 1, ChatRecord did "a" "alice" None None None "m1" "q1");
     (Clock.const 2, OverlayConnect);
     (Clock.const 3, DispatchSettled true)] in
  let s1 := hydrateIdentity did (Clock.const 0) initial in
  let s2 := hydrateIdentity did (Clock.const 4) (run 80 240 s1 trace) in
  cachedIdentityForDid did 0 initial = None ∧
  (did ∉ pendingIdentityLookups initial) ∧
  lookupsFor did s1 = 1%nat ∧ did ∈ pendingIdentityLookups s1 ∧
  lookupsFor did s2 = 1%nat ∧ did ∈ pendingIdentityLookups s2.
Proof.
  cbv zeta. split; [reflexivity|]. split; [apply not_elem_of_empty|].
  apply (one_lookup_in_flight 80 240 "did:plc:alice" (Clock.const 0) initial
           [(Clock.const 1,
             ChatRecord "did:plc:alice" "a" "alice" None None None "m1" "q1");
            (Clock.const 2, OverlayConnect);
            (Clock.const 3, DispatchSettled true)] (Clock.const 4)).
  - reflexivity.
  - apply not_elem_of_empty.
  - repeat constructor; intros outcome; discriminate.
Defined.

End ListenerFacts.

Import ListenerFacts.

(** ** More on the parser *)

Module ParserProps.

Lemma lowerChar_idemp c : lowerChar (lowerChar c) = lowerChar c.
Proof. by destruct c as [[] [] [] [] [] [] [] []]. Qed.

Lemma toLowerCase_idemp s : toLowerCase (toLowerCase s) = toLowerCase s.
Proof. induction s as [|c s IH]; [done|]. simpl. by rewrite lowerChar_idemp, IH. Qed.

Lemma toLowerCase_trimStart s :
  toLowerCase (trimStart s) = trimStart (toLowerCase s).
Proof.
  induction s as [|c s IH]; [done|].
  simpl. rewrite lowerChar_isWhiteSpace. by destruct (isWhiteSpace c).
Qed.

Lemma toLowerCase_trim s : toLowerCase (trim s) = trim (toLowerCase s).
Proof. unfold trim. by rewrite toLowerCase_trimEnd, toLowerCase_trimStart. Qed.

Lemma normalizeCommand_idemp raw :
  normalizeCommand (normalizeCommand raw) = normalizeCommand raw.
Proof.
  unfold normalizeCommand.
  by rewrite <- toLowerCase_trim, trim_idemp, toLowerCase_idemp.
Qed.

Lemma normalizeCommand_toLowerCase raw :
  normalizeCommand (toLowerCase raw) = normalizeCommand raw.
Proof.
  unfold normalizeCommand. by rewrite <- toLowerCase_trim, toLowerCase_idemp.
Qed.

Lemma normalizeCommand_trim raw :
  normalizeCommand (trim raw) = normalizeCommand raw.
Proof. unfold normalizeCommand. by rewrite trim_idemp. Qed.

Lemma trimStart_app_ws r s :
  allChars isWhiteSpace r = true → trimStart (r +:+ s) = trimStart s.
Proof.
  induction r as [|c r IH]; [done|]. intros H. simpl in H.
  apply andb_true_iff in H as [Hc Hr].
  rewrite sapp_cons. cbn [trimStart]. rewrite Hc. auto.
Qed.

Lemma trim_padding before s after :
  allChars isWhiteSpace before = true → allChars isWhiteSpace after = true →
  trim (before +:+ s +:+ after) = trim s.
Proof.
  intros Hb Ha. unfold trim. rewrite trimStart_app_ws by done.
  rewrite <- !trimStart_trimEnd. by rewrite trimEnd_app_ws.
Qed.

Section WithDurations.
Variables K L : Z.


(** X2.  The gate bears on inputs with a repeat suffix only: what is
    accepted with repeats disabled is accepted with the same result
    when they are allowed; a result with repeat count 1 does not depend
    on the gate; and an input that gives a repeat count above 1 is
    rejected when repeats are disabled (it is not read as a command
    without its suffix). *)
Theorem gate_bears_on_repeats_only raw :
  (∀ p, parseCommand K L raw false = Some p →
        parseCommand K L raw true = Some p) ∧
  (∀ p, parseCommand K L raw true = Some p → repeatCount p = 1 →
        parseCommand K L raw false = Some p) ∧
  (∀ p, parseCommand K L raw true = Some p → repeatCount p ≠ 1 →
        parseCommand K L raw false = None).
Proof.
  rewrite !parseCommand_unfold. cbv zeta.
  destruct (isEmpty _); [done|].
  destruct (spamMatch _) as [[commandRaw repeatRaw]|]; [|split_and!; try done].
  - split_and!; [done| |done].
    intros p. case_bool_decide as Hn; [done|].
    destruct (parseCommand K L commandRaw false); [|done].
    simpl. intros [= <-]. simpl. lia.
  - intros p (? & _ & _ & ->)%parseCombo_Some. done.
Qed.

(** X3.  The parser reads its input up to case and to the white space
    around it. *)
Theorem parse_ignores_case_and_padding raw allow :
  parseCommand K L (toLowerCase raw) allow = parseCommand K L raw allow ∧
  parseCommand K L (trim raw) allow = parseCommand K L raw allow ∧
  parseCommand K L (normalizeCommand raw) allow = parseCommand K L raw allow ∧
  ∀ before after,
    allChars isWhiteSpace before = true → allChars isWhiteSpace after = true →
    parseCommand K L (before +:+ raw +:+ after) allow =
      parseCommand K L raw allow.
Proof.
  split_and!.
  - apply parseCommand_normalize, normalizeCommand_toLowerCase.
  - apply parseCommand_normalize, normalizeCommand_trim.
  - apply parseCommand_normalize, normalizeCommand_idemp.
  - intros before after Hb Ha. apply parseCommand_normalize.
    unfold normalizeCommand. by rewrite trim_padding.
Qed.


(** X5.  A result with a repeat count above 1 comes from an input that,
    trimmed and in lower case, is a base text, white space, [x] and a
    decimal number: the count is that number and the other fields are
    those of the base text parsed with repeats disabled. *)
Theorem repeat_count_comes_from_suffix raw allow p :
  parseCommand K L raw allow = Some p →
  repeatCount p ≠ 1 →
  allow = true ∧
  ∃ base ws ds,
    normalizeCommand raw = base +:+ ws +:+ String "x" ds ∧
    ws ≠ "" ∧ allChars isWhiteSpace ws = true ∧
    ds ≠ "" ∧ allChars isDigit ds = true ∧
    repeatCount p = parseInt10 ds ∧
    parseCommand K L base false = Some (withRepeat 1 p).
Proof.
  rewrite parseCommand_unfold. cbv zeta.
  destruct (isEmpty _); [done|].
  destruct (spamMatch _) as [[commandRaw repeatRaw]|] eqn:Hm.
  - destruct allow; [|done]. case_bool_decide; [done|].
    destruct (parseCommand K L commandRaw false) as [b|] eqn:Hb; [|done].
    simpl. intros [= <-] _. split; [done|].
    apply spamMatch_inv in Hm as (ws & Hs & _ & _ & ? & ? & ? & ?).
    exists commandRaw, ws, repeatRaw. split_and!; try done.
    rewrite Hb. f_equal. unfold withRepeat. simpl.
    revert Hb. rewrite parseCommand_unfold. cbv zeta.
    destruct (isEmpty _); [done|].
    destruct (spamMatch _) as [[? ?]|]; [done|].
    by intros (? & _ & _ & ->)%parseCombo_Some.
  - by intros (? & _ & _ & ->)%parseCombo_Some.
Qed.

End WithDurations.



Lemma repeat_count_comes_from_suffix_witness :
  parseCommand 80 240 "Up+A-  x12" true =
    Some (mkParsed ["up"; "a"] 240 "up+a-" 12) ∧
  ∃ base ws ds,
    normalizeCommand "Up+A-  x12" = base +:+ ws +:+ String "x" ds ∧
    parseInt10 ds = 12.
Proof.
  split; [reflexivity|].
  destruct (repeat_count_comes_from_suffix 80 240 "Up+A-  x12" true
              (mkParsed ["up"; "a"] 240 "up+a-" 12) eq_refl)
    as (_ & base & ws & ds & Hn & _ & _ & _ & _ & Hc & _); [done|].
  exists base, ws, ds. split; [done|]. by rewrite <- Hc.
Defined.

End ParserProps.

Import ParserProps.

(** ** More on the chatter tracker *)

Module TrackerProps.

Lemma evictExpired_suffix cutoff activity :
  evictExpired cutoff activity `suffix_of` activity.
Proof.
  destruct (evictExpired_split cutoff activity) as (evicted & Heq & _).
  by exists evicted.
Qed.

Lemma evictExpired_snoc cutoff activity entry :
  evictExpired cutoff (activity ++ [entry]) =
    match evictExpired cutoff activity with
    | [] => evictExpired cutoff [entry]
    | kept => kept ++ [entry]
    end.
Proof.
  induction activity as [|first rest IH]; [done|].
  simpl. by case_bool_decide.
Qed.

Lemma length_remove_dups `{EqDecision A} (l : list A) :
  (length (remove_dups l) ≤ length l)%nat.
Proof.
  induction l as [|x l IH]; [done|]. simpl. case_decide; simpl; lia.
Qed.

Lemma recordChatter_last did now activity :
  last (recordChatterAndCountUnique did now activity).2 =
    Some (ChatterEntry.mk did now).
Proof.
  unfold recordChatterAndCountUnique, countUniqueChattersInWindow. cbn [snd].
  rewrite evictExpired_snoc.
  destruct (evictExpired _ activity) as [|first rest].
  - simpl. rewrite bool_decide_true; [done|].
    unfold CHATTER_WINDOW_MS. lia.
  - by rewrite last_snoc.
Qed.

(** X6.  Recording a chatter returns a count of at least 1: the entry
    that was just appended is never evicted, so the chatter who sent
    the message is among those counted.  What is left is an end of the
    sequence before with the new entry last, and the count is at most
    its length. *)
Theorem recording_chatter_is_counted did now activity :
  let '(count, kept) := recordChatterAndCountUnique did now activity in
  last kept = Some (ChatterEntry.mk did now) ∧
  kept `suffix_of` activity ++ [ChatterEntry.mk did now] ∧
  did ∈ ChatterEntry.did <$> kept ∧
  1 ≤ count ≤ Z.of_nat (length kept).
Proof.
  pose proof (recordChatter_last did now activity) as Hlast. revert Hlast.
  unfold recordChatterAndCountUnique, countUniqueChattersInWindow. cbn [snd].
  set (entry := ChatterEntry.mk did now).
  set (kept := evictExpired _ _). intros Hlast.
  assert (did ∈ ChatterEntry.did <$> kept) as Hin.
  { apply last_Some in Hlast as [front ->].
    rewrite fmap_app. apply elem_of_app. right. by apply list_elem_of_singleton. }
  split_and!; [done|apply evictExpired_suffix|done| |].
  - rewrite uniqueDids_remove_dups.
    apply elem_of_remove_dups in Hin.
    destruct (remove_dups _); [by apply elem_of_nil in Hin|simpl; lia].
  - rewrite uniqueDids_remove_dups.
    pose proof (length_remove_dups (ChatterEntry.did <$> kept)) as Hle.
    rewrite length_fmap in Hle. lia.
Qed.

(** *** The tracker along a run *)

Lemma evictExpired_twice cutoff cutoff' activity :
  evictExpired cutoff' (evictExpired cutoff activity) =
    evictExpired (cutoff `max` cutoff') activity.
Proof.
  destruct (Z.max_spec cutoff cutoff') as [[Hlt ->]|[Hle ->]].
  - apply evictExpired_later. lia.
  - destruct (evictExpired_split cutoff activity) as (_ & _ & _ & Hhead).
    destruct (evictExpired cutoff activity) as [|first rest]; [done|].
    apply evictExpired_head. lia.
Qed.

(** A read of the tracker at [time] evicts, or the tracker is left
    alone. *)
Definition evictsAt (time : Z) (s s' : State) : Prop :=
  chatterActivity s' = chatterActivity s ∨
  chatterActivity s' =
    evictExpired (time - CHATTER_WINDOW_MS) (chatterActivity s).

(** The same for a run with the clock [now]: what the reads of the run
    have evicted is what a read at one of the readings of [now]
    evicts. *)
Definition evicts (now : Clock.t) (s s' : State) : Prop :=
  chatterActivity s' = chatterActivity s ∨
  ∃ path,
    chatterActivity s' =
      evictExpired (now path - CHATTER_WINDOW_MS) (chatterActivity s).

Global Instance evicts_refl now : Reflexive (evicts now).
Proof. intros s. by left. Qed.

Global Instance evicts_trans now : Transitive (evicts now).
Proof.
  intros s1 s2 s3 [H12|[p1 H12]] [H23|[p2 H23]]; unfold evicts;
    rewrite H23, H12; eauto.
  right. rewrite evictExpired_twice.
  destruct (Z.max_spec (now p1 - CHATTER_WINDOW_MS)
              (now p2 - CHATTER_WINDOW_MS)) as [[_ ->]|[_ ->]]; eauto.
Qed.

Lemma evicts_frame now s s' :
  chatterActivity s' = chatterActivity s → evicts now s s'.
Proof. by left. Qed.

Lemma evicts_read now place s s' :
  evictsAt (Clock.read now place) s s' → evicts now s s'.
Proof. intros [H|H]; [by left|right]. by exists [place]. Qed.

Lemma evicts_sub now place s s' :
  evicts (Clock.sub now place) s s' → evicts now s s'.
Proof. intros [H|[path H]]; [by left|right]. by exists (place :: path). Qed.

Lemma broadcast_evicts time s : evictsAt time s (broadcast time s).
Proof. right. by rewrite broadcast_eq. Qed.

Lemma applyIdentityToOverlay_evicts identity time s :
  evictsAt time s (applyIdentityToOverlay identity time s).
Proof.
  unfold applyIdentityToOverlay.
  destruct (patchMessages _ _) as [messages changed1].
  destruct (patchQueue _ _ _) as [objects changed2].
  destruct (changed1 || changed2); [|by left].
  right. by rewrite broadcast_eq.
Qed.

Lemma pushChatMessage_evicts did user text isCommand now id s :
  chatterActivity (pushChatMessage did user text isCommand now id s) =
    evictExpired (Clock.read now 1 - CHATTER_WINDOW_MS) (chatterActivity s).
Proof. unfold pushChatMessage. by rewrite broadcast_eq. Qed.

Lemma pushChatMessage_evicts_clock did user text isCommand now id s :
  evicts now s (pushChatMessage did user text isCommand now id s).
Proof. right. exists [1%nat]. apply pushChatMessage_evicts. Qed.

Lemma hydrateIdentity_evicts did now s : evicts now s (hydrateIdentity did now s).
Proof.
  unfold hydrateIdentity.
  match goal with |- context [match ?c with _ => _ end] =>
    destruct c as [cached|]
  end; [apply (evicts_read now 1), applyIdentityToOverlay_evicts|].
  case_bool_decide; by left.
Qed.

Lemma cacheLocalIdentity_evicts identity now s :
  evicts now s (cacheLocalIdentity identity now s).
Proof.
  unfold cacheLocalIdentity.
  etrans; [|apply (evicts_read now 1), applyIdentityToOverlay_evicts].
  by left.
Qed.

Lemma lookupSettled_evicts did outcome now s :
  evicts now s (lookupSettled did outcome now s).
Proof.
  unfold lookupSettled. case_bool_decide; [|done].
  match goal with |- evicts _ _ (set_pendingIdentityLookups _ ?s1) =>
    assert (evicts now s s1) as Hs1
  end.
  { destruct outcome; [|done..].
    etrans; [|apply (evicts_read now 1), applyIdentityToOverlay_evicts].
    by left. }
  etrans; [done|]. by left.
Qed.

Section WithDurations.
Variables K L : Z.

Lemma consumerLoop_evicts now s : evicts now s (consumerLoop K L now s).
Proof.
  apply (consumerLoop_rule_readings K L (λ time, ∃ path, time = now path)
           (evicts now s) (evicts now s)); [| | | |done].
  - intros time s1 next [path ->] H1 _ _. etrans; [done|].
    etrans; [by apply evicts_frame|]. right. exists path.
    by rewrite broadcast_eq.
  - intros time s1 [path ->] H1 _. etrans; [done|]. unfold loopReturns.
    right. exists path. by rewrite broadcast_eq.
  - intros time s1 next parsed [path ->] H1 _ _. etrans; [done|].
    unfold loopDispatches. cbv zeta.
    right. exists path. by rewrite broadcast_eq.
  - intros path. by exists path.
Qed.

Lemma processQueue_evicts now s : evicts now s (processQueue K L now s).
Proof.
  unfold processQueue. destruct (processingQueue s); [done|].
  etrans; [|apply consumerLoop_evicts]. by left.
Qed.

Lemma dispatchSettled_evicts ok time s :
  evictsAt time s (dispatchSettled ok time s).
Proof.
  unfold dispatchSettled. destruct (consumer s); [by left| |by left].
  cbv zeta. right. by rewrite broadcast_eq.
Qed.

Lemma queueDelayElapsed_evicts now s :
  evicts now s (queueDelayElapsed K L now s).
Proof.
  unfold queueDelayElapsed. destruct (consumer s); [done..|].
  apply consumerLoop_evicts.
Qed.

Lemma enqueueSingleCommand_evicts command did now id s :
  evicts now s (enqueueSingleCommand K L command did now id s).
Proof.
  rewrite enqueueSingleCommand_eq.
  etrans; [|apply (evicts_sub now 2), processQueue_evicts].
  etrans; [|apply (evicts_read now 1), broadcast_evicts].
  unfold pushItem. cbv zeta. rewrite trimQueue_eq. by left.
Qed.

Lemma enqueueCommand_evicts command did now id s :
  evicts now s (enqueueCommand K L command did now id s).
Proof.
  unfold enqueueCommand.
  pose proof (enqueueSingleCommand_evicts (normalized command) did now id s) as H.
  revert H. generalize (enqueueSingleCommand K L (normalized command) did now id s).
  intros s' H. case_bool_decide; [done|]. etrans; [done|]. by left.
Qed.

Lemma repeatDelayElapsed_evicts k now id s :
  evicts now s (repeatDelayElapsed K L k now id s).
Proof.
  unfold repeatDelayElapsed. destruct (repeaters s !! k) as [r|]; [|done].
  pose proof (enqueueSingleCommand_evicts (normalized (Repeater.command r))
                (Repeater.did r) now id s) as H.
  revert H.
  generalize (enqueueSingleCommand K L (normalized (Repeater.command r))
                (Repeater.did r) now id s).
  intros s' H. case_bool_decide; (etrans; [done|]); by left.
Qed.

(** A chat record appends its entry and reads the tracker at the first
    reading of the clock; the later reads of the event evict. *)
Lemma chatRecord_tracker did text user handle displayName avatarUrl
    now messageId itemId s :
  evicts now
    (set_chatterActivity
       (recordChatterAndCountUnique did (Clock.read now 0)
          (chatterActivity s)).2 s)
    (chatRecord K L did text user handle displayName avatarUrl
       now messageId itemId s).
Proof.
  unfold chatRecord.
  destruct (recordChatterAndCountUnique did _ (chatterActivity s))
    as [uniqueChatters activity].
  cbn [snd]. set (s0 := set_chatterActivity activity s).
  match goal with
  | |- evicts _ _ (match _ with Some _ => _ | None => ?s4 end) =>
      assert (evicts now s0 s4) as H4
  end.
  { etrans; [|apply (evicts_sub now 3), hydrateIdentity_evicts].
    etrans; [apply (evicts_sub now 1), pushChatMessage_evicts_clock|].
    destruct (localIdentityFromRecord _ _ _ _) as [identity|]; [|done].
    apply (evicts_sub now 2), cacheLocalIdentity_evicts. }
  destruct (parseCommand K L text _) as [parsed|]; [|done].
  etrans; [done|]. apply (evicts_sub now 4), enqueueCommand_evicts.
Qed.

Lemma step_evicts s now e :
  (∀ did text user handle displayName avatarUrl messageId itemId,
     e ≠ ChatRecord did text user handle displayName avatarUrl
           messageId itemId) →
  evicts now s (step K L s (now, e)).
Proof.
  intros He. destruct e; unfold step; cbv beta iota.
  - by edestruct He.
  - rewrite sseStream_eq. apply (evicts_read now 0), broadcast_evicts.
  - apply (evicts_read now 0), dispatchSettled_evicts.
  - apply queueDelayElapsed_evicts.
  - apply repeatDelayElapsed_evicts.
  - apply lookupSettled_evicts.
Qed.

(** The entries that the chat records of a trace append: each has the
    first reading of the clock of its event. *)
Definition recorded (trace : list (Clock.t * Event)) : list ChatterEntry.t :=
  omap (λ e, match e.2 with
             | ChatRecord did _ _ _ _ _ _ _ =>
                 Some (ChatterEntry.mk did (Clock.read e.1 0))
             | _ => None
             end) trace.

(** No reading of [now] is after [time]. *)
Definition notAfter (time : Z) (now : Clock.t) : Prop :=
  ∀ path, now path ≤ time.

(** No reading of [now] is after a reading of [now']. *)
Definition before (now now' : Clock.t) : Prop :=
  ∀ path path', now path ≤ now' path'.

(** The clock never goes back from one event to the next. *)
Definition clockOrder (trace : list (Clock.t * Event)) : Prop :=
  StronglySorted (λ e e', before e.1 e'.1) trace.

Lemma recorded_snoc trace e :
  recorded (trace ++ [e]) = recorded trace ++ recorded [e].
Proof. unfold recorded. by rewrite omap_app. Qed.

Lemma recorded_time trace entry :
  entry ∈ recorded trace →
  ∃ e, e ∈ trace ∧ ChatterEntry.createdAt entry = Clock.read e.1 0.
Proof.
  unfold recorded. intros ([now e] & He & Hentry)%list_elem_of_omap.
  simpl in Hentry. exists (now, e). split; [done|].
  destruct e; simplify_eq. done.
Qed.

Lemma clockOrder_snoc trace now e :
  clockOrder (trace ++ [(now, e)]) →
  clockOrder trace ∧ Forall (λ e', before e'.1 now) trace.
Proof.
  unfold clockOrder.
  intros (Hcross & H1 & _)%StronglySorted_app. split; [done|].
  apply Forall_forall. intros e' He'. apply (Hcross e' (now, e) He').
  by apply list_elem_of_singleton.
Qed.

Lemma recorded_before trace now :
  Forall (λ e', before e'.1 now) trace →
  ∀ path, Forall (λ x, ChatterEntry.createdAt x ≤ now path) (recorded trace).
Proof.
  intros Hle path. apply Forall_forall.
  intros x (e' & He' & ->)%recorded_time.
  apply (proj1 (Forall_forall _ _) Hle _ He').
Qed.

Lemma recorded_inTimeOrder trace :
  clockOrder trace → inTimeOrder (recorded trace).
Proof.
  induction trace as [|[now e] trace IH] using rev_ind; [constructor|].
  intros [Htrace Hle]%clockOrder_snoc. rewrite recorded_snoc.
  apply StronglySorted_app. split_and!; [|by apply IH|].
  - intros x1 x2 H1 Hx2.
    assert (ChatterEntry.createdAt x2 = Clock.read now 0) as ->.
    { unfold recorded in Hx2. simpl in Hx2.
      destruct e; simpl in Hx2;
        try (by apply elem_of_nil in Hx2).
      by apply list_elem_of_singleton in Hx2 as ->. }
    by apply (proj1 (Forall_forall _ _) (recorded_before _ _ Hle [0%nat])).
  - unfold recorded. simpl. destruct e; repeat constructor.
Qed.

(** A read after an entry was appended, when the tracker answers for
    the entries recorded before. *)
Lemma read_after_record time entry activity (entries : list ChatterEntry.t) :
  evictExpired (time - CHATTER_WINDOW_MS) activity =
    filter (inWindow time) entries →
  Forall (λ x, ChatterEntry.createdAt x ≤ ChatterEntry.createdAt entry)
    entries →
  evictExpired (time - CHATTER_WINDOW_MS) (activity ++ [entry]) =
    filter (inWindow time) (entries ++ [entry]).
Proof.
  intros Hread Hle. rewrite evictExpired_snoc, Hread, filter_app.
  destruct (filter (inWindow time) entries) as [|x l] eqn:Hf.
  - simpl. rewrite filter_cons, filter_nil. unfold inWindow at 1.
    case_bool_decide;
      [by rewrite decide_True by (unfold inWindow; lia)|
       by rewrite decide_False by (unfold inWindow; lia)].
  - rewrite filter_cons, filter_nil, decide_True; [done|].
    assert (x ∈ filter (inWindow time) entries) as Hx.
    { rewrite Hf. by left. }
    apply list_elem_of_filter in Hx as [Hw Hx].
    pose proof (proj1 (Forall_forall _ _) Hle _ Hx) as Hxt. simpl in Hxt.
    unfold inWindow in *. lia.
Qed.

Lemma evicts_read_later now time s s' :
  evicts now s s' → notAfter time now →
  evictExpired (time - CHATTER_WINDOW_MS) (chatterActivity s') =
    evictExpired (time - CHATTER_WINDOW_MS) (chatterActivity s).
Proof.
  intros [->|[path ->]] Hle; [done|].
  apply evictExpired_later. specialize (Hle path). lia.
Qed.

Lemma evicts_suffix now s s' :
  evicts now s s' → chatterActivity s' `suffix_of` chatterActivity s.
Proof. intros [->|[path ->]]; [done|apply evictExpired_suffix]. Qed.

(** What the tracker holds after a run: an end of the recorded entries
    from which a read that is not before the readings of the run takes
    the entries within the window. *)
Lemma run_tracker trace :
  clockOrder trace →
  let s := run K L initial trace in
  chatterActivity s `suffix_of` recorded trace ∧
  ∀ time, Forall (λ e, notAfter time e.1) trace →
          evictExpired (time - CHATTER_WINDOW_MS) (chatterActivity s) =
            filter (inWindow time) (recorded trace).
Proof.
  induction trace as [|[now e] trace IH] using rev_ind; [done|].
  intros Hclock.
  apply clockOrder_snoc in Hclock as [Htrace Hle].
  destruct (IH Htrace) as [Hsuf Hread]. clear IH.
  cbv zeta. rewrite run_snoc, recorded_snoc.
  set (s := run K L initial trace) in *. clearbody s.
  assert ((∃ did, recorded [(now, e)] = [ChatterEntry.mk did (Clock.read now 0)]) ∨
          ¬ (∃ did, recorded [(now, e)] = [ChatterEntry.mk did (Clock.read now 0)]))
    as [[did Hrec]|Hno].
  { destruct e; [left; by eexists|right; by intros [? ?]..]. }
  - assert (evicts now
              (set_chatterActivity
                 (evictExpired (Clock.read now 0 - CHATTER_WINDOW_MS)
                    (chatterActivity s ++ [ChatterEntry.mk did (Clock.read now 0)]))
                 s)
              (step K L s (now, e))) as Hev.
    { destruct e; try done. unfold recorded in Hrec. simpl in Hrec.
      injection Hrec as ->. unfold step. cbv beta iota.
      apply chatRecord_tracker. }
    rewrite Hrec. split.
    + etrans; [apply (evicts_suffix _ _ _ Hev)|]. simpl.
      etrans; [apply evictExpired_suffix|]. by apply suffix_snoc.
    + intros time Htime. apply Forall_app in Htime as [Htime Hnow].
      apply Forall_inv in Hnow. simpl in Hnow.
      rewrite (evicts_read_later _ _ _ _ Hev Hnow). simpl.
      rewrite evictExpired_later by (specialize (Hnow [0%nat]);
                                     unfold Clock.read; lia).
      apply read_after_record; [by apply Hread|].
      apply (recorded_before _ _ Hle [0%nat]).
  - assert (recorded [(now, e)] = []) as ->.
    { unfold recorded. simpl. destruct e; try done.
      exfalso. apply Hno. by eexists. }
    rewrite app_nil_r.
    assert (evicts now s (step K L s (now, e))) as Hev.
    { apply step_evicts. intros ? ? ? ? ? ? ? ? ->. apply Hno.
      by eexists. }
    split.
    + etrans; [apply (evicts_suffix _ _ _ Hev)|done].
    + intros time Htime. apply Forall_app in Htime as [Htime Hnow].
      apply Forall_inv in Hnow. simpl in Hnow.
      rewrite (evicts_read_later _ _ _ _ Hev Hnow). by apply Hread.
Qed.

(** X7.  Let the clock never go back from one event to the next.  Then
    the tracker is in the order of its time stamps whenever an event
    has been processed, and the count that gates the repeats of a chat
    record, which reads the clock at [time], is the number of distinct
    participants among the chat records of the ten minutes before
    [time], this one included.  The tracker holds these records after
    the read, and an end of them after the event, whose later reads of
    the clock may evict more. *)
Theorem gate_counts_recent_chatters trace now did text user
    handle displayName avatarUrl messageId itemId :
  let e :=
    ChatRecord did text user handle displayName avatarUrl messageId itemId in
  clockOrder (trace ++ [(now, e)]) →
  let s := run K L initial trace in
  let time := Clock.read now 0 in
  let recent :=
    filter (inWindow time) (recorded trace ++ [ChatterEntry.mk did time]) in
  inTimeOrder (chatterActivity s) ∧
  recordChatterAndCountUnique did time (chatterActivity s) =
    (Z.of_nat (length (remove_dups (ChatterEntry.did <$> recent))), recent) ∧
  chatterActivity (step K L s (now, e)) `suffix_of` recent.
Proof.
  intros e Hclock s time recent. subst e.
  apply clockOrder_snoc in Hclock as [Htrace Hle].
  destruct (run_tracker _ Htrace) as [[front Hsuf] Hread].
  cbv zeta in Hread. fold s in Hsuf, Hread.
  assert ((recordChatterAndCountUnique did time (chatterActivity s)).2 =
            recent) as Hrecent.
  { unfold recordChatterAndCountUnique, countUniqueChattersInWindow.
    cbn [snd]. apply read_after_record.
    - apply Hread. eapply Forall_impl; [exact Hle|].
      intros e' He' path. apply He'.
    - apply (recorded_before _ _ Hle [0%nat]). }
  split_and!.
  - pose proof (recorded_inTimeOrder _ Htrace) as Hsorted.
    rewrite Hsuf in Hsorted. by apply StronglySorted_app_1_r in Hsorted.
  - rewrite <- Hrecent. unfold recordChatterAndCountUnique,
      countUniqueChattersInWindow. simpl.
    by rewrite uniqueDids_remove_dups.
  - rewrite <- Hrecent. unfold step. cbv beta iota.
    apply (evicts_suffix _ _ _ (chatRecord_tracker _ _ _ _ _ _ _ _ _ _)).
Qed.

End WithDurations.

Lemma gate_counts_recent_chatters_witness :
  let trace :=
    [(Clock.const 0,
      ChatRecord "did:plc:alice" "a" "alice" None None None "m1" "q1");
     (Clock.const 5, OverlayConnect);
     (Clock.const 7,
      ChatRecord "did:plc:bob" "b" "bob" None None None "m2" "q2")] in
  let now : Clock.t :=
    λ path, match path with [0%nat] => 600005 | _ => 600006 end in
  clockOrder
    (trace ++
     [(now,
       ChatRecord "did:plc:bob" "up x3" "bob" None None None "m3" "q3")]) ∧
  recordChatterAndCountUnique "did:plc:bob" 600005
    (chatterActivity (run 80 240 initial trace)) =
    (1, [ChatterEntry.mk "did:plc:bob" 7;
         ChatterEntry.mk "did:plc:bob" 600005]).
Proof.
  cbv zeta.
  assert (clockOrder
            ([(Clock.const 0,
               ChatRecord "did:plc:alice" "a" "alice" None None None
                 "m1" "q1");
              (Clock.const 5, OverlayConnect);
              (Clock.const 7,
               ChatRecord "did:plc:bob" "b" "bob" None None None
                 "m2" "q2")] ++
             [((λ path, match path with [0%nat] => 600005 | _ => 600006 end)
                 : Clock.t,
               ChatRecord "did:plc:bob" "up x3" "bob" None None None
                 "m3" "q3")])) as Hclock.
  { unfold clockOrder, before, Clock.const. simpl.
    repeat constructor; simpl; intros; repeat case_match; lia. }
  split; [done|].
  destruct (gate_counts_recent_chatters 80 240 _ _ _ _ _ _ _ _ _ _ Hclock)
    as (_ & Heq & _).
  exact Heq.
Defined.

End TrackerProps.

Import TrackerProps.

(** ** Labels *)

Module LabelProps.

Lemma length_sapp (a b : string) :
  String.length (a +:+ b) = (String.length a + String.length b)%nat.
Proof. induction a as [|c a IH]; [done|]. rewrite sapp_cons. simpl. by rewrite IH. Qed.

Lemma length_substring n m s :
  (n + m ≤ String.length s)%nat → String.length (String.substring n m s) = m.
Proof.
  revert n m. induction s as [|c s IH]; intros n m Hle; simpl in Hle.
  - assert (n = 0 ∧ m = 0)%nat as [-> ->] by lia. done.
  - destruct n as [|n]; simpl.
    + destruct m as [|m]; [done|]. simpl. rewrite IH by lia. done.
    + apply IH. lia.
Qed.

Lemma substring_0_app (a b : string) :
  String.substring 0 (String.length a) (a +:+ b) = a.
Proof.
  induction a as [|c a IH]; simpl.
  - by destruct b.
  - unfold String.app in *. simpl. by rewrite IH.
Qed.

Lemma substring_skip_app (a b : string) n m :
  String.substring (String.length a + n) m (a +:+ b) = String.substring n m b.
Proof. induction a as [|c a IH]; [done|]. rewrite sapp_cons. simpl. apply IH. Qed.

Lemma substring_all (s : string) :
  String.substring 0 (String.length s) s = s.
Proof. induction s as [|c s IH]; [done|]. simpl. by rewrite IH. Qed.

(** X8.  A shortened id has the length of the id, at most 18; ids of up
    to 18 characters are left as they are, longer ones keep their first
    10 and their last 5 characters around three dots.  Shortening a
    shortened id changes nothing. *)
Theorem shortenDid_bounded did :
  let short := shortenDid did in
  String.length short = (String.length did `min` 18)%nat ∧
  ((String.length did ≤ 18)%nat → short = did) ∧
  ((18 < String.length did)%nat →
     short = String.substring 0 10 did +:+ "..." +:+
             String.substring (String.length did - 5) 5 did ∧
     String.substring 0 10 short = String.substring 0 10 did ∧
     String.substring 10 3 short = "..." ∧
     String.substring 13 5 short =
       String.substring (String.length did - 5) 5 did) ∧
  shortenDid short = short.
Proof.
  cbv zeta. destruct (decide (String.length did ≤ 18)%nat) as [Hlen|Hlen].
  - assert (shortenDid did = did) as ->.
    { unfold shortenDid. by rewrite bool_decide_true. }
    split_and!; [lia|done|lia|].
    unfold shortenDid. by rewrite bool_decide_true.
  - set (p := String.substring 0 10 did).
    set (q := String.substring (String.length did - 5) 5 did).
    assert (shortenDid did = p +:+ "..." +:+ q) as ->.
    { unfold shortenDid. by rewrite bool_decide_false. }
    assert (String.length p = 10%nat) as Hp by (apply length_substring; lia).
    assert (String.length q = 5%nat) as Hq by (apply length_substring; lia).
    assert (String.length (p +:+ "..." +:+ q) = 18%nat) as H18.
    { rewrite !length_sapp, Hp, Hq. done. }
    split_and!; [lia|lia| |].
    + intros _. split_and!; [done| | |].
      * rewrite <- Hp at 1. apply substring_0_app.
      * rewrite <- Hp, <- (Nat.add_0_r (String.length p)).
        rewrite substring_skip_app. change 3%nat with (String.length "...").
        apply substring_0_app.
      * change 13%nat with (10 + 3)%nat. rewrite <- Hp.
        rewrite substring_skip_app.
        change 3%nat with (String.length "..." + 0)%nat.
        rewrite substring_skip_app. rewrite <- Hq at 1. apply substring_all.
    + unfold shortenDid. rewrite bool_decide_true; [done|]. lia.
Qed.

Lemma shortenDid_nonempty did : did ≠ "" → shortenDid did ≠ "".
Proof.
  intros Hne. unfold shortenDid. case_bool_decide; [done|].
  destruct did as [|c rest]; [done|]. done.
Qed.



End LabelProps.

Import LabelProps.

(** ** Identities *)

Module IdentityProps.

Lemma set_heap_chatMessages_same s :
  set_heap (heap s) (set_chatMessages (chatMessages s) s) = s.
Proof. by destruct s. Qed.

(** *** The patch of one message or item *)

Definition labelled (identity : ResolvedIdentity.t) (message : ChatMessage.t)
  : Prop :=
  ChatMessage.user message =
    userLabelForIdentity identity (ResolvedIdentity.did identity) ∧
  ChatMessage.handle message = ResolvedIdentity.handle identity ∧
  ChatMessage.avatarUrl message = ResolvedIdentity.avatarUrl identity.

Definition labelledItem (identity : ResolvedIdentity.t) (item : QueueItem.t)
  : Prop :=
  QueueItem.user item =
    queueLabelForIdentity identity (ResolvedIdentity.did identity) ∧
  QueueItem.handle item = ResolvedIdentity.handle identity ∧
  QueueItem.avatarUrl item = ResolvedIdentity.avatarUrl identity.

(** Two versions of a message that differ in the display fields only. *)
Definition sameText (a b : ChatMessage.t) : Prop :=
  ChatMessage.id a = ChatMessage.id b ∧ ChatMessage.did a = ChatMessage.did b ∧
  ChatMessage.text a = ChatMessage.text b ∧
  ChatMessage.isCommand a = ChatMessage.isCommand b ∧
  ChatMessage.createdAt a = ChatMessage.createdAt b.

Lemma patchMessage_cases identity message :
  let '(message', changed) := patchMessage identity message in
  sameText message message' ∧
  (ChatMessage.did message = ResolvedIdentity.did identity →
   labelled identity message') ∧
  (ChatMessage.did message ≠ ResolvedIdentity.did identity →
   message' = message) ∧
  (changed = false → message' = message) ∧
  (changed = true → message' ≠ message).
Proof.
  unfold patchMessage, labelled. case_bool_decide as Hdid; [by split_and!|].
  case_bool_decide as Hc.
  - split_and!; try done. intros _ Heq. rewrite <- Heq in Hc. simpl in Hc.
    by destruct Hc as [?|[?|?]].
  - split_and!; try done. intros _.
    split_and!; apply dec_stable; intros Hn; apply Hc; auto.
Qed.

Lemma patchItem_cases identity item :
  let '(item', changed) := patchItem identity item in
  sameWork item item' ∧
  (QueueItem.did item = ResolvedIdentity.did identity →
   labelledItem identity item') ∧
  (QueueItem.did item ≠ ResolvedIdentity.did identity → item' = item) ∧
  (changed = false → item' = item) ∧
  (changed = true → item' ≠ item).
Proof.
  unfold patchItem, labelledItem. case_bool_decide as Hdid; [by split_and!|].
  case_bool_decide as Hc.
  - split_and!; try done. intros _ Heq. rewrite <- Heq in Hc. simpl in Hc.
    by destruct Hc as [?|[?|?]].
  - split_and!; try done. intros _.
    split_and!; apply dec_stable; intros Hn; apply Hc; auto.
Qed.

Lemma patchMessage_idemp identity message :
  patchMessage identity (patchMessage identity message).1 =
    ((patchMessage identity message).1, false).
Proof.
  pose proof (patchMessage_cases identity message) as H.
  destruct (patchMessage identity message) as [message' changed].
  destruct H as ((_ & Hdid & _) & Hl & Hother & _). simpl.
  unfold patchMessage. case_bool_decide as Hd; [done|].
  rewrite <- Hdid in Hd.
  destruct (Hl Hd) as (-> & -> & ->).
  rewrite bool_decide_false; [done|]. by intros [?|[?|?]].
Qed.

Lemma patchItem_idemp identity item :
  patchItem identity (patchItem identity item).1 =
    ((patchItem identity item).1, false).
Proof.
  pose proof (patchItem_cases identity item) as H.
  destruct (patchItem identity item) as [item' changed].
  destruct H as ((_ & Hdid & _) & Hl & Hother & _). simpl.
  unfold patchItem. case_bool_decide as Hd; [done|].
  rewrite <- Hdid in Hd.
  destruct (Hl Hd) as (-> & -> & ->).
  rewrite bool_decide_false; [done|]. by intros [?|[?|?]].
Qed.

(** *** The two loops *)

Lemma patchMessages_unchanged identity messages :
  (patchMessages identity messages).2 = false →
  (patchMessages identity messages).1 = messages.
Proof.
  unfold patchMessages. cbn [fst snd].
  induction messages as [|m messages IH]; [done|].
  rewrite fmap_cons. cbn [existsb]. intros [Hm Hrest]%orb_false_iff.
  rewrite IH by done. f_equal.
  pose proof (patchMessage_cases identity m) as H. unfold compose in *.
  destruct (patchMessage identity m) as [m' c]. simpl in *.
  by destruct H as (_ & _ & _ & -> & _).
Qed.

Lemma patchMessages_changed identity messages :
  (patchMessages identity messages).2 = true →
  (patchMessages identity messages).1 ≠ messages.
Proof.
  unfold patchMessages. cbn [fst snd].
  induction messages as [|m messages IH]; [done|].
  rewrite fmap_cons. cbn [existsb]. intros Hc Heq. injection Heq as Hm Hrest.
  apply orb_true_iff in Hc as [Hc|Hc]; [|by apply IH].
  pose proof (patchMessage_cases identity m) as H. unfold compose in *.
  destruct (patchMessage identity m) as [m' c]. simpl in *.
  destruct H as (_ & _ & _ & _ & H). by apply H.
Qed.

Lemma patchMessages_idemp identity messages :
  patchMessages identity (patchMessages identity messages).1 =
    ((patchMessages identity messages).1, false).
Proof.
  unfold patchMessages. cbn [fst snd]. f_equal.
  - rewrite <- list_fmap_compose. apply list_fmap_ext. intros ? m _.
    unfold compose. by rewrite patchMessage_idemp.
  - induction messages as [|m messages IH]; [done|].
    rewrite fmap_cons. cbn [existsb]. rewrite IH. unfold compose.
    by rewrite patchMessage_idemp.
Qed.

(** The second loop patches the objects of the queue and no other. *)
Lemma patchQueue_lookup identity refs : ∀ objects ref,
  (patchQueue identity objects refs).1 !! ref =
    if decide (ref ∈ refs)
    then (λ item, (patchItem identity item).1) <$> objects !! ref
    else objects !! ref.
Proof.
  unfold patchQueue. generalize false.
  induction refs as [|r refs IH]; intros changed objects ref.
  - cbn [foldl fst]. rewrite decide_False; [done|]. apply not_elem_of_nil.
  - cbn [foldl]. destruct (objects !! r) as [item|] eqn:Hitem.
    + pose proof (patchItem_cases identity item) as Hcases.
      pose proof (patchItem_idemp identity item) as Hidemp.
      destruct (patchItem identity item) as [item' c] eqn:Hp.
      destruct Hcases as (_ & _ & _ & Hsame & _). simpl in Hidemp.
      assert ((if c then <[r:=item']> objects else objects) !! ref =
              if decide (ref = r) then Some item' else objects !! ref) as Hl.
      { destruct c.
        - case_decide as Hr; [subst; apply lookup_insert_eq|].
          by apply lookup_insert_ne.
        - rewrite Hsame by done. case_decide; by subst. }
      rewrite IH, Hl.
      destruct (decide (ref = r)) as [->|Hne].
      * rewrite (decide_True (P:=r ∈ r :: refs)) by (by left).
        rewrite Hitem. case_decide; cbn; rewrite ?Hidemp, Hp; done.
      * case_decide as Hin.
        -- rewrite decide_True; [done|]. by right.
        -- rewrite decide_False; [done|]. by intros [?|?]%elem_of_cons.
    + rewrite IH. destruct (decide (ref = r)) as [->|Hne].
      * rewrite Hitem. rewrite (decide_True (P:=r ∈ r :: refs)) by (by left).
        by case_decide.
      * case_decide as Hin.
        -- rewrite decide_True; [done|]. by right.
        -- rewrite decide_False; [done|]. by intros [?|?]%elem_of_cons.
Qed.

Lemma patchQueue_settled identity refs objects :
  (∀ ref item, ref ∈ refs → objects !! ref = Some item →
               (patchItem identity item).2 = false) →
  patchQueue identity objects refs = (objects, false).
Proof.
  unfold patchQueue. induction refs as [|r refs IH]; intros H; [done|].
  simpl. destruct (objects !! r) as [item|] eqn:Hitem.
  - specialize (H r item (ltac:(by left)) Hitem) as Hc.
    destruct (patchItem identity item) as [item' c]. simpl in Hc. subst c.
    simpl. apply IH. intros ref item0 Hin. apply H. by right.
  - apply IH. intros ref item0 Hin. apply H. by right.
Qed.

Lemma patchQueue_changed identity refs : ∀ objects,
  (patchQueue identity objects refs).2 = true →
  (patchQueue identity objects refs).1 ≠ objects.
Proof.
  intros objects Hc Heq.
  assert (∀ ref item, ref ∈ refs → objects !! ref = Some item →
                      (patchItem identity item).2 = false) as Hsettled.
  { intros ref item Hin Hitem.
    pose proof (patchQueue_lookup identity refs objects ref) as Hl.
    rewrite Heq, decide_True, Hitem in Hl by done. simpl in Hl.
    injection Hl as Hl.
    pose proof (patchItem_cases identity item) as Hcases.
    destruct (patchItem identity item) as [item' c]. simpl in *.
    destruct Hcases as (_ & _ & _ & _ & Hne).
    destruct c; [|done]. exfalso. by apply Hne. }
  rewrite (patchQueue_settled _ _ _ Hsettled) in Hc. done.
Qed.

Lemma patchQueue_idemp identity refs objects :
  patchQueue identity (patchQueue identity objects refs).1 refs =
    ((patchQueue identity objects refs).1, false).
Proof.
  apply patchQueue_settled. intros ref item Hin.
  rewrite patchQueue_lookup, decide_True by done.
  destruct (objects !! ref) as [item0|]; [|done]. simpl. intros [= <-].
  by rewrite patchItem_idemp.
Qed.

Lemma patchQueue_unchanged identity refs objects :
  (patchQueue identity objects refs).2 = false →
  (patchQueue identity objects refs).1 = objects.
Proof.
  unfold patchQueue.
  match goal with |- context [foldl ?f _ _] => set (g := f) end.
  assert (∀ changed objects0,
            (foldl g (objects0, changed) refs).2 = false →
            changed = false ∧ (foldl g (objects0, changed) refs).1 = objects0)
    as H.
  { induction refs as [|r refs IH]; intros changed objects0; [done|].
    cbn [foldl]. unfold g at 2 4. destruct (objects0 !! r) as [item|]; [|apply IH].
    destruct (patchItem identity item) as [item' c].
    intros Hr. apply IH in Hr as [Hc ->].
    apply orb_false_iff in Hc as [-> ->]. done. }
  intros Hc. by apply H in Hc as [_ ?].
Qed.

(** What [applyIdentityToOverlay] leaves of the state. *)
Lemma applyIdentityToOverlay_fields identity now s :
  let s' := applyIdentityToOverlay identity now s in
  chatMessages s' = (patchMessages identity (chatMessages s)).1 ∧
  heap s' = (patchQueue identity (heap s) (commandQueue s)).1 ∧
  commandQueue s' = commandQueue s ∧
  (s' = s ∨
   (∃ data, pushed s' = pushed s ++ [data]) ∧
   (chatMessages s' ≠ chatMessages s ∨ heap s' ≠ heap s)).
Proof.
  unfold applyIdentityToOverlay.
  pose proof (patchMessages_unchanged identity (chatMessages s)) as Hm0.
  pose proof (patchMessages_changed identity (chatMessages s)) as Hm1.
  pose proof (patchQueue_changed identity (commandQueue s) (heap s)) as Hq1.
  pose proof (patchQueue_unchanged identity (commandQueue s) (heap s)) as Hq0.
  destruct (patchMessages _ _) as [messages c1].
  destruct (patchQueue _ _ _) as [objects c2]. simpl in *.
  destruct c1, c2; simpl; rewrite ?broadcast_eq; simpl;
    (split_and!; [done|done|done|]).
  - right. split; [by eexists|]. left. by apply Hm1.
  - right. split; [by eexists|]. left. by apply Hm1.
  - right. split; [by eexists|]. right. by apply Hq1.
  - left. rewrite Hm0, Hq0 by done. apply set_heap_chatMessages_same.
Qed.

(** X10.  [applyIdentityToOverlay] sends a snapshot to the overlay only
    when it changed a label: either it leaves the state as it is, or it
    pushes exactly one snapshot and a chat message or a queue item has
    changed.  Applying the same identity once more changes nothing and
    sends nothing. *)
Theorem identity_patch_settles identity now now' s :
  let s' := applyIdentityToOverlay identity now s in
  (s' = s ∨
   (∃ data, pushed s' = pushed s ++ [data]) ∧
   (chatMessages s' ≠ chatMessages s ∨ heap s' ≠ heap s)) ∧
  applyIdentityToOverlay identity now' s' = s'.
Proof.
  intros s'.
  destruct (applyIdentityToOverlay_fields identity now s)
    as (Hm & Hh & Hq & Hcases).
  fold s' in Hm, Hh, Hq, Hcases. split; [done|]. clearbody s'.
  unfold applyIdentityToOverlay.
  rewrite Hm, Hh, Hq, patchMessages_idemp, patchQueue_idemp.
  cbn [orb]. rewrite <- Hm, <- Hh. apply set_heap_chatMessages_same.
Qed.

(** X11.  After [applyIdentityToOverlay] every chat message of the
    participant carries the label, the handle and the avatar of the
    identity, and so does every item of the queue, with the queue
    label.  Messages and items of other participants are left alone,
    and so are the objects that are no longer in the queue.  A patched
    message keeps its id, text, command flag and time; a patched item
    its id, command, status and time. *)
Theorem identity_patch_labels identity now s :
  let s' := applyIdentityToOverlay identity now s in
  let did := ResolvedIdentity.did identity in
  Forall2 (λ m m', sameText m m' ∧
                   (ChatMessage.did m = did → labelled identity m') ∧
                   (ChatMessage.did m ≠ did → m' = m))
    (chatMessages s) (chatMessages s') ∧
  (∀ ref, ref ∈ commandQueue s →
          option_Forall2
            (λ a b, sameWork a b ∧
                    (QueueItem.did a = did → labelledItem identity b) ∧
                    (QueueItem.did a ≠ did → b = a))
            (heap s !! ref) (heap s' !! ref)) ∧
  (∀ ref, ref ∉ commandQueue s → heap s' !! ref = heap s !! ref) ∧
  commandQueue s' = commandQueue s.
Proof.
  intros s' did.
  destruct (applyIdentityToOverlay_fields identity now s)
    as (Hm & Hh & Hq & _).
  fold s' in Hm, Hh, Hq. rewrite Hm, Hh. clear Hm Hh. split_and!; [| | |done].
  - unfold patchMessages. cbn [fst].
    induction (chatMessages s) as [|m messages IH]; [constructor|].
    rewrite fmap_cons. constructor; [|done].
    pose proof (patchMessage_cases identity m) as H. unfold compose.
    destruct (patchMessage identity m) as [m' c].
    by destruct H as (? & ? & ? & _).
  - intros ref Hin. rewrite patchQueue_lookup, decide_True by done.
    destruct (heap s !! ref) as [item|]; constructor.
    pose proof (patchItem_cases identity item) as H.
    destruct (patchItem identity item) as [item' c].
    by destruct H as (? & ? & ? & _).
  - intros ref Hin. by rewrite patchQueue_lookup, decide_False.
Qed.

(** X12.  An identity that [cacheLocalIdentity] stored when the clock
    read [stored] is what [cachedIdentityForDid] returns at every
    reading before [stored] + 15 minutes, and a call of
    [hydrateIdentity] that reads the clock before that starts no lookup
    for the participant.  At a reading of [stored] + 15 minutes or
    later the entry counts as absent and [hydrateIdentity] starts a
    lookup unless one is in flight.  Entries of other participants are
    not touched. *)
Theorem cached_identity_round_trip identity now now' s :
  let did := ResolvedIdentity.did identity in
  let s' := cacheLocalIdentity identity now s in
  let stored := Clock.read now 0 in
  let time := Clock.read now' 0 in
  IDENTITY_CACHE_TTL_MS = 900000 ∧
  (time < stored + IDENTITY_CACHE_TTL_MS →
     cachedIdentityForDid did time s' = Some identity ∧
     lookups (hydrateIdentity did now' s') = lookups s ∧
     pendingIdentityLookups (hydrateIdentity did now' s') =
       pendingIdentityLookups s) ∧
  (stored + IDENTITY_CACHE_TTL_MS ≤ time →
     cachedIdentityForDid did time s' = None ∧
     lookups (hydrateIdentity did now' s') =
       if bool_decide (did ∈ pendingIdentityLookups s) then lookups s
       else lookups s ++ [did]) ∧
  (∀ other, other ≠ did →
     cachedIdentityForDid other time s' = cachedIdentityForDid other time s).
Proof.
  intros did s' stored time.
  assert (identityCache s' =
            <[did := CacheEntry.mk identity (stored + IDENTITY_CACHE_TTL_MS)]>
              (identityCache s) ∧
          pendingIdentityLookups s' = pendingIdentityLookups s ∧
          lookups s' = lookups s) as (Hc & Hp & Hl).
  { unfold s', cacheLocalIdentity.
    match goal with |- context [applyIdentityToOverlay ?i ?n ?s0] =>
      destruct (applyIdentityToOverlay_identity i n s0) as (-> & -> & ->)
    end. done. }
  clearbody s'. split_and!; [done| | |].
  - intros Hnow. unfold cachedIdentityForDid, hydrateIdentity.
    rewrite Hc, lookup_insert_eq. cbn [CacheEntry.expiresAt CacheEntry.identity].
    rewrite bool_decide_false by lia. rewrite bool_decide_true by lia.
    cbv beta iota. cbn [CacheEntry.identity].
    destruct (applyIdentityToOverlay_identity identity (Clock.read now' 1) s')
      as (_ & -> & ->).
    done.
  - intros Hnow. unfold cachedIdentityForDid, hydrateIdentity.
    rewrite Hc, lookup_insert_eq. cbn [CacheEntry.expiresAt CacheEntry.identity].
    rewrite bool_decide_true by lia. rewrite bool_decide_false by lia.
    rewrite Hp. split; [done|]. case_bool_decide; [done|]. simpl. by rewrite Hl.
  - intros other Hne. unfold cachedIdentityForDid.
    by rewrite Hc, lookup_insert_ne.
Qed.

(** X13.  When the lookup for a participant settles, the marker of the
    lookup in flight is removed whatever the outcome, and no other
    marker is touched.  A lookup that found nothing or failed leaves
    the cache, the chat and the queue as they were, so the next
    [hydrateIdentity] for the participant starts a new lookup if the
    cache holds no valid entry when it reads the clock; a lookup that
    found an identity stores it for 15 minutes from the reading of the
    clock at that moment. *)
Theorem lookup_settles_marker did outcome now now' s :
  let s' := lookupSettled did outcome now s in
  let stored := Clock.read now 0 in
  let time := Clock.read now' 0 in
  (did ∉ pendingIdentityLookups s') ∧
  (∀ other, other ≠ did →
     (other ∈ pendingIdentityLookups s' ↔ other ∈ pendingIdentityLookups s)) ∧
  lookups s' = lookups s ∧
  (did ∉ pendingIdentityLookups s → s' = s) ∧
  (did ∈ pendingIdentityLookups s →
   match outcome with
   | LookupFound handle displayName avatarUrl =>
       time < stored + IDENTITY_CACHE_TTL_MS →
       cachedIdentityForDid did time s' =
         Some (ResolvedIdentity.mk did handle displayName avatarUrl)
   | _ =>
       s' = set_pendingIdentityLookups (pendingIdentityLookups s ∖ {[did]}) s ∧
       (cachedIdentityForDid did time s = None →
        lookups (hydrateIdentity did now' s') = lookups s ++ [did])
   end).
Proof.
  intros s' stored time. unfold s', lookupSettled.
  case_bool_decide as Hin; cycle 1.
  { split_and!; try done. }
  assert (∀ pending : gset string, did ∉ pending ∖ {[did]}) as Hgone.
  { intros pending [_ Hn]%elem_of_difference. by apply Hn, elem_of_singleton. }
  assert (∀ (pending : gset string) other,
            other ≠ did → other ∈ pending ∖ {[did]} ↔ other ∈ pending)
    as Hother.
  { intros pending other Hne. rewrite elem_of_difference, elem_of_singleton.
    split; [by intros [? _]|by intros ?]. }
  assert (∀ s1,
            set_pendingIdentityLookups
              (pendingIdentityLookups s ∖ {[did]}) s = s1 →
            cachedIdentityForDid did time s = None →
            lookups (hydrateIdentity did now' s1) = lookups s ++ [did])
    as Hretry.
  { intros s1 <-. unfold cachedIdentityForDid, hydrateIdentity. simpl.
    destruct (identityCache s !! did) as [cached|].
    - case_bool_decide as He; [|done]. intros _.
      rewrite (bool_decide_false (_ < _)) by (unfold time in He; lia).
      by rewrite bool_decide_false by apply Hgone.
    - intros _. by rewrite bool_decide_false by apply Hgone. }
  destruct outcome as [handle displayName avatarUrl| |].
  - match goal with |- context [applyIdentityToOverlay ?i ?n ?s0] =>
      destruct (applyIdentityToOverlay_identity i n s0) as (Hc & Hp & Hl);
      revert Hc Hp Hl; generalize (applyIdentityToOverlay i n s0)
    end.
    simpl. intros s1 Hc Hp Hl. split_and!.
    + apply Hgone.
    + intros other Hne. simpl. rewrite Hp. by apply Hother.
    + by rewrite <- Hl.
    + done.
    + intros _ Hnow. unfold cachedIdentityForDid. simpl.
      rewrite Hc, lookup_insert_eq. simpl.
      by rewrite bool_decide_false by lia.
  - split_and!; [apply Hgone|intros; by apply Hother|done|done|].
    intros _. split; [done|]. by apply Hretry.
  - split_and!; [apply Hgone|intros; by apply Hother|done|done|].
    intros _. split; [done|]. by apply Hretry.
Qed.

End IdentityProps.

Import IdentityProps.

(** ** The chat history *)

Module OverlayProps.

(** [keepLast n l]: the last [n] elements of [l]. *)
Definition keepLast {A} (n : nat) (l : list A) : list A :=
  drop (length l - n) l.

Lemma keepLast_length {A} n (l : list A) :
  length (keepLast n l) = (length l `min` n)%nat.
Proof. unfold keepLast. rewrite length_drop. lia. Qed.

Lemma keepLast_snoc {A} n (l : list A) x :
  (0 < n)%nat → keepLast n (keepLast n l ++ [x]) = keepLast n (l ++ [x]).
Proof.
  intros Hn. unfold keepLast at 1 3. rewrite !length_app, keepLast_length.
  unfold keepLast. simpl.
  destruct (decide (length l < n)%nat) as [Hlt|Hge].
  - replace (length l `min` n + 1 - n)%nat with 0%nat by lia.
    replace (length l + 1 - n)%nat with 0%nat by lia.
    replace (length l - n)%nat with 0%nat by lia.
    by rewrite !drop_0.
  - replace (length l `min` n + 1 - n)%nat with 1%nat by lia.
    rewrite !drop_app_le by (rewrite ?length_drop; lia).
    rewrite drop_drop. f_equal. f_equal. lia.
Qed.

Lemma keepLast_last {A} n (l : list A) x :
  (0 < n)%nat → last (keepLast n (l ++ [x])) = Some x.
Proof.
  intros Hn. unfold keepLast. rewrite length_app. simpl.
  rewrite drop_app_le by lia. apply last_snoc.
Qed.

Lemma pushChatMessage_eq did user text isCommand now id s :
  pushChatMessage did user text isCommand now id s =
    broadcast (Clock.read now 1)
      (set_chatMessages
         (keepLast MAX_CHAT_MESSAGES
            (chatMessages s ++
               [ChatMessage.mk id did user None None text isCommand
                  (Clock.read now 0)])) s).
Proof.
  unfold pushChatMessage. cbv zeta. case_bool_decide as Hlen; [done|].
  unfold keepLast.
  replace (length _ - MAX_CHAT_MESSAGES)%nat with 0%nat by lia. done.
Qed.

(** *** What a step does to the chat and to the snapshots sent *)

Definition chatKept (s s' : State) : Prop :=
  Forall2 sameText (chatMessages s) (chatMessages s').

Definition overlayStep (s s' : State) : Prop :=
  chatKept s s' ∧ pushed s `prefix_of` pushed s'.

Global Instance sameText_refl : Reflexive sameText.
Proof. by intros m. Qed.

Global Instance sameText_trans : Transitive sameText.
Proof.
  intros a b c (?&?&?&?&?) (?&?&?&?&?). unfold sameText. split_and!; congruence.
Qed.

Global Instance overlayStep_refl : Reflexive overlayStep.
Proof. intros s. split; [|done]. unfold chatKept. reflexivity. Qed.

Global Instance overlayStep_trans : Transitive overlayStep.
Proof.
  intros s1 s2 s3 [H12 P12] [H23 P23]. split; [|by etrans].
  unfold chatKept in *. by etrans.
Qed.

Lemma overlayStep_frame s s' :
  chatMessages s' = chatMessages s → pushed s' = pushed s → overlayStep s s'.
Proof.
  intros Hc Hp. unfold overlayStep, chatKept. rewrite Hc, Hp.
  split; [|done]. reflexivity.
Qed.

Lemma broadcast_overlayStep now s : overlayStep s (broadcast now s).
Proof.
  rewrite broadcast_eq. split.
  - unfold chatKept. simpl. reflexivity.
  - simpl. by apply prefix_app_r.
Qed.

Lemma applyIdentityToOverlay_overlayStep identity now s :
  overlayStep s (applyIdentityToOverlay identity now s).
Proof.
  destruct (applyIdentityToOverlay_fields identity now s)
    as (Hm & _ & _ & Hp).
  split.
  - unfold chatKept. rewrite Hm. clear. unfold patchMessages. cbn [fst].
    induction (chatMessages s) as [|m messages IH]; [constructor|].
    rewrite fmap_cons. constructor; [|done].
    pose proof (patchMessage_cases identity m) as H. unfold compose.
    destruct (patchMessage identity m) as [m' c]. by destruct H as (? & _).
  - destruct Hp as [->|[[data ->] _]]; [done|by apply prefix_app_r].
Qed.

Lemma hydrateIdentity_overlayStep did now s :
  overlayStep s (hydrateIdentity did now s).
Proof.
  unfold hydrateIdentity.
  match goal with |- context [match ?c with _ => _ end] =>
    destruct c as [cached|]
  end; [apply applyIdentityToOverlay_overlayStep|].
  case_bool_decide; by apply overlayStep_frame.
Qed.

Lemma cacheLocalIdentity_overlayStep identity now s :
  overlayStep s (cacheLocalIdentity identity now s).
Proof.
  unfold cacheLocalIdentity.
  etrans; [|apply applyIdentityToOverlay_overlayStep]. by apply overlayStep_frame.
Qed.

Lemma lookupSettled_overlayStep did outcome now s :
  overlayStep s (lookupSettled did outcome now s).
Proof.
  unfold lookupSettled. case_bool_decide; [|done].
  match goal with |- overlayStep _ (set_pendingIdentityLookups _ ?s1) =>
    assert (overlayStep s s1) as Hs1
  end.
  { destruct outcome; [|done..].
    etrans; [|apply applyIdentityToOverlay_overlayStep].
    by apply overlayStep_frame. }
  etrans; [done|]. by apply overlayStep_frame.
Qed.

Lemma consumerStep_chat s s' :
  consumerStep s s' → chatMessages s' = chatMessages s.
Proof. by intros ((? & _) & _). Qed.

Section WithDurations.
Variables K L : Z.

Lemma consumerLoop_pushed now s :
  pushed s `prefix_of` pushed (consumerLoop K L now s).
Proof.
  apply (consumerLoop_rule K L (λ s1, pushed s `prefix_of` pushed s1)
           (λ s1, pushed s `prefix_of` pushed s1)); [| | |done].
  - intros time s1 next H1 _ _. etrans; [done|]. rewrite broadcast_eq. simpl.
    by apply prefix_app_r.
  - intros time s1 H1 _. etrans; [done|]. unfold loopReturns.
    rewrite broadcast_eq. simpl. by apply prefix_app_r.
  - intros time s1 next parsed H1 _ _. etrans; [done|]. unfold loopDispatches.
    cbv zeta. rewrite broadcast_eq. simpl. by apply prefix_app_r.
Qed.

Lemma consumerLoop_overlayStep now s : overlayStep s (consumerLoop K L now s).
Proof.
  split; [|apply consumerLoop_pushed].
  unfold chatKept.
  rewrite (consumerStep_chat _ _ (consumerLoop_consumerStep K L now s)).
  reflexivity.
Qed.

Lemma processQueue_overlayStep now s : overlayStep s (processQueue K L now s).
Proof.
  unfold processQueue. destruct (processingQueue s); [done|].
  etrans; [|apply consumerLoop_overlayStep]. by apply overlayStep_frame.
Qed.

Lemma dispatchSettled_overlayStep ok now s :
  overlayStep s (dispatchSettled ok now s).
Proof.
  unfold dispatchSettled. destruct (consumer s); [done| |done].
  cbv zeta. etrans; [|by apply overlayStep_frame].
  etrans; [|apply broadcast_overlayStep]. by apply overlayStep_frame.
Qed.

Lemma queueDelayElapsed_overlayStep now s :
  overlayStep s (queueDelayElapsed K L now s).
Proof.
  unfold queueDelayElapsed. destruct (consumer s); [done..|].
  apply consumerLoop_overlayStep.
Qed.

Lemma enqueueSingleCommand_overlayStep command did now id s :
  overlayStep s (enqueueSingleCommand K L command did now id s).
Proof.
  rewrite enqueueSingleCommand_eq.
  etrans; [|apply processQueue_overlayStep].
  etrans; [|apply broadcast_overlayStep].
  unfold pushItem. cbv zeta. rewrite trimQueue_eq. by apply overlayStep_frame.
Qed.

Lemma enqueueCommand_overlayStep command did now id s :
  overlayStep s (enqueueCommand K L command did now id s).
Proof.
  unfold enqueueCommand.
  pose proof (enqueueSingleCommand_overlayStep (normalized command) did now id s)
    as H.
  revert H. generalize (enqueueSingleCommand K L (normalized command) did now id s).
  intros s' H. case_bool_decide; [done|]. etrans; [done|].
  by apply overlayStep_frame.
Qed.

Lemma repeatDelayElapsed_overlayStep k now id s :
  overlayStep s (repeatDelayElapsed K L k now id s).
Proof.
  unfold repeatDelayElapsed. destruct (repeaters s !! k) as [r|]; [|done].
  pose proof (enqueueSingleCommand_overlayStep (normalized (Repeater.command r))
                (Repeater.did r) now id s) as H.
  revert H.
  generalize (enqueueSingleCommand K L (normalized (Repeater.command r))
                (Repeater.did r) now id s).
  intros s' H. case_bool_decide; (etrans; [done|]); by apply overlayStep_frame.
Qed.

(** The state after the first three statements of the loop body for a
    chat record, and what is still to be done with it. *)
Lemma chatRecord_eq did text user handle displayName avatarUrl
    now messageId itemId s :
  let '(count, activity) :=
    recordChatterAndCountUnique did (Clock.read now 0) (chatterActivity s) in
  let allow := bool_decide (count < MIN_UNIQUE_CHATTERS_FOR_NO_SPAM) in
  let accepted := parseCommand K L text allow in
  let s1 :=
    pushChatMessage did user text (bool_decide (is_Some accepted))
      (Clock.sub now 1) messageId (set_chatterActivity activity s) in
  ∃ s3,
    overlayStep s1 s3 ∧ identityStep K L s1 s3 ∧
    chatRecord K L did text user handle displayName avatarUrl
      now messageId itemId s =
      match accepted with
      | Some parsedCommand =>
          enqueueCommand K L parsedCommand did (Clock.sub now 4) itemId s3
      | None => s3
      end.
Proof.
  unfold chatRecord.
  destruct (recordChatterAndCountUnique did _ (chatterActivity s))
    as [count activity].
  cbv zeta.
  set (allow := bool_decide (count < MIN_UNIQUE_CHATTERS_FOR_NO_SPAM)).
  set (accepted := parseCommand K L text allow).
  set (s1 := pushChatMessage _ _ _ _ _ _ _).
  match goal with
  | |- ∃ _, _ ∧ _ ∧ match _ with Some _ => _ | None => ?s3 end = _ =>
      exists s3
  end.
  split_and!; [| |done].
  - etrans; [|apply hydrateIdentity_overlayStep].
    destruct (localIdentityFromRecord _ _ _ _); [|done].
    apply cacheLocalIdentity_overlayStep.
  - etrans; [|apply hydrateIdentity_identityStep].
    destruct (localIdentityFromRecord _ _ _ _); [|done].
    apply cacheLocalIdentity_identityStep.
Qed.

Lemma step_overlayStep s now e :
  (∀ did text user handle displayName avatarUrl messageId itemId,
     e ≠ ChatRecord did text user handle displayName avatarUrl
           messageId itemId) →
  overlayStep s (step K L s (now, e)).
Proof.
  intros He. destruct e; unfold step; cbv beta iota.
  - by edestruct He.
  - rewrite sseStream_eq. apply broadcast_overlayStep.
  - apply dispatchSettled_overlayStep.
  - apply queueDelayElapsed_overlayStep.
  - apply repeatDelayElapsed_overlayStep.
  - apply lookupSettled_overlayStep.
Qed.

(** The chat message that [pushChatMessage] appends for a chat record. *)
Definition posted (createdAt : Z) (did user text : string) (isCommand : bool)
    (messageId : string) : ChatMessage.t :=
  ChatMessage.mk messageId did user None None text isCommand createdAt.

(** What a snapshot shows of the gate when it reads the tracker at
    [time]. *)
Definition shownGate (time : Z) (activity : list ChatterEntry.t)
  : SpamAbility.t :=
  let shown := (countUniqueChattersInWindow time activity).1 in
  SpamAbility.mk (bool_decide (shown < 3)) shown 3 10.

Lemma uniqueDids_suffix (activity activity' : list ChatterEntry.t) :
  activity' `suffix_of` activity → uniqueDids activity' ≤ uniqueDids activity.
Proof.
  intros [front ->]. unfold uniqueDids. apply inj_le, subseteq_size.
  intros did. rewrite !elem_of_list_to_set, fmap_app, elem_of_app. auto.
Qed.

(** A chat record reads the clock at place 0 for the gate, and
    [pushChatMessage] reads it again for [createdAt] and for its
    snapshot. *)
Lemma chatRecord_overlay did text user handle displayName avatarUrl
    now messageId itemId s :
  let s' :=
    chatRecord K L did text user handle displayName avatarUrl
      now messageId itemId s in
  let read :=
    recordChatterAndCountUnique did (Clock.read now 0) (chatterActivity s) in
  let allow := bool_decide (read.1 < MIN_UNIQUE_CHATTERS_FOR_NO_SPAM) in
  let message :=
    posted (Clock.read (Clock.sub now 1) 0) did user text
      (bool_decide (is_Some (parseCommand K L text allow))) messageId in
  let chat := keepLast MAX_CHAT_MESSAGES (chatMessages s ++ [message]) in
  Forall2 sameText chat (chatMessages s') ∧
  ∃ data rest,
    pushed s' = pushed s ++ data :: rest ∧
    OverlaySnapshot.chat data = chat ∧
    OverlaySnapshot.spamAbility data =
      shownGate (Clock.read (Clock.sub now 1) 1) read.2.
Proof.
  pose proof (chatRecord_eq did text user handle displayName avatarUrl
                now messageId itemId s) as H.
  cbv zeta in *.
  destruct (recordChatterAndCountUnique did _ (chatterActivity s))
    as [count activity].
  cbn [fst snd].
  set (allow := bool_decide (count < MIN_UNIQUE_CHATTERS_FOR_NO_SPAM)) in *.
  set (accepted := parseCommand K L text allow) in *.
  destruct H as (s3 & [Hchat Hpushed] & _ & ->).
  rewrite pushChatMessage_eq in Hchat, Hpushed.
  fold (posted (Clock.read (Clock.sub now 1) 0) did user text
          (bool_decide (is_Some accepted)) messageId)
    in Hchat, Hpushed.
  set (message := posted _ _ _ _ _ _) in *.
  set (chat := keepLast _ _) in *.
  rewrite broadcast_eq in Hpushed. unfold chatKept in Hchat.
  rewrite broadcast_eq in Hchat. cbn [chatMessages set_pushed
    set_chatterActivity set_chatMessages pushed] in Hchat, Hpushed.
  assert (overlayStep s3
            (match accepted with
             | Some parsedCommand =>
                 enqueueCommand K L parsedCommand did (Clock.sub now 4)
                   itemId s3
             | None => s3
             end)) as [Hchat' Hpushed'].
  { destruct accepted; [apply enqueueCommand_overlayStep|done]. }
  split; [by etrans|].
  assert (pushed s ++ [(snapshot (Clock.read (Clock.sub now 1) 1)
                          (set_chatMessages chat
                             (set_chatterActivity activity s))).1]
            `prefix_of`
          pushed (match accepted with
                  | Some parsedCommand =>
                      enqueueCommand K L parsedCommand did (Clock.sub now 4)
                        itemId s3
                  | None => s3
                  end)) as [rest ->] by (by etrans).
  eexists _, rest. split; [by rewrite <- List.app_assoc|].
  rewrite snapshot_eq. cbn [fst OverlaySnapshot.chat
    OverlaySnapshot.spamAbility chatMessages set_chatMessages
    chatterActivity set_chatterActivity].
  done.
Qed.

(** The chat records of a trace as chat messages: each has the reading
    of the clock at [createdAt] in [pushChatMessage]. *)
Definition posts (trace : list (Clock.t * Event)) : list ChatMessage.t :=
  omap (λ e, match e.2 with
             | ChatRecord did text user _ _ _ messageId _ =>
                 Some (posted (Clock.read (Clock.sub e.1 1) 0) did user text
                         false messageId)
             | _ => None
             end) trace.

(** Two messages for the same chat record. *)
Definition samePost (a b : ChatMessage.t) : Prop :=
  ChatMessage.id a = ChatMessage.id b ∧ ChatMessage.did a = ChatMessage.did b ∧
  ChatMessage.text a = ChatMessage.text b ∧
  ChatMessage.createdAt a = ChatMessage.createdAt b.

Lemma Forall2_compose {A B C} (R : A → B → Prop) (S : B → C → Prop)
    (T : A → C → Prop) l k m :
  (∀ a b c, R a b → S b c → T a c) →
  Forall2 R l k → Forall2 S k m → Forall2 T l m.
Proof.
  intros HT H. revert m. induction H as [|a b l k Hab _ IH]; intros m Hkm.
  - apply Forall2_nil_inv_l in Hkm as ->. constructor.
  - apply Forall2_cons_inv_l in Hkm as (c & m' & Hbc & Hm' & ->).
    constructor; eauto.
Qed.

Lemma sameText_samePost a b c : sameText b a → samePost b c → samePost a c.
Proof.
  intros (?&?&?&?&?) (?&?&?&?). unfold samePost. split_and!; congruence.
Qed.

Lemma chatKept_samePost s s' posts :
  chatKept s s' → Forall2 samePost (chatMessages s) posts →
  Forall2 samePost (chatMessages s') posts.
Proof.
  intros Hk%Forall2_flip Hp.
  eapply Forall2_compose; [|exact Hk|exact Hp]. apply sameText_samePost.
Qed.

Lemma posts_snoc trace e : posts (trace ++ [e]) = posts trace ++ posts [e].
Proof. unfold posts. by rewrite omap_app. Qed.

Lemma Forall2_keepLast {A B} (R : A → B → Prop) n l k :
  Forall2 R l k → Forall2 R (keepLast n l) (keepLast n k).
Proof.
  intros H. unfold keepLast. rewrite (Forall2_length _ _ _ H).
  by apply Forall2_drop.
Qed.

(** X14.  The chat history holds the newest [MAX_CHAT_MESSAGES] = 35
    chat records in their order: after any run it has one message for
    each of the last 35 chat records processed, with the id, the
    participant and the text of the record and the time that
    [pushChatMessage] read for it, and never more than 35 messages. *)
Theorem chat_history_keeps_newest trace :
  let s := run K L initial trace in
  Forall2 samePost (chatMessages s) (keepLast MAX_CHAT_MESSAGES (posts trace)) ∧
  length (chatMessages s) =
    (length (posts trace) `min` MAX_CHAT_MESSAGES)%nat ∧
  (length (chatMessages s) ≤ 35)%nat.
Proof.
  cbv zeta.
  assert (Forall2 samePost (chatMessages (run K L initial trace))
            (keepLast MAX_CHAT_MESSAGES (posts trace))) as H.
  { induction trace as [|[now e] trace IH] using rev_ind; [constructor|].
    rewrite run_snoc, posts_snoc.
    set (s := run K L initial trace) in *. clearbody s.
    destruct e as [did text user handle displayName avatarUrl messageId itemId
                  | | | | |];
      try (rewrite app_nil_r;
           match goal with |- Forall2 _ (chatMessages (step _ _ _ (_, ?e))) _ =>
             destruct (step_overlayStep s now e ltac:(done)) as [Hk _]
           end;
           by eapply chatKept_samePost).
    unfold step. cbv beta iota.
    destruct (chatRecord_overlay did text user handle displayName avatarUrl
                now messageId itemId s) as [Hchat _].
    cbv zeta in Hchat. apply Forall2_flip in Hchat.
    eapply Forall2_compose; [apply sameText_samePost|exact Hchat|].
    change (posts [(now, _)])
      with [posted (Clock.read (Clock.sub now 1) 0) did user text false
              messageId].
    rewrite <- (keepLast_snoc _ (posts trace)) by (unfold MAX_CHAT_MESSAGES; lia).
    apply Forall2_keepLast. apply Forall2_app; [done|].
    constructor; [|constructor]. by split_and!. }
  split; [done|]. apply Forall2_length in H. rewrite keepLast_length in H.
  split; [done|]. unfold MAX_CHAT_MESSAGES in H. lia.
Qed.

(** X15.  A chat record is always shown: its message is the last of
    the chat history after the event, with the reading of the clock in
    [pushChatMessage] as its time, flagged as a command exactly when
    the parser accepted its text under the gate, which was read at the
    first reading of the clock.  The first snapshot sent during the
    event shows the message last, and the gate as a new read of the
    tracker at the reading of the clock in [snapshot] finds it, with
    the threshold 3 and the window of 10 minutes: the count shown is
    at most the count of the gate, and it is that count when the clock
    has not moved on. *)
Theorem chat_record_is_shown did text user handle displayName avatarUrl
    now messageId itemId s :
  let s' :=
    chatRecord K L did text user handle displayName avatarUrl
      now messageId itemId s in
  let gateAt := Clock.read now 0 in
  let createdAt := Clock.read (Clock.sub now 1) 0 in
  let shownAt := Clock.read (Clock.sub now 1) 1 in
  let read := recordChatterAndCountUnique did gateAt (chatterActivity s) in
  let allow := bool_decide (read.1 < MIN_UNIQUE_CHATTERS_FOR_NO_SPAM) in
  let isCommand := bool_decide (is_Some (parseCommand K L text allow)) in
  (∃ message,
     last (chatMessages s') = Some message ∧
     ChatMessage.id message = messageId ∧ ChatMessage.did message = did ∧
     ChatMessage.text message = text ∧
     ChatMessage.createdAt message = createdAt ∧
     ChatMessage.isCommand message = isCommand) ∧
  length (chatMessages s') =
    ((length (chatMessages s) + 1) `min` MAX_CHAT_MESSAGES)%nat ∧
  ∃ data rest,
    pushed s' = pushed s ++ data :: rest ∧
    last (OverlaySnapshot.chat data) =
      Some (posted createdAt did user text isCommand messageId) ∧
    OverlaySnapshot.spamAbility data = shownGate shownAt read.2 ∧
    SpamAbility.uniqueChatters (OverlaySnapshot.spamAbility data) ≤ read.1 ∧
    (shownAt ≤ gateAt →
     OverlaySnapshot.spamAbility data = SpamAbility.mk allow read.1 3 10).
Proof.
  cbv zeta.
  destruct (chatRecord_overlay did text user handle displayName avatarUrl
              now messageId itemId s) as (Hchat & data & rest & Hp & Hd & Hg).
  cbv zeta in *.
  set (message := posted _ _ _ _ _ _) in *.
  assert (last (keepLast MAX_CHAT_MESSAGES (chatMessages s ++ [message])) =
            Some message) as Hlast.
  { apply keepLast_last. unfold MAX_CHAT_MESSAGES. lia. }
  split_and!.
  - apply last_Some in Hlast as [front Hfront]. rewrite Hfront in Hchat.
    apply Forall2_app_inv_l in Hchat as (front' & tail & _ & Htail & ->).
    apply Forall2_cons_inv_l in Htail as (m' & nil' & Hm & Hnil & ->).
    apply Forall2_nil_inv_l in Hnil as ->.
    exists m'. rewrite last_snoc. destruct Hm as (?&?&?&?&?).
    split_and!; by try symmetry.
  - rewrite <- (Forall2_length _ _ _ Hchat), keepLast_length, length_app.
    done.
  - exists data, rest. split_and!; [done|by rewrite Hd|done| |].
    + rewrite Hg. unfold shownGate, recordChatterAndCountUnique,
        countUniqueChattersInWindow.
      cbn [fst snd SpamAbility.uniqueChatters].
      apply uniqueDids_suffix, evictExpired_suffix.
    + intros Hle. rewrite Hg. unfold shownGate, recordChatterAndCountUnique,
        countUniqueChattersInWindow. cbn [fst snd].
      rewrite evictExpired_twice.
      by replace ((Clock.read now 0 - CHATTER_WINDOW_MS) `max`
                  (Clock.read (Clock.sub now 1) 1 - CHATTER_WINDOW_MS))
        with (Clock.read now 0 - CHATTER_WINDOW_MS) by lia.
Qed.

End WithDurations.

End OverlayProps.

Import OverlayProps.

(** ** The life of a queue item *)

Module QueueProps.

(** *** The life of a queue item *)

Definition statusRank (st : QueueStatus) : nat :=
  match st with
  | Queued => 0
  | Active => 1
  | Done | Error => 2
  end.

(** The status stays or advances. *)
Definition moves (a b : QueueStatus) : Prop :=
  a = b ∨ (statusRank a < statusRank b)%nat.

(** Two versions of an item for the same command. *)
Definition sameJob (a b : QueueItem.t) : Prop :=
  QueueItem.id a = QueueItem.id b ∧ QueueItem.did a = QueueItem.did b ∧
  QueueItem.command a = QueueItem.command b ∧
  QueueItem.createdAt a = QueueItem.createdAt b.

(** From [s] to [s'] every object stays, with its command and a
    status that did not go back; an object that left the status
    [queued] was in the queue; and the queue took up no object that
    existed and was not in it. *)
Definition progress (s s' : State) : Prop :=
  (∀ ref item,
     heap s !! ref = Some item →
     ∃ item',
       heap s' !! ref = Some item' ∧ sameJob item item' ∧
       moves (QueueItem.status item) (QueueItem.status item') ∧
       (QueueItem.status item = Queued → QueueItem.status item' ≠ Queued →
        ref ∈ commandQueue s)) ∧
  (∀ ref, ref ∈ commandQueue s' → is_Some (heap s !! ref) →
          ref ∈ commandQueue s).

Global Instance moves_refl : Reflexive moves.
Proof. intros a. by left. Qed.

Global Instance moves_trans : Transitive moves.
Proof. intros a b c [->|Hab] [->|Hbc]; unfold moves; try auto. right. lia. Qed.

Global Instance sameJob_refl : Reflexive sameJob.
Proof. by intros a. Qed.

Global Instance sameJob_trans : Transitive sameJob.
Proof.
  intros a b c (?&?&?&?) (?&?&?&?). unfold sameJob. split_and!; congruence.
Qed.

Global Instance progress_refl : Reflexive progress.
Proof. intros s. split; [|done]. intros ref item Hitem. by exists item. Qed.

Global Instance progress_trans : Transitive progress.
Proof.
  intros s1 s2 s3 [H12 Q12] [H23 Q23]. split.
  - intros ref item Hitem.
    destruct (H12 _ _ Hitem) as (item2 & Hitem2 & Hjob2 & Hmove2 & Hq2).
    destruct (H23 _ _ Hitem2) as (item3 & Hitem3 & Hjob3 & Hmove3 & Hq3).
    exists item3. split_and!; [done|by etrans|by etrans|].
    intros Hst Hst3.
    destruct (decide (QueueItem.status item2 = Queued)) as [Hst2|Hst2]; [|auto].
    apply Q12; [auto|by eexists].
  - intros ref Hin Hsome. apply Q12; [|done]. apply Q23; [done|].
    destruct Hsome as [item Hitem].
    destruct (H12 _ _ Hitem) as (item2 & Hitem2 & _). by eexists.
Qed.

Lemma progress_frame s s' :
  heap s' = heap s → commandQueue s' = commandQueue s → progress s s'.
Proof.
  intros Hh Hq. split.
  - intros ref item Hitem. exists item. rewrite Hh. by split_and!.
  - intros ref. by rewrite Hq.
Qed.

Lemma identityStep_progress K L s s' : identityStep K L s s' → progress s s'.
Proof.
  intros ((Hq & _) & Hh & _). split.
  - intros ref item Hitem. specialize (Hh ref). rewrite Hitem in Hh.
    inversion Hh as [a item' (?&?&?&Hst&?) Ha Hb|]; subst.
    exists item'. split_and!; [done|by split_and!|by left|].
    intros ? ?. congruence.
  - intros ref. by rewrite Hq.
Qed.

Lemma setStatus_progress next st s :
  (∀ item, heap s !! next = Some item →
           moves (QueueItem.status item) st ∧
           (QueueItem.status item = Queued → next ∈ commandQueue s)) →
  progress s (setStatus next st s).
Proof.
  intros Hnext. split; [|done].
  intros ref item Hitem. unfold setStatus. simpl.
  destruct (decide (ref = next)) as [->|Hne].
  - rewrite lookup_alter_eq, Hitem. simpl. eexists. split; [done|].
    destruct (Hnext _ Hitem) as [Hm Hq]. split_and!; [done|done|auto].
  - rewrite lookup_alter_ne by done. exists item. by split_and!.
Qed.

Section WithDurations.
Variables K L : Z.

Lemma findQueued_progress next st s :
  findQueued s = Some next → st ≠ Queued →
  progress s (setStatus next st s).
Proof.
  intros (Hin & item & Hitem & Hst)%findQueued_lookup Hne.
  apply setStatus_progress. intros item' Hitem'. simplify_eq.
  split; [|done]. rewrite Hst. right. destruct st; simpl; try lia. done.
Qed.

Lemma consumerLoop_progress now s : progress s (consumerLoop K L now s).
Proof.
  apply (consumerLoop_rule K L (progress s) (progress s)); [| | |done].
  - intros time s1 next H1 Hnext _. etrans; [done|].
    etrans; [by apply (findQueued_progress next Error)|].
    apply progress_frame; by rewrite broadcast_eq.
  - intros time s1 H1 _. etrans; [done|]. unfold loopReturns.
    apply progress_frame; by rewrite broadcast_eq.
  - intros time s1 next parsed H1 Hnext _. etrans; [done|].
    unfold loopDispatches.
    cbv zeta. etrans; [by apply (findQueued_progress next Active)|].
    apply progress_frame; by rewrite broadcast_eq.
Qed.

Lemma processQueue_progress now s : progress s (processQueue K L now s).
Proof.
  unfold processQueue. destruct (processingQueue s); [done|].
  etrans; [|apply consumerLoop_progress]. by apply progress_frame.
Qed.

Lemma dispatchSettled_progress ok now s :
  Inv K L s → progress s (dispatchSettled ok now s).
Proof.
  intros [_ _ Ha _]. unfold dispatchSettled.
  destruct (consumer s) as [|next|] eqn:Hc; [done| |done].
  destruct (Ha _ Hc) as (item & Hitem & Hact). cbv zeta.
  etrans; [apply (setStatus_progress next (if ok then Done else Error))|].
  - intros item' Hitem'. simplify_eq. unfold isActive in Hact. rewrite Hact.
    split; [|done]. right. destruct ok; simpl; lia.
  - apply progress_frame; by rewrite broadcast_eq.
Qed.

Lemma queueDelayElapsed_progress now s :
  progress s (queueDelayElapsed K L now s).
Proof.
  unfold queueDelayElapsed. destruct (consumer s); [done..|].
  apply consumerLoop_progress.
Qed.

Lemma pushItem_progress item s : progress s (pushItem item s).
Proof.
  unfold pushItem. cbv zeta. rewrite trimQueue_eq.
  pose proof (fresh_ref_new s) as Hnew. split.
  - intros ref it Hit. simpl. exists it.
    rewrite lookup_insert_ne by (intros <-; congruence). by split_and!.
  - intros ref. simpl. intros Hin%subseteq_drop [it Hit].
    apply elem_of_app in Hin as [Hin|Hin%list_elem_of_singleton]; [done|].
    congruence.
Qed.

Lemma enqueueSingleCommand_progress command did now id s :
  progress s (enqueueSingleCommand K L command did now id s).
Proof.
  rewrite enqueueSingleCommand_eq.
  etrans; [apply pushItem_progress|].
  etrans; [|apply processQueue_progress].
  apply progress_frame; by rewrite broadcast_eq.
Qed.

Lemma enqueueCommand_progress command did now id s :
  progress s (enqueueCommand K L command did now id s).
Proof.
  unfold enqueueCommand.
  pose proof (enqueueSingleCommand_progress (normalized command) did now id s)
    as H.
  revert H. generalize (enqueueSingleCommand K L (normalized command) did now id s).
  intros s' H. case_bool_decide; [done|]. etrans; [done|].
  by apply progress_frame.
Qed.

Lemma repeatDelayElapsed_progress k now id s :
  progress s (repeatDelayElapsed K L k now id s).
Proof.
  unfold repeatDelayElapsed. destruct (repeaters s !! k) as [r|]; [|done].
  pose proof (enqueueSingleCommand_progress (normalized (Repeater.command r))
                (Repeater.did r) now id s) as H.
  revert H.
  generalize (enqueueSingleCommand K L (normalized (Repeater.command r))
                (Repeater.did r) now id s).
  intros s' H. case_bool_decide; (etrans; [done|]); by apply progress_frame.
Qed.

Lemma step_progress s e : Inv K L s → progress s (step K L s e).
Proof.
  intros HI. destruct e as [now e].
  destruct e; unfold step; cbv beta iota.
  - destruct (chatRecord_cases K L did text user handle displayName avatarUrl
                now messageId itemId s)
      as (s4 & Hstep & [->|(raw & allow & p & Hp & ->)]).
    + by apply (identityStep_progress K L).
    + etrans; [by apply (identityStep_progress K L)|].
      apply enqueueCommand_progress.
  - apply (identityStep_progress K L). rewrite sseStream_eq.
    apply broadcast_identityStep.
  - by apply dispatchSettled_progress.
  - apply queueDelayElapsed_progress.
  - apply repeatDelayElapsed_progress.
  - apply (identityStep_progress K L). apply lookupSettled_identityStep.
Qed.

Lemma run_progress trace : ∀ s, Inv K L s → progress s (run K L s trace).
Proof.
  induction trace as [|e trace IH]; intros s HI; [done|].
  etrans; [by apply step_progress|]. apply IH. by apply step_Inv.
Qed.

(** *** The order of the dispatches when the queue overflows *)

(** Has the object left the status [queued]? *)
Definition leftQueued (s : State) (ref : nat) : Prop :=
  isQueued (heap s) ref = false.

Global Instance leftQueued_dec s ref : Decision (leftQueued s ref).
Proof. unfold leftQueued. apply _. Defined.

(** The arrivals are a part whose items were dispatched or lost, with
    the calls made so far for those dispatched, and then items that
    are all [queued]. *)
Definition ledger (s : State) : Prop :=
  ∃ old waiting,
    arrivals s = old ++ waiting ∧
    Forall (λ r, isQueued (heap s) r = true) waiting ∧
    Forall (λ r, isQueued (heap s) r = true → r ∉ commandQueue s) old ∧
    dispatched s = callsOf K L s (filter (leftQueued s) old).

Lemma filter_leftQueued_ext s s' (refs : list nat) :
  (∀ r, r ∈ refs → isQueued (heap s') r = isQueued (heap s) r) →
  filter (leftQueued s') refs = filter (leftQueued s) refs.
Proof.
  intros H. induction refs as [|r refs IH]; [done|].
  rewrite !filter_cons.
  assert (leftQueued s' r ↔ leftQueued s r) as Hiff.
  { unfold leftQueued. by rewrite (H r) by (by left). }
  rewrite IH by (intros; apply H; by right).
  destruct (decide (leftQueued s' r)), (decide (leftQueued s r));
    [done|tauto|tauto|done].
Qed.

Lemma ledger_ext s s' :
  arrivals s' = arrivals s → commandQueue s' = commandQueue s →
  dispatched s' = dispatched s →
  (∀ ref, isQueued (heap s') ref = isQueued (heap s) ref) →
  sameCommands (heap s) (heap s') →
  ledger s → ledger s'.
Proof.
  intros Ha Hq Hd Hh Hc (old & waiting & Hsplit & Hw & Ho & Hcalls).
  exists old, waiting. rewrite Ha, Hq, Hd.
  rewrite (callsOf_sameCommands K L s s') by done.
  rewrite (filter_leftQueued_ext s s') by (intros; apply Hh).
  split_and!; [done| | |done].
  - eapply Forall_impl; [done|]. simpl. intros r. by rewrite Hh.
  - eapply Forall_impl; [done|]. simpl. intros r. by rewrite Hh.
Qed.

Lemma identityStep_ledger s s' : identityStep K L s s' → ledger s → ledger s'.
Proof.
  intros ((Hq&Ha&_&_&_&_&Hd)&Hh&_). apply ledger_ext; [done|done|done| |].
  - intros ref. by apply isQueued_sameWork.
  - by apply sameWork_sameCommands.
Qed.

Lemma NoDup_split_eq {A} (a b a' b' : list A) x :
  NoDup (a ++ x :: b) → a ++ x :: b = a' ++ x :: b' → a = a' ∧ b = b'.
Proof.
  revert a'. induction a as [|y a IH]; intros [|y' a'] Hnd Heq.
  - by injection Heq.
  - simpl in Heq. injection Heq as <- Heq. exfalso.
    apply NoDup_cons in Hnd as [Hx _]. apply Hx. rewrite Heq.
    apply elem_of_app. right. by left.
  - simpl in Heq. injection Heq as -> Heq. exfalso.
    simpl in Hnd. apply NoDup_cons in Hnd as [Hx _]. apply Hx.
    apply elem_of_app. right. by left.
  - simpl in Heq. injection Heq as -> Heq. simpl in Hnd.
    apply NoDup_cons in Hnd as [_ Hnd].
    by destruct (IH a' Hnd Heq) as [-> ->].
Qed.

Lemma loopDispatches_ledger now next parsed s :
  Core K L None s → findQueued s = Some next →
  parseCommand K L (commandOf s next) false = Some parsed →
  ledger s → ledger (loopDispatches now next parsed s).
Proof.
  intros HC Hfind Hparse (old & waiting & Hsplit & Hw & Ho & Hcalls).
  pose proof (core_nodup _ _ _ _ HC) as Hnd.
  pose proof (core_queue _ _ _ _ HC) as Hqueue.
  apply find_first in Hfind as (older & newer & Hcq & Hq & Hold).
  assert (next ∈ commandQueue s) as Hin.
  { rewrite Hcq. apply elem_of_app. right. by left. }
  assert (next ∈ waiting) as Hnw.
  { assert (next ∈ arrivals s) as Ha.
    { rewrite Hqueue in Hin. by apply (subseteq_drop _ _ _ Hin). }
    rewrite Hsplit in Ha. apply elem_of_app in Ha as [Ha|Ha]; [|done].
    exfalso. by apply (proj1 (Forall_forall _ _) Ho next Ha Hq). }
  apply list_elem_of_split in Hnw as (w1 & w2 & ->).
  set (pre := take (length (arrivals s) - MAX_QUEUE_ITEMS) (arrivals s)).
  assert (arrivals s = (pre ++ older) ++ next :: newer) as Hsplit'.
  { rewrite <- (take_drop (length (arrivals s) - MAX_QUEUE_ITEMS) (arrivals s))
      at 1.
    fold pre. unfold newest in Hqueue. rewrite <- Hqueue, Hcq.
    by rewrite <- List.app_assoc. }
  assert (old ++ w1 = pre ++ older ∧ w2 = newer) as [Hleft ->].
  { apply (NoDup_split_eq _ _ _ _ next).
    - rewrite <- List.app_assoc. by rewrite <- Hsplit.
    - rewrite <- List.app_assoc. by rewrite <- Hsplit, Hsplit'. }
  rewrite Hsplit in Hnd. apply NoDup_app in Hnd as (Hold_nd & Hdisj & Hnd).
  apply NoDup_app in Hnd as (_ & Hdisj' & Hnd).
  apply NoDup_cons in Hnd as [Hnext_new _].
  apply Forall_app in Hw as [Hw1 Hw2]. apply Forall_cons in Hw2 as [_ Hw2].
  destruct (loopDispatches_fields now next parsed s) as (Hq' & Hh' & Hd' & _).
  set (s' := loopDispatches now next parsed s) in *.
  assert (∀ r, isQueued (heap s') r =
               if decide (r = next) then false else isQueued (heap s) r) as Hst.
  { intros r. rewrite Hh'.
    pose proof (isQueued_setStatus s next Active r) as Hst.
    simpl in Hst. rewrite Hst. case_decide; [|done]. by rewrite andb_false_r. }
  assert (sameCommands (heap s) (heap s')) as Hsame.
  { rewrite Hh'. apply sameCommands_alter_status. }
  assert (next ∉ old) as Hno.
  { intros Hin'. apply (Hdisj next Hin'). apply elem_of_app. right. by left. }
  assert (next ∉ w1) as Hnw1.
  { intros Hin'. apply (Hdisj' next Hin'). by left. }
  exists (old ++ w1 ++ [next]), newer. split_and!.
  - unfold s', loopDispatches. cbv zeta. rewrite broadcast_eq. simpl.
    rewrite Hsplit. by rewrite <- !List.app_assoc.
  - apply Forall_forall. intros r Hr. rewrite Hst, decide_False.
    + by apply (proj1 (Forall_forall _ _) Hw2).
    + by intros ->.
  - rewrite Hq'. apply Forall_app. split; [|apply Forall_app; split].
    + apply Forall_forall. intros r Hr. rewrite Hst.
      case_decide; [done|]. by apply (proj1 (Forall_forall _ _) Ho).
    + apply Forall_forall. intros r Hr _ Hrq.
      pose proof (proj1 (Forall_forall _ _) Hw1 r Hr) as Hrqueued.
      rewrite Hcq in Hrq.
      apply elem_of_app in Hrq as [Hrq|Hrq].
      * pose proof (proj1 (Forall_forall _ _) Hold r Hrq). congruence.
      * apply elem_of_cons in Hrq as [->|Hrq]; [done|].
        apply (Hdisj' r Hr). by right.
    + constructor; [|done]. by rewrite Hst, decide_True.
  - rewrite Hd', (callsOf_sameCommands K L s s') by done.
    rewrite !filter_app, !callsOf_app.
    assert (filter (leftQueued s') old = filter (leftQueued s) old) as ->.
    { apply filter_leftQueued_ext. intros r Hr. rewrite Hst, decide_False;
        [done|by intros ->]. }
    assert (filter (leftQueued s') w1 = []) as ->.
    { clear -Hw1 Hst Hnw1. induction w1 as [|r w1 IH]; [done|].
      apply Forall_cons in Hw1 as [Hr Hw1].
      rewrite filter_cons, decide_False.
      - apply IH; [done|]. intros ?. apply Hnw1. by right.
      - unfold leftQueued. rewrite Hst, decide_False; [congruence|].
        intros ->. apply Hnw1. by left. }
    assert (filter (leftQueued s') [next] = [next]) as ->.
    { rewrite filter_cons, decide_True; [done|].
      unfold leftQueued. by rewrite Hst, decide_True. }
    rewrite <- Hcalls. simpl. f_equal.
    unfold callsOf, callOf. simpl. by rewrite Hparse.
Qed.

Lemma consumerLoop_ledger now s :
  Core K L None s → ledger s → ledger (consumerLoop K L now s).
Proof.
  intros HC Hl. rewrite consumerLoop_unfold.
  destruct (findQueued s) as [next|] eqn:Hfind.
  - destruct (findQueued_lookup _ _ Hfind) as (_ & item & Hitem & _).
    destruct (core_parse _ _ _ _ HC _ _ Hitem) as [p Hp].
    assert (parseCommand K L (commandOf s next) false = Some p) as Hparse.
    { unfold commandOf. by rewrite Hitem. }
    rewrite Hparse. by apply loopDispatches_ledger.
  - unfold loopReturns. rewrite broadcast_eq. revert Hl.
    apply ledger_ext; [done|done|done|done|reflexivity].
Qed.

Lemma processQueue_ledger now s :
  Inv K L s → ledger s → ledger (processQueue K L now s).
Proof.
  intros [HC Hf _ _] Hl. unfold processQueue.
  destruct (processingQueue s) eqn:Hp; [done|].
  assert (consumer s = Idle) as Hidle.
  { destruct (consumer s) eqn:Hc; [done|..];
      by (assert (false = true) by by apply Hf). }
  rewrite Hidle in HC. apply consumerLoop_ledger.
  - by eapply Core_frame.
  - revert Hl. apply ledger_ext; [done|done|done|done|reflexivity].
Qed.

Lemma dispatchSettled_ledger ok now s :
  Inv K L s → ledger s → ledger (dispatchSettled ok now s).
Proof.
  intros [_ _ Ha _]. unfold dispatchSettled.
  destruct (consumer s) as [|next|] eqn:Hc; [done| |done].
  destruct (Ha _ Hc) as (item & Hitem & Hact).
  rewrite broadcast_eq. apply ledger_ext; [done|done|done| |].
  - intros r. simpl.
    pose proof (isQueued_setStatus s next (if ok then Done else Error) r) as Hst.
    simpl in Hst. rewrite Hst. case_decide as Hr; [|done]. subst r.
    unfold isQueued. rewrite Hitem. unfold isActive in Hact.
    rewrite Hact. by destruct ok.
  - apply sameCommands_alter_status.
Qed.

Lemma queueDelayElapsed_ledger now s :
  Inv K L s → ledger s → ledger (queueDelayElapsed K L now s).
Proof.
  intros [HC _ _ _] Hl. unfold queueDelayElapsed.
  destruct (consumer s) eqn:Hc; [done|done|].
  apply consumerLoop_ledger; [exact HC|done].
Qed.

Lemma pushItem_ledger item s :
  Inv K L s → QueueItem.status item = Queued →
  ledger s → ledger (pushItem item s).
Proof.
  intros [HC _ _ _] Hst (old & waiting & Hsplit & Hw & Ho & Hcalls).
  destruct (pushItem_fields item s) as (Ha' & Hh' & Hd' & _ & _ & Hq').
  assert (∀ r, r ∈ arrivals s →
               heap (pushItem item s) !! r = heap s !! r) as Hold.
  { intros r Hr. rewrite Hh', lookup_insert_ne; [done|].
    intros <-. by eapply old_ref_not_fresh. }
  assert (∀ r, r ∈ arrivals s →
               isQueued (heap (pushItem item s)) r = isQueued (heap s) r)
    as Holdq.
  { intros r Hr. unfold isQueued. by rewrite Hold. }
  exists old, (waiting ++ [fresh (dom (heap s))]). split_and!.
  - by rewrite Ha', Hsplit, <- List.app_assoc.
  - apply Forall_app. split.
    + apply Forall_forall. intros r Hr. rewrite Holdq.
      * by apply (proj1 (Forall_forall _ _) Hw).
      * rewrite Hsplit. apply elem_of_app. by right.
    + constructor; [|done]. unfold isQueued.
      rewrite Hh', lookup_insert_eq. by apply bool_decide_eq_true.
  - apply Forall_forall. intros r Hr Hrq Hin.
    assert (r ∈ arrivals s) as Hra.
    { rewrite Hsplit. apply elem_of_app. by left. }
    rewrite Holdq in Hrq by done.
    apply (proj1 (Forall_forall _ _) Ho r Hr Hrq).
    rewrite Hq' in Hin. apply subseteq_drop in Hin.
    apply elem_of_app in Hin as [Hin|Hin%list_elem_of_singleton]; [done|].
    exfalso. by eapply old_ref_not_fresh.
  - rewrite Hd', Hcalls.
    assert (filter (leftQueued (pushItem item s)) old =
            filter (leftQueued s) old) as ->.
    { apply filter_leftQueued_ext. intros r Hr. apply Holdq.
      rewrite Hsplit. apply elem_of_app. by left. }
    symmetry. apply callsOf_lookup.
    intros r [_ Hr]%list_elem_of_filter. apply Hold.
    rewrite Hsplit. apply elem_of_app. by left.
Qed.

Lemma enqueueSingleCommand_ledger command did now id s :
  Inv K L s → is_Some (parseCommand K L command false) →
  ledger s → ledger (enqueueSingleCommand K L command did now id s).
Proof.
  intros H Hparse Hl. rewrite enqueueSingleCommand_eq.
  apply processQueue_ledger.
  - eapply Inv_identityStep; [|apply broadcast_identityStep].
    by apply pushItem_Inv.
  - eapply identityStep_ledger; [apply broadcast_identityStep|].
    by apply pushItem_ledger.
Qed.

Lemma ledger_set_repeaters rs s : ledger s → ledger (set_repeaters rs s).
Proof. apply ledger_ext; [done|done|done|done|reflexivity]. Qed.

Lemma step_ledger s e : Inv K L s → ledger s → ledger (step K L s e).
Proof.
  intros HI Hl. destruct e as [now e].
  destruct e; unfold step; cbv beta iota.
  - destruct (chatRecord_cases K L did text user handle displayName avatarUrl
                now messageId itemId s)
      as (s4 & Hstep & [->|(raw & allow & p & Hp & ->)]);
      [by eapply identityStep_ledger|].
    unfold enqueueCommand.
    assert (ledger (enqueueSingleCommand K L (normalized p) did (Clock.sub now 4) itemId s4))
      as Hl'.
    { apply enqueueSingleCommand_ledger.
      - by eapply Inv_identityStep.
      - rewrite (reparse_normalized K L _ _ _ Hp). by eexists.
      - by eapply identityStep_ledger. }
    revert Hl'.
    generalize (enqueueSingleCommand K L (normalized p) did (Clock.sub now 4) itemId s4).
    intros s' Hl'. case_bool_decide; [done|]. by apply ledger_set_repeaters.
  - eapply identityStep_ledger; [|done]. rewrite sseStream_eq.
    apply broadcast_identityStep.
  - by apply dispatchSettled_ledger.
  - by apply queueDelayElapsed_ledger.
  - unfold repeatDelayElapsed.
    destruct (repeaters s !! k) as [r|] eqn:Hk; [|done].
    assert (is_Some (parseCommand K L (normalized (Repeater.command r)) false))
      as Hparse.
    { eapply (proj1 (Forall_forall _ _) (inv_repeaters _ _ _ HI)).
      by eapply list_elem_of_lookup_2. }
    pose proof (enqueueSingleCommand_ledger (normalized (Repeater.command r))
                  (Repeater.did r) now itemId s HI Hparse Hl) as Hl'.
    revert Hl'.
    generalize (enqueueSingleCommand K L (normalized (Repeater.command r))
                  (Repeater.did r) now itemId s).
    intros s' Hl'. case_bool_decide; by apply ledger_set_repeaters.
  - eapply identityStep_ledger; [apply lookupSettled_identityStep|done].
Qed.

Lemma run_ledger trace : ∀ s, Inv K L s → ledger s → ledger (run K L s trace).
Proof.
  induction trace as [|e trace IH]; intros s HI Hl; [done|].
  apply IH; [by apply step_Inv|by apply step_ledger].
Qed.

Lemma ledger_initial : ledger initial.
Proof. exists [], []. by split_and!. Qed.

Lemma filter_all_queued s (refs : list nat) :
  Forall (λ r, isQueued (heap s) r = true) refs →
  filter (leftQueued s) refs = [].
Proof.
  induction 1 as [|r refs Hr _ IH]; [done|].
  rewrite filter_cons, decide_False; [done|]. unfold leftQueued. congruence.
Qed.

Lemma drained_set_repeaters rs s : drained s → drained (set_repeaters rs s).
Proof. done. Qed.

Lemma step_drained s e : Inv K L s → drained s → drained (step K L s e).
Proof.
  intros HI Hd. destruct e as [now e].
  destruct e; unfold step; cbv beta iota.
  - destruct (chatRecord_cases K L did text user handle displayName avatarUrl
                now messageId itemId s)
      as (s4 & Hstep & [->|(raw & allow & p & Hp & ->)]);
      [by eapply identityStep_drained|].
    unfold enqueueCommand.
    assert (drained (enqueueSingleCommand K L (normalized p) did (Clock.sub now 4) itemId s4))
      as Hd'.
    { apply enqueueSingleCommand_drained.
      - by eapply Inv_identityStep.
      - rewrite (reparse_normalized K L _ _ _ Hp). by eexists. }
    revert Hd'.
    generalize (enqueueSingleCommand K L (normalized p) did (Clock.sub now 4) itemId s4).
    intros s' Hd'. by case_bool_decide.
  - eapply identityStep_drained; [|done]. rewrite sseStream_eq.
    apply (broadcast_identityStep K L).
  - by apply dispatchSettled_drained.
  - by apply queueDelayElapsed_drained.
  - unfold repeatDelayElapsed.
    destruct (repeaters s !! k) as [r|] eqn:Hk; [|done].
    assert (is_Some (parseCommand K L (normalized (Repeater.command r)) false))
      as Hparse.
    { eapply (proj1 (Forall_forall _ _) (inv_repeaters _ _ _ HI)).
      by eapply list_elem_of_lookup_2. }
    pose proof (enqueueSingleCommand_drained K L
                  (normalized (Repeater.command r))
                  (Repeater.did r) now itemId s HI Hparse) as Hd'.
    revert Hd'.
    generalize (enqueueSingleCommand K L (normalized (Repeater.command r))
                  (Repeater.did r) now itemId s).
    intros s' Hd'. by case_bool_decide.
  - eapply identityStep_drained; [apply (lookupSettled_identityStep K L)|done].
Qed.

Lemma run_drained trace : ∀ s, Inv K L s → drained s → drained (run K L s trace).
Proof.
  induction trace as [|e trace IH]; intros s HI Hd; [done|].
  apply IH; [by apply step_Inv|by apply step_drained].
Qed.

Lemma find_none_all {A} (f : A → bool) (l : list A) :
  find f l = None → Forall (λ x, f x = false) l.
Proof.
  induction l as [|x l IH]; [constructor|]. simpl.
  destruct (f x) eqn:E; [done|]. intros H. constructor; auto.
Qed.

(** *** The id of the active command *)

(** [activeCommandId] is the id of the item that is being dispatched. *)
Definition namesActive (s : State) : Prop :=
  activeCommandId s = idOf s <$> nextOf (consumer s).

Lemma idOf_sameWork s s' ref :
  sameWorkHeap (heap s) (heap s') → idOf s' ref = idOf s ref.
Proof.
  intros H. unfold idOf. destruct (H ref) as [a b (Hid&_)|]; [|done].
  simpl. by rewrite Hid.
Qed.

Lemma identityStep_namesActive s s' :
  identityStep K L s s' → namesActive s → namesActive s'.
Proof.
  intros ((_&_&Ha&_&Hc&_)&Hh&_) Hn. unfold namesActive.
  rewrite Ha, Hc, Hn. destruct (nextOf (consumer s)) as [next|]; [|done].
  simpl. by rewrite (idOf_sameWork s s').
Qed.

Lemma consumerLoop_namesActive now s : namesActive (consumerLoop K L now s).
Proof.
  apply (consumerLoop_rule K L (λ _, True) namesActive); [done| | |done].
  - intros time s1 _ _. unfold loopReturns, namesActive. by rewrite broadcast_eq.
  - intros time s1 next parsed _ _ _. unfold loopDispatches, namesActive.
    cbv zeta. by rewrite broadcast_eq.
Qed.

Lemma processQueue_namesActive now s :
  namesActive s → namesActive (processQueue K L now s).
Proof.
  unfold processQueue. destruct (processingQueue s); [done|]. intros _.
  apply consumerLoop_namesActive.
Qed.

Lemma dispatchSettled_namesActive ok now s :
  namesActive s → namesActive (dispatchSettled ok now s).
Proof.
  unfold dispatchSettled. destruct (consumer s); [done| |done]. intros _.
  cbv zeta. unfold namesActive. by rewrite broadcast_eq.
Qed.

Lemma queueDelayElapsed_namesActive now s :
  namesActive s → namesActive (queueDelayElapsed K L now s).
Proof.
  unfold queueDelayElapsed. destruct (consumer s) eqn:Hc; [done|done|].
  intros _. apply consumerLoop_namesActive.
Qed.

Lemma enqueueSingleCommand_namesActive command did now id s :
  Inv K L s → namesActive s →
  namesActive (enqueueSingleCommand K L command did now id s).
Proof.
  intros [_ _ Ha _] Hn. rewrite enqueueSingleCommand_eq.
  apply processQueue_namesActive. unfold namesActive.
  rewrite broadcast_eq. unfold pushItem. cbv zeta. rewrite trimQueue_eq.
  simpl. rewrite Hn. destruct (consumer s) as [|next|] eqn:Hc; [done| |done].
  simpl. f_equal. unfold idOf. simpl.
  destruct (Ha _ Hc) as (item & Hitem & _).
  rewrite lookup_insert_ne; [done|]. intros <-.
  by rewrite fresh_ref_new in Hitem.
Qed.

Lemma step_namesActive s e :
  Inv K L s → namesActive s → namesActive (step K L s e).
Proof.
  intros HI Hn. destruct e as [now e].
  destruct e; unfold step; cbv beta iota.
  - destruct (chatRecord_cases K L did text user handle displayName avatarUrl
                now messageId itemId s)
      as (s4 & Hstep & [->|(raw & allow & p & Hp & ->)]);
      [by eapply identityStep_namesActive|].
    unfold enqueueCommand.
    assert (namesActive
              (enqueueSingleCommand K L (normalized p) did (Clock.sub now 4) itemId s4))
      as Hn'.
    { apply enqueueSingleCommand_namesActive.
      - by eapply Inv_identityStep.
      - by eapply identityStep_namesActive. }
    revert Hn'.
    generalize (enqueueSingleCommand K L (normalized p) did (Clock.sub now 4) itemId s4).
    intros s' Hn'. by case_bool_decide.
  - eapply identityStep_namesActive; [|done]. rewrite sseStream_eq.
    apply (broadcast_identityStep K L).
  - by apply dispatchSettled_namesActive.
  - by apply queueDelayElapsed_namesActive.
  - unfold repeatDelayElapsed.
    destruct (repeaters s !! k) as [r|] eqn:Hk; [|done].
    pose proof (enqueueSingleCommand_namesActive
                  (normalized (Repeater.command r))
                  (Repeater.did r) now itemId s HI Hn) as Hn'.
    revert Hn'.
    generalize (enqueueSingleCommand K L (normalized (Repeater.command r))
                  (Repeater.did r) now itemId s).
    intros s' Hn'. by case_bool_decide.
  - eapply identityStep_namesActive;
      [apply (lookupSettled_identityStep K L)|done].
Qed.

Lemma run_namesActive trace : ∀ s,
  Inv K L s → namesActive s → namesActive (run K L s trace).
Proof.
  induction trace as [|e trace IH]; intros s HI Hn; [done|].
  apply IH; [by apply step_Inv|by apply step_namesActive].
Qed.

(** *** What a chat record does to the queue *)

(** The result of the parser for a chat record in state [s]: the gate
    is the one of the tracker read that the record makes, when the
    clock reads [time]. *)
Definition accepts (s : State) (did text : string) (time : Z)
  : option ParsedCommand :=
  parseCommand K L text
    (bool_decide
       ((recordChatterAndCountUnique did time (chatterActivity s)).1 <
        MIN_UNIQUE_CHATTERS_FOR_NO_SPAM)).

(** The identity that [buildQueueItem] finds in the cache for the
    command of a chat record.  [cacheLocalIdentity] stored the identity
    of the record, if it carries one, when the clock read [stored];
    [buildQueueItem] looks at the cache when it reads [lookedUp]. *)
Definition known (s : State) (did : string)
    (handle displayName avatarUrl : option string) (stored lookedUp : Z)
  : option ResolvedIdentity.t :=
  match localIdentityFromRecord did handle displayName avatarUrl with
  | Some identity =>
      if bool_decide (lookedUp < stored + IDENTITY_CACHE_TTL_MS)
      then Some identity else None
  | None => cachedIdentityForDid did lookedUp s
  end.

Lemma hydrateIdentity_cache did now s :
  identityCache (hydrateIdentity did now s) = identityCache s.
Proof.
  unfold hydrateIdentity.
  match goal with |- context [match ?c with _ => _ end] =>
    destruct c as [cached|]
  end.
  - by destruct (applyIdentityToOverlay_identity
                   (CacheEntry.identity cached) (Clock.read now 1) s)
      as (-> & _).
  - by case_bool_decide.
Qed.

Lemma chatRecord_parts did text user handle displayName avatarUrl
    now messageId itemId s :
  ∃ s3,
    identityStep K L s s3 ∧
    (∀ lookedUp,
       cachedIdentityForDid did lookedUp s3 =
         known s did handle displayName avatarUrl
           (Clock.read (Clock.sub now 2) 0) lookedUp) ∧
    chatRecord K L did text user handle displayName avatarUrl
      now messageId itemId s =
      match accepts s did text (Clock.read now 0) with
      | Some parsedCommand =>
          enqueueCommand K L parsedCommand did (Clock.sub now 4) itemId s3
      | None => s3
      end.
Proof.
  unfold chatRecord, accepts.
  destruct (recordChatterAndCountUnique did _ (chatterActivity s))
    as [count activity].
  cbn [fst].
  set (allow := bool_decide (count < MIN_UNIQUE_CHATTERS_FOR_NO_SPAM)).
  set (s1 := pushChatMessage _ _ _ _ _ _ _).
  assert (identityStep K L s s1) as H1.
  { etrans; [by apply (frame_identityStep K L s (set_chatterActivity activity s))|].
    apply pushChatMessage_identityStep. }
  assert (identityCache s1 = identityCache s) as Hc1.
  { unfold s1, pushChatMessage. by rewrite broadcast_eq. }
  clearbody s1.
  match goal with
  | |- ∃ _, _ ∧ _ ∧ match _ with Some _ => _ | None => ?s3 end = _ =>
      exists s3
  end.
  split_and!; [| |done].
  - etrans; [done|]. etrans; [|apply hydrateIdentity_identityStep].
    destruct (localIdentityFromRecord _ _ _ _); [|done].
    apply cacheLocalIdentity_identityStep.
  - intros lookedUp. unfold known, cachedIdentityForDid.
    rewrite hydrateIdentity_cache.
    destruct (localIdentityFromRecord did handle displayName avatarUrl)
      as [identity|] eqn:Hlocal; [|by rewrite Hc1].
    assert (ResolvedIdentity.did identity = did) as Hdid.
    { unfold localIdentityFromRecord in Hlocal.
      destruct handle, displayName, avatarUrl; by simplify_eq. }
    unfold cacheLocalIdentity.
    match goal with |- context [applyIdentityToOverlay ?i ?n ?s0] =>
      destruct (applyIdentityToOverlay_identity i n s0) as (-> & _)
    end.
    simpl. rewrite Hdid, lookup_insert_eq. simpl.
    repeat case_bool_decide; try done; lia.
Qed.

(** *** The repeat loops *)

(** A suspended repeat loop is inside its count. *)
Definition loopBounded (r : Repeater.t) : Prop :=
  1 ≤ Repeater.i r < repeatCount (Repeater.command r) ∧
  repeatCount (Repeater.command r) ≤ MAX_COMMAND_SPAM_REPEAT.

(** The items that the event adds to those arrived or owed. *)
Definition gained (s : State) (e : Clock.t * Event) : nat :=
  match e.2 with
  | ChatRecord did text _ _ _ _ _ _ =>
      from_option (λ p, Z.to_nat (repeatCount p)) 0%nat
        (accepts s did text (Clock.read e.1 0))
  | _ => 0%nat
  end.

Lemma length_owedBy r :
  length (owedBy r) =
    Z.to_nat (repeatCount (Repeater.command r) - Repeater.i r).
Proof. unfold owedBy. apply length_replicate. Qed.

Lemma length_owed_insert (rs : list Repeater.t) k r r' :
  rs !! k = Some r →
  (length (<[k := r']> rs ≫= owedBy) + length (owedBy r) =
   length (rs ≫= owedBy) + length (owedBy r'))%nat.
Proof.
  intros Hk. rewrite insert_take_drop by (by eapply lookup_lt_Some).
  rewrite <- (take_drop_middle rs k r Hk) at 3.
  rewrite !bind_app, !bind_cons, !length_app. lia.
Qed.

Lemma length_owed_delete (rs : list Repeater.t) k r :
  rs !! k = Some r →
  (length (delete k rs ≫= owedBy) + length (owedBy r) =
   length (rs ≫= owedBy))%nat.
Proof.
  intros Hk. rewrite delete_take_drop.
  rewrite <- (take_drop_middle rs k r Hk) at 3.
  rewrite !bind_app, !bind_cons, !length_app. lia.
Qed.

Lemma step_loopBounded s e :
  Forall loopBounded (repeaters s) →
  Forall loopBounded (repeaters (step K L s e)).
Proof.
  intros Hb. destruct e as [now e].
  destruct e; unfold step; cbv beta iota.
  - destruct (chatRecord_cases K L did text user handle displayName avatarUrl
                now messageId itemId s)
      as (s4 & ((_&_&_&_&_&Hr&_)&_) & [->|(raw & allow & p & Hp & ->)]);
      [by rewrite Hr|].
    unfold enqueueCommand.
    destruct (enqueueSingleCommand_frame K L (normalized p) did (Clock.sub now 4) itemId s4)
      as (_ & Hr' & _).
    revert Hr'.
    generalize (enqueueSingleCommand K L (normalized p) did (Clock.sub now 4) itemId s4).
    intros s' Hr'. case_bool_decide as Hrep; [by rewrite Hr', Hr|].
    simpl. rewrite Hr', Hr. apply Forall_app. split; [done|].
    constructor; [|done]. unfold loopBounded. simpl.
    destruct (parseCommand_Some K L _ _ _ Hp) as (_ & _ & _ & _ & _ & ?).
    unfold MAX_COMMAND_SPAM_REPEAT. lia.
  - by rewrite sseStream_eq, broadcast_eq.
  - by destruct (dispatchSettled_consumerStep ok (Clock.read now 0) s)
      as (_ & -> & _).
  - by destruct (queueDelayElapsed_consumerStep K L now s) as (_ & -> & _).
  - unfold repeatDelayElapsed.
    destruct (repeaters s !! k) as [r|] eqn:Hk; [|done].
    destruct (enqueueSingleCommand_frame K L (normalized (Repeater.command r))
                (Repeater.did r) now itemId s) as (_ & Hr' & _).
    revert Hr'.
    generalize (enqueueSingleCommand K L (normalized (Repeater.command r))
                  (Repeater.did r) now itemId s).
    intros s' Hr'.
    pose proof (proj1 (Forall_forall _ _) Hb r (list_elem_of_lookup_2 _ _ _ Hk))
      as [Hi Hmax].
    case_bool_decide as Hlast; simpl; rewrite Hr'.
    + apply Forall_insert; [done|]. unfold loopBounded. simpl. lia.
    + by apply Forall_delete.
  - by destruct (lookupSettled_identityStep K L did outcome now s)
      as ((_&_&_&_&_&->&_)&_).
Qed.

Lemma run_loopBounded trace : ∀ s,
  Forall loopBounded (repeaters s) →
  Forall loopBounded (repeaters (run K L s trace)).
Proof.
  induction trace as [|e trace IH]; intros s Hb; [done|].
  apply IH. by apply step_loopBounded.
Qed.

(** X16.  An object of the queue stays for good and keeps its id, its
    participant, its command and its time; its status never goes back:
    from [queued] it goes to [active] or [error], from [active] to
    [done] or [error], and [done] and [error] are final, so a command
    that was dispatched, or failed, is not dispatched again. *)
Theorem status_only_advances trace trace' ref item :
  let s := run K L initial trace in
  let s' := run K L s trace' in
  heap s !! ref = Some item →
  ∃ item',
    heap s' !! ref = Some item' ∧ sameJob item item' ∧
    (QueueItem.status item' = QueueItem.status item ∨
     (statusRank (QueueItem.status item) <
      statusRank (QueueItem.status item'))%nat) ∧
    (QueueItem.status item ≠ Queued → QueueItem.status item' ≠ Queued) ∧
    (QueueItem.status item = Done ∨ QueueItem.status item = Error →
     QueueItem.status item' = QueueItem.status item).
Proof.
  intros s s' Hitem.
  destruct (run_progress trace' s (reachable_Inv K L trace)) as [Hp _].
  destruct (Hp _ _ Hitem) as (item' & Hitem' & Hjob & Hmove & _).
  exists item'. split_and!; [done|done| | |].
  - destruct Hmove; auto.
  - intros Hne Hq. destruct Hmove as [Heq|Hlt]; [congruence|].
    rewrite Hq in Hlt. simpl in Hlt. lia.
  - intros Hfinal. destruct Hmove as [Heq|Hlt]; [done|].
    destruct Hfinal as [Hst|Hst]; rewrite Hst in Hlt; simpl in Hlt;
      destruct (QueueItem.status item'); simpl in Hlt; lia.
Qed.

(** X17.  An item that overflow removed from the queue while it was
    still [queued] is lost: whatever happens afterwards it never comes
    back into the queue, it stays [queued], and the consumer never
    selects it. *)
Theorem overflow_item_stays_queued trace trace' ref :
  let s := run K L initial trace in
  let s' := run K L s trace' in
  isQueued (heap s) ref = true → ref ∉ commandQueue s →
  isQueued (heap s') ref = true ∧ (ref ∉ commandQueue s') ∧
  ∀ now, consumer (consumerLoop K L now s') ≠ AwaitDispatch ref.
Proof.
  intros s s' Hq Hout.
  destruct (run_progress trace' s (reachable_Inv K L trace)) as [Hp Hin].
  unfold isQueued in Hq. destruct (heap s !! ref) as [item|] eqn:Hitem; [|done].
  apply bool_decide_eq_true in Hq.
  destruct (Hp _ _ Hitem) as (item' & Hitem' & _ & _ & Hleft).
  assert (ref ∉ commandQueue s') as Hout'.
  { intros Hin'. apply Hout, Hin; [done|]. rewrite Hitem. by eexists. }
  split_and!; [|done|].
  - unfold isQueued, s'. rewrite Hitem'. apply bool_decide_eq_true.
    destruct (decide (QueueItem.status item' = Queued)); [done|].
    exfalso. by apply Hout, Hleft.
  - intros now Hsel.
    apply consumerLoop_selects in Hsel as (older & newer & Hqueue & _).
    apply Hout'. rewrite Hqueue. apply elem_of_app. right. by left.
Qed.

(** X18.  The calls of [dispatchMgbaCommand] made so far are, in their
    order, the commands of the arrivals that are no longer [queued]:
    every item is dispatched at most once, and in the order of arrival,
    also when the queue has overflowed.  The arrivals are a part in
    which the items that are still [queued] have been lost to overflow
    (they are not in the queue), and then items that are all
    [queued]. *)
Theorem dispatches_follow_arrivals trace :
  let s := run K L initial trace in
  dispatched s = callsOf K L s (filter (leftQueued s) (arrivals s)) ∧
  length (dispatched s) = length (filter (leftQueued s) (arrivals s)) ∧
  ∃ old waiting,
    arrivals s = old ++ waiting ∧
    Forall (λ r, isQueued (heap s) r = true) waiting ∧
    Forall (λ r, isQueued (heap s) r = true → r ∉ commandQueue s) old.
Proof.
  intros s.
  pose proof (reachable_Inv K L trace) as HI. fold s in HI.
  destruct (run_ledger trace initial (Inv_initial K L) ledger_initial)
    as (old & waiting & Hsplit & Hw & Ho & Hcalls).
  fold s in Hsplit, Hw, Ho, Hcalls.
  assert (dispatched s = callsOf K L s (filter (leftQueued s) (arrivals s)))
    as Heq.
  { rewrite Hsplit, filter_app, (filter_all_queued s waiting) by done.
    by rewrite app_nil_r. }
  split_and!; [done| |by exists old, waiting].
  rewrite Heq. unfold callsOf.
  assert (Forall (λ r, is_Some (callOf K L (commandOf s r)))
            (filter (leftQueued s) (arrivals s))) as Hall.
  { apply Forall_forall. intros r [_ Hr]%list_elem_of_filter.
    destruct (core_alloc _ _ _ _ (inv_core _ _ _ HI) r Hr) as [item Hitem].
    destruct (core_parse _ _ _ _ (inv_core _ _ _ HI) _ _ Hitem) as [p Hp].
    unfold callOf, commandOf. rewrite Hitem. simpl. rewrite Hp. by eexists. }
  clear -Hall. induction Hall as [|r refs [call Hr] _ IH]; [done|].
  rewrite omap_cons, Hr. simpl. by rewrite IH.
Qed.

(** X19.  No wake-up is lost: whenever no call of the consumer is
    suspended, no item of the queue is [queued]; and the flag
    [processingQueue] is set exactly when a call is suspended.  So an
    item that is [queued] in the queue always has a consumer that will
    come to it. *)
Theorem no_lost_wakeup trace :
  let s := run K L initial trace in
  (consumer s = Idle →
   Forall (λ ref, isQueued (heap s) ref = false) (commandQueue s)) ∧
  (∀ ref, ref ∈ commandQueue s → isQueued (heap s) ref = true →
          consumer s ≠ Idle ∧ processingQueue s = true).
Proof.
  intros s.
  pose proof (reachable_Inv K L trace) as HI. fold s in HI.
  assert (drained s) as Hd.
  { apply run_drained; [apply Inv_initial|done]. }
  assert (consumer s = Idle →
          Forall (λ ref, isQueued (heap s) ref = false) (commandQueue s)) as H.
  { intros Hidle. by apply find_none_all, Hd. }
  split; [done|]. intros ref Hin Hq.
  assert (consumer s ≠ Idle) as Hne.
  { intros Hidle. pose proof (proj1 (Forall_forall _ _) (H Hidle) ref Hin).
    congruence. }
  split; [done|]. by apply (inv_flag _ _ _ HI).
Qed.

(** X20.  [activeCommandId] names the item that is being dispatched:
    while the consumer awaits a dispatch it is the id of the item it
    dispatches, which is [active]; otherwise it is null and no item is
    [active]. *)
Theorem active_id_names_active_item trace :
  let s := run K L initial trace in
  match consumer s with
  | AwaitDispatch next =>
      ∃ item, heap s !! next = Some item ∧
              QueueItem.status item = Active ∧
              activeCommandId s = Some (QueueItem.id item)
  | _ =>
      activeCommandId s = None ∧
      ∀ ref item, heap s !! ref = Some item → QueueItem.status item ≠ Active
  end.
Proof.
  intros s.
  pose proof (reachable_Inv K L trace) as HI. fold s in HI.
  assert (namesActive s) as Hn.
  { apply run_namesActive; [apply Inv_initial|done]. }
  unfold namesActive in Hn. destruct HI as [HC _ Ha _].
  destruct (consumer s) as [|next|] eqn:Hc.
  - split; [done|]. intros ref item Hitem Hact.
    by pose proof (core_active _ _ _ _ HC _ _ Hitem Hact).
  - destruct (Ha _ Hc) as (item & Hitem & Hact).
    exists item. split_and!; [done|done|].
    rewrite Hn. simpl. unfold idOf. by rewrite Hitem.
  - split; [done|]. intros ref item Hitem Hact.
    by pose proof (core_active _ _ _ _ HC _ _ Hitem Hact).
Qed.

Lemma enqueueCommand_repeaters command did now id s :
  repeaters (enqueueCommand K L command did now id s) =
    if bool_decide (repeatCount command ≤ 1) then repeaters s
    else repeaters s ++ [Repeater.mk command did 1].
Proof.
  unfold enqueueCommand.
  destruct (enqueueSingleCommand_frame K L (normalized command) did now id s)
    as (_ & Hr & _).
  revert Hr.
  generalize (enqueueSingleCommand K L (normalized command) did now id s).
  intros s' Hr. case_bool_decide; simpl; by rewrite Hr.
Qed.

(** X21.  Repeats are conserved.  Every suspended repeat loop is inside
    its count, which is at most 100, so it owes between 1 and 99 items.
    An event changes the number of items that have arrived or are owed
    by the repeat count of the command it brings, if it is a chat
    record with an accepted command, and by nothing otherwise: the
    delay of a repeat loop turns one owed item into an arrival, and no
    other event adds or removes an item. *)
Theorem repeats_are_conserved trace e :
  let s := run K L initial trace in
  let s' := step K L s e in
  Forall loopBounded (repeaters s) ∧
  Forall (λ r, (1 ≤ length (owedBy r) ≤ 99)%nat) (repeaters s) ∧
  (length (arrivals s') + length (owed s') =
   length (arrivals s) + length (owed s) + gained s e)%nat.
Proof.
  intros s s'.
  assert (Forall loopBounded (repeaters s)) as Hb.
  { apply run_loopBounded. constructor. }
  split; [done|]. split.
  { eapply Forall_impl; [done|]. intros r [Hi Hmax].
    rewrite length_owedBy. unfold MAX_COMMAND_SPAM_REPEAT in Hmax. lia. }
  unfold s'. clearbody s. clear s'. destruct e as [now e]. unfold owed.
  destruct e; unfold step, gained; cbv beta iota; cbn [fst snd].
  - destruct (chatRecord_parts did text user handle displayName avatarUrl
                now messageId itemId s)
      as (s3 & ((_&Ha&_&_&_&Hr&_)&_) & _ & ->).
    destruct (accepts s did text (Clock.read now 0)) as [p|] eqn:Hp; simpl.
    + rewrite enqueueCommand_arrivals, enqueueCommand_repeaters, Ha, Hr.
      destruct (parseCommand_Some K L _ _ _ Hp) as (_ & _ & _ & _ & _ & ? & ?).
      rewrite length_app. simpl. case_bool_decide.
      * lia.
      * rewrite bind_app, length_app, bind_cons, length_app, length_owedBy.
        simpl. lia.
    + rewrite Ha, Hr. lia.
  - rewrite sseStream_eq, broadcast_eq. simpl. lia.
  - destruct (dispatchSettled_consumerStep ok (Clock.read now 0) s)
      as (_ & -> & -> & _). lia.
  - destruct (queueDelayElapsed_consumerStep K L now s) as (_ & -> & -> & _).
    lia.
  - rewrite repeatDelayElapsed_arrivals. unfold repeatDelayElapsed.
    destruct (repeaters s !! k) as [r|] eqn:Hk; [|rewrite app_nil_r; lia].
    destruct (enqueueSingleCommand_frame K L (normalized (Repeater.command r))
                (Repeater.did r) now itemId s) as (_ & Hr' & _).
    revert Hr'.
    generalize (enqueueSingleCommand K L (normalized (Repeater.command r))
                  (Repeater.did r) now itemId s).
    intros s1 Hr'.
    pose proof (proj1 (Forall_forall _ _) Hb r (list_elem_of_lookup_2 _ _ _ Hk))
      as [Hi Hmax].
    rewrite length_app. simpl.
    case_bool_decide as Hlast; simpl; rewrite Hr'.
    + pose proof (length_owed_insert (repeaters s) k r
                    (Repeater.mk (Repeater.command r) (Repeater.did r)
                       (Repeater.i r + 1)) Hk) as Hlen.
      rewrite !length_owedBy in Hlen. simpl in Hlen. lia.
    + pose proof (length_owed_delete (repeaters s) k r Hk) as Hlen.
      rewrite length_owedBy in Hlen. lia.
  - destruct (lookupSettled_identityStep K L did outcome now s)
      as ((_&->&_&_&_&->&_)&_). lia.
Qed.

(** X22.  A chat record whose text the parser accepts, under the gate
    read at the first reading of the clock, enqueues one item at once:
    a new object with the normalized command, the participant and the
    id of the event, and for its time the reading of the clock at
    [createdAt] in [buildQueueItem].  The item is labelled from what
    [buildQueueItem] finds in the cache when it reads the clock: the
    identity that the record itself carries, if any, unless 15 minutes
    have passed since [cacheLocalIdentity] stored it; else the valid
    cache entry of the participant; and else it has the shortened id.
    A record whose text is rejected leaves the queue, the arrivals, the
    repeat loops, the consumer and the dispatches as they are. *)
Theorem accepted_command_is_enqueued did text user handle displayName
    avatarUrl now messageId itemId s :
  let s' :=
    chatRecord K L did text user handle displayName avatarUrl
      now messageId itemId s in
  let gateAt := Clock.read now 0 in
  let stored := Clock.read (Clock.sub now 2) 0 in
  let build := Clock.sub (Clock.sub now 4) 0 in
  let lookedUp := Clock.read build 0 in
  let createdAt := Clock.read build 1 in
  let found := known s did handle displayName avatarUrl stored lookedUp in
  match accepts s did text gateAt with
  | Some parsedCommand =>
      ∃ ref item,
        heap s !! ref = None ∧
        arrivals s' = arrivals s ++ [ref] ∧
        heap s' !! ref = Some item ∧
        QueueItem.id item = itemId ∧ QueueItem.did item = did ∧
        QueueItem.command item = normalized parsedCommand ∧
        QueueItem.createdAt item = createdAt ∧
        QueueItem.user item =
          from_option (λ identity, queueLabelForIdentity identity did)
            (shortenDid did) found ∧
        QueueItem.handle item = found ≫= ResolvedIdentity.handle ∧
        QueueItem.avatarUrl item = found ≫= ResolvedIdentity.avatarUrl
  | None =>
      arrivals s' = arrivals s ∧ commandQueue s' = commandQueue s ∧
      repeaters s' = repeaters s ∧ consumer s' = consumer s ∧
      dispatched s' = dispatched s ∧
      ∀ ref, QueueItem.status <$> heap s' !! ref =
             QueueItem.status <$> heap s !! ref
  end.
Proof.
  cbv zeta.
  destruct (chatRecord_parts did text user handle displayName avatarUrl
              now messageId itemId s)
    as (s3 & ((Hq&Ha&_&_&Hc&Hr&Hd)&Hh&_) & Hknown & ->).
  destruct (accepts s did text (Clock.read now 0)) as [p|].
  - set (ref := fresh (dom (heap s3))).
    assert (heap s !! ref = None) as Hnew.
    { pose proof (fresh_ref_new s3) as Hn. fold ref in Hn.
      specialize (Hh ref). rewrite Hn in Hh. by inversion Hh. }
    rewrite enqueueCommand_arrivals, Ha. fold ref.
    unfold enqueueCommand.
    set (build := Clock.sub (Clock.sub now 4) 0).
    assert (∃ item,
              heap (enqueueSingleCommand K L (normalized p) did
                      (Clock.sub now 4) itemId s3)
                !! ref = Some item ∧
              statusOnly (buildQueueItem (normalized p) did build itemId s3)
                item)
      as (item & Hitem & Hso).
    { rewrite enqueueSingleCommand_eq. fold build.
      set (item0 := buildQueueItem (normalized p) did build itemId s3).
      destruct (processQueue_consumerStep K L (Clock.sub (Clock.sub now 4) 2)
                  (broadcast (Clock.read (Clock.sub now 4) 1)
                     (pushItem item0 s3))) as (_ & _ & _ & _ & Hst).
      specialize (Hst ref). rewrite broadcast_heap in Hst.
      destruct (pushItem_fields item0 s3) as (_ & Hheap & _).
      rewrite Hheap in Hst. fold ref in Hst. rewrite lookup_insert_eq in Hst.
      inversion Hst as [a b Hab Ha' Hb|]; subst. by exists b. }
    revert Hitem.
    generalize (enqueueSingleCommand K L (normalized p) did
                  (Clock.sub now 4) itemId s3).
    intros s' Hitem.
    exists ref, item. split; [done|]. split; [done|].
    split; [by case_bool_decide|].
    unfold statusOnly in Hso. unfold buildQueueItem in Hso. cbv zeta in Hso.
    rewrite Hknown in Hso. injection Hso as Hid Hdid Huser Hhandle Havatar Hcmd Hat.
    by split_and!.
  - split_and!; try done. intros ref. specialize (Hh ref).
    destruct Hh as [a b (_&_&_&Hst&_)|]; [|done]. simpl. by rewrite Hst.
Qed.

End WithDurations.

Lemma status_only_advances_witness :
  let trace :=
    [(Clock.const 0,
      ChatRecord "did:plc:alice" "a" "alice" None None None "m1" "q1")] in
  let s := run 80 240 initial trace in
  let s' := run 80 240 s [(Clock.const 80, DispatchSettled false)] in
  heap s !! 0%nat =
    Some (QueueItem.mk "q1" "did:plc:alice" "did:plc:alice" None None
            "a" Active 0) ∧
  ∃ item', heap s' !! 0%nat = Some item' ∧ QueueItem.command item' = "a" ∧
           QueueItem.status item' ≠ Queued.
Proof.
  cbv zeta. split; [reflexivity|].
  destruct (status_only_advances 80 240
              [(Clock.const 0,
                ChatRecord "did:plc:alice" "a" "alice" None None None
                  "m1" "q1")]
              [(Clock.const 80, DispatchSettled false)] 0%nat
              (QueueItem.mk "q1" "did:plc:alice" "did:plc:alice" None None
                 "a" Active 0) eq_refl)
    as (item' & Hitem' & (_ & _ & Hcmd & _) & _ & Hst & _).
  exists item'. split; [done|]. split; [by rewrite <- Hcmd|]. by apply Hst.
Defined.

(** Forty-two commands arrive while the first is being dispatched: the
    second has left the queue and is still [queued]. *)
Definition flood : list (Clock.t * Event) :=
  replicate 42
    (Clock.const 0,
     ChatRecord "did:plc:alice" "a" "alice" None None None "m" "q").

Lemma overflow_item_stays_queued_witness :
  let s := run 80 240 initial flood in
  let s' :=
    run 80 240 s
      [(Clock.const 80, DispatchSettled true);
       (Clock.const 160, QueueDelayElapsed)] in
  isQueued (heap s) 1%nat = true ∧ (1%nat ∉ commandQueue s) ∧
  isQueued (heap s') 1%nat = true ∧ (1%nat ∉ commandQueue s').
Proof.
  cbv zeta.
  assert (isQueued (heap (run 80 240 initial flood)) 1%nat = true) as Hq
    by (by vm_compute).
  assert (1%nat ∉ commandQueue (run 80 240 initial flood)) as Hout.
  { apply (bool_decide_unpack _). by vm_compute. }
  split; [exact Hq|]. split; [exact Hout|].
  destruct (overflow_item_stays_queued 80 240 flood
              [(Clock.const 80, DispatchSettled true);
               (Clock.const 160, QueueDelayElapsed)] 1%nat
              Hq Hout) as (Hq' & Hout' & _).
  exact (conj Hq' Hout').
Defined.

End QueueProps.

Import QueueProps.

(** ** Reading the records *)

Module ReaderProps.

Lemma nonBlankString_Some value s :
  Reader.nonBlankString value = Some s →
  value = Some (JsString s) ∧ trim s ≠ "".
Proof.
  unfold Reader.nonBlankString. destruct value as [[s'|]|]; [|done..].
  destruct (isEmpty (trim s')) eqn:E; [done|]. intros [= ->].
  split; [done|]. by destruct (trim s).
Qed.

Lemma firstNonBlank_Some candidates s :
  Reader.firstNonBlank candidates = Some s →
  Some (JsString s) ∈ candidates ∧ trim s ≠ "".
Proof.
  unfold Reader.firstNonBlank. intros Hhead.
  assert (s ∈ omap Reader.nonBlankString candidates) as Hin.
  { destruct (omap _ candidates); simplify_eq/=. by left. }
  apply list_elem_of_omap in Hin as (value & Hvalue & Hs).
  apply nonBlankString_Some in Hs as [-> Hne]. done.
Qed.

Lemma firstNonBlank_None candidates :
  Reader.firstNonBlank candidates = None →
  Forall (λ value, ∀ s, value = Some (JsString s) → trim s = "") candidates.
Proof.
  unfold Reader.firstNonBlank. intros Hhead.
  apply Forall_forall. intros value Hvalue s ->.
  destruct (isEmpty (trim s)) eqn:E; [by destruct (trim s)|].
  assert (s ∈ omap Reader.nonBlankString candidates) as Hin.
  { apply list_elem_of_omap. exists (Some (JsString s)). split; [done|].
    simpl. by rewrite E. }
  destruct (omap _ candidates); [by apply elem_of_nil in Hin|done].
Qed.

Lemma trim_nonempty s : trim s ≠ "" → s ≠ "".
Proof. by intros H ->. Qed.


(** X23.  What the readers of a record return is never blank.  The
    message text is the first of the properties [text], [message],
    [body], [content] and [msg] that is a string with more than white
    space, as it stands; a record with no such property has no text.
    [readFirstNonEmptyString] returns such a string trimmed, so it is
    not empty and has no white space around it.  The user name is the
    trimmed value of one of [user], [sender], [author] and [handle], or
    the shortened id, and is empty only if the id is. *)
Theorem readers_return_nonblank record did :
  match Reader.readMessageText record with
  | Some text =>
      trim text ≠ "" ∧
      ∃ name, name ∈ ["text"; "message"; "body"; "content"; "msg"] ∧
              record !! name = Some (JsString text)
  | None =>
      ∀ name s, name ∈ ["text"; "message"; "body"; "content"; "msg"] →
                record !! name = Some (JsString s) → trim s = ""
  end ∧
  (∀ values,
     match Reader.readFirstNonEmptyString values with
     | Some v =>
         v ≠ "" ∧ trim v = v ∧
         ∃ s, Some (JsString s) ∈ values ∧ v = trim s
     | None => ∀ s, Some (JsString s) ∈ values → trim s = ""
     end) ∧
  ((∃ name s, name ∈ ["user"; "sender"; "author"; "handle"] ∧
              record !! name = Some (JsString s) ∧ trim s ≠ "" ∧
              Reader.readUser record did = trim s) ∨
   Reader.readUser record did = shortenDid did) ∧
  (did ≠ "" → Reader.readUser record did ≠ "").
Proof.
  assert (∀ msg : option JsValue,
            match msg with
            | Some (JsString m) => Some (JsString m)
            | _ => None
            end = msg ∨
            (match msg with
             | Some (JsString m) => Some (JsString m)
             | _ => None
             end = None ∧ ∀ s, msg ≠ Some (JsString s))) as Hmsg.
  { intros [[m|]|]; [by left|right..]; by split. }
  split_and!.
  - unfold Reader.readMessageText.
    destruct (Reader.firstNonBlank _) as [text|] eqn:Hfirst.
    + apply firstNonBlank_Some in Hfirst as [Hin Hne]. split; [done|].
      repeat (apply elem_of_cons in Hin as [Hin|Hin]);
        [exists "text"|exists "message"|exists "body"|exists "content"
        |exists "msg"|by apply elem_of_nil in Hin];
        (split; [repeat constructor|]); try done.
      destruct (Hmsg (record !! "msg")) as [Heq|[Heq _]];
        rewrite Heq in Hin; done.
    + apply firstNonBlank_None in Hfirst. intros name s Hname Hs.
      apply Forall_cons in Hfirst as [H1 Hfirst].
      apply Forall_cons in Hfirst as [H2 Hfirst].
      apply Forall_cons in Hfirst as [H3 Hfirst].
      apply Forall_cons in Hfirst as [H4 Hfirst].
      apply Forall_cons in Hfirst as [H5 _].
      repeat (apply elem_of_cons in Hname as [->|Hname]);
        [by apply H1|by apply H2|by apply H3|by apply H4|
        |by apply elem_of_nil in Hname].
      apply H5. by rewrite Hs.
  - intros values. unfold Reader.readFirstNonEmptyString.
    destruct (Reader.firstNonBlank values) as [s|] eqn:Hfirst; simpl.
    + apply firstNonBlank_Some in Hfirst as [Hin Hne].
      split_and!; [done|apply trim_idemp|by exists s].
    + apply firstNonBlank_None in Hfirst. intros s Hin.
      by apply (proj1 (Forall_forall _ _) Hfirst _ Hin).
  - unfold Reader.readUser.
    destruct (Reader.firstNonBlank _) as [s|] eqn:Hfirst; [|by right].
    left. apply firstNonBlank_Some in Hfirst as [Hin Hne].
    repeat (apply elem_of_cons in Hin as [Hin|Hin]);
      [exists "user", s|exists "sender", s|exists "author", s
      |exists "handle", s|by apply elem_of_nil in Hin];
      (split_and!; [repeat constructor|done|done|done]).
  - intros Hdid. unfold Reader.readUser.
    destruct (Reader.firstNonBlank _) as [s|] eqn:Hfirst.
    + by apply firstNonBlank_Some in Hfirst as [_ Hne].
    + by apply shortenDid_nonempty.
Qed.




Section WithConfig.
Variable STREAMER_DID : string.
Variables K L : Z.

(** X25.  An event either leaves the state of the listener as it is,
    or it is the creation or the update of a chat message record for
    the streamer with a text that is not blank.  Then the entry of the
    sender, with the first reading of the clock, was appended to the
    tracker: what the tracker holds after the event is an end of the
    entries before followed by this entry.  And the text is the last
    message of the chat, as it stands, with the id of the sender and,
    for its time, the reading of the clock in [pushChatMessage]. *)
Theorem handled_event_is_recorded event now messageId itemId s :
  let s' := Reader.onEvent STREAMER_DID K L event now messageId itemId s in
  s' = s ∨
  ∃ did operation record text,
    event = CommitEvent did "place.stream.chat.message" operation
              (Some record) ∧
    (operation = "create" ∨ operation = "update") ∧
    record !! "streamer" = Some (JsString STREAMER_DID) ∧
    Reader.readMessageText record = Some text ∧ trim text ≠ "" ∧
    chatterActivity s' `suffix_of`
      chatterActivity s ++ [ChatterEntry.mk did (Clock.read now 0)] ∧
    ∃ message,
      last (chatMessages s') = Some message ∧
      ChatMessage.id message = messageId ∧ ChatMessage.did message = did ∧
      ChatMessage.text message = text ∧
      ChatMessage.createdAt message = Clock.read (Clock.sub now 1) 0.
Proof.
  cbv zeta. unfold Reader.onEvent.
  destruct event as [did collection operation record|did]; [|by left].
  case_bool_decide as Hcollection; [by left|].
  subst collection.
  case_bool_decide as Hoperation; [by left|].
  destruct record as [record|]; [|by left].
  case_bool_decide as Hstreamer; [by left|].
  destruct (Reader.readMessageText record) as [text|] eqn:Htext; [|by left].
  right. exists did, operation, record, text.
  split_and!; [done| |done|done| | |].
  - destruct (decide (operation = "create")); [by left|].
    destruct (decide (operation = "update")); [by right|].
    exfalso. by apply Hoperation.
  - unfold Reader.readMessageText in Htext.
    by apply firstNonBlank_Some in Htext as [_ ?].
  - etrans; [apply (evicts_suffix now), chatRecord_tracker|].
    apply evictExpired_suffix.
  - destruct (chatRecord_overlay K L did text (Reader.readUser record did)
                (Reader.recordHandle record) (Reader.recordDisplayName record)
                (Reader.recordAvatarUrl record) now messageId itemId s)
      as [Hchat _].
    cbv zeta in Hchat.
    set (message := posted _ _ _ _ _ _) in Hchat.
    assert (last (keepLast MAX_CHAT_MESSAGES (chatMessages s ++ [message])) =
              Some message) as Hlast.
    { apply keepLast_last. unfold MAX_CHAT_MESSAGES. lia. }
    apply last_Some in Hlast as [front Hfront]. rewrite Hfront in Hchat.
    apply Forall2_app_inv_l in Hchat as (front' & tail & _ & Htail & ->).
    apply Forall2_cons_inv_l in Htail as (m' & nil' & Hm & Hnil & ->).
    apply Forall2_nil_inv_l in Hnil as ->.
    exists m'. rewrite last_snoc. destruct Hm as (?&?&?&?&?).
    split_and!; by try symmetry.
Qed.

End WithConfig.


End ReaderProps.
